(** * receiver_view.py: latest-frame cache and display loop

    A shallow embedding of [receiver_view.py] (Project Aria gen2 client
    sample).  The script keeps the most recent RGB and SLAM frame in four
    module globals guarded by one lock, and polls them from a display loop.

    Layout of the development:
    - data: numpy arrays on a heap of references, the module globals;
    - a small state-and-exception monad for the main thread, with an
      environment oracle (keys pressed, frames delivered, SIGINT);
    - the two callbacks, [build_receiver], the loop body and [main];
    - a statement-level interleaving semantics of the callbacks and the
      snapshot block, for the properties that depend on the lock;
    - the theorems: the properties of the specification, then further
      properties of the code (uninterrupted runs in closed form, the quit key,
      SIGINT, the lock under every interleaving, the SDK calls). *)

From Stdlib Require Import ZArith String Ascii List Lia DecimalString.
From stdpp Require Import base list strings.

Open Scope Z_scope.
Open Scope string_scope.

(** ** Data *)

Inductive stream_id := RGB | SLAM.

#[global] Instance stream_id_eq_dec : EqDecision stream_id.
Proof. solve_decision. Defined.

(** One [cv2.putText] call, as drawn onto a buffer.  The glyph raster is the
    library's business; a buffer remembers the calls that drew on it. *)
Record text_draw := {
  td_text : string;
  td_org : Z * Z;
  td_font_face : Z;
  td_font_scale : Z * Z;      (* a decimal fraction: numerator, denominator *)
  td_color : Z * Z * Z;
  td_thickness : Z;
  td_line_type : Z
}.

(** A numpy array of uint8: its shape, its flat contents, and what has been
    drawn on it since it was created. *)
Record ndarray := {
  shape : list nat;
  pixels : list Z;
  drawn : list text_draw
}.

Definition empty_array : ndarray := {| shape := []; pixels := []; drawn := [] |}.

(** The SDK's payload types, as far as the script reads them. *)
Record ImageData := { payload_shape : list nat; payload : list Z }.
Record ImageDataRecord := { capture_timestamp_ns : Z }.

(** Arrays are Python objects: variables hold references into a heap. *)
Definition loc := nat.

(** A Python variable that is either [None] or (a reference to) a value. *)
Definition is_not_None {A} (v : option A) : bool :=
  match v with Some _ => true | None => false end.

(** The module state: the heap of arrays and lines 13-17. *)
Record mem := {
  heap : list ndarray;
  _lock : bool;                      (* true while the lock is held *)
  _latest_rgb : option loc;
  _latest_slam : option loc;
  _latest_rgb_ts : option Z;
  _latest_slam_ts : option Z
}.

Definition mem_init : mem :=
  {| heap := []; _lock := false;
     _latest_rgb := None; _latest_slam := None;
     _latest_rgb_ts := None; _latest_slam_ts := None |}.

Definition deref (m : mem) (l : loc) : ndarray := nth l (heap m) empty_array.

Definition mem_push (a : ndarray) (m : mem) : mem :=
  {| heap := heap m ++ [a]; _lock := _lock m;
     _latest_rgb := _latest_rgb m; _latest_slam := _latest_slam m;
     _latest_rgb_ts := _latest_rgb_ts m; _latest_slam_ts := _latest_slam_ts m |}.

(** A new array: its reference and the heap that holds it. *)
Definition mem_alloc (a : ndarray) (m : mem) : loc * mem :=
  (length (heap m), mem_push a m).

Definition mem_store (l : loc) (a : ndarray) (m : mem) : mem :=
  {| heap := <[l := a]> (heap m); _lock := _lock m;
     _latest_rgb := _latest_rgb m; _latest_slam := _latest_slam m;
     _latest_rgb_ts := _latest_rgb_ts m; _latest_slam_ts := _latest_slam_ts m |}.

Definition mem_set_lock (b : bool) (m : mem) : mem :=
  {| heap := heap m; _lock := b;
     _latest_rgb := _latest_rgb m; _latest_slam := _latest_slam m;
     _latest_rgb_ts := _latest_rgb_ts m; _latest_slam_ts := _latest_slam_ts m |}.

Definition mem_set_image (s : stream_id) (v : option loc) (m : mem) : mem :=
  match s with
  | RGB =>
      {| heap := heap m; _lock := _lock m;
         _latest_rgb := v; _latest_slam := _latest_slam m;
         _latest_rgb_ts := _latest_rgb_ts m; _latest_slam_ts := _latest_slam_ts m |}
  | SLAM =>
      {| heap := heap m; _lock := _lock m;
         _latest_rgb := _latest_rgb m; _latest_slam := v;
         _latest_rgb_ts := _latest_rgb_ts m; _latest_slam_ts := _latest_slam_ts m |}
  end.

Definition mem_set_ts (s : stream_id) (v : option Z) (m : mem) : mem :=
  match s with
  | RGB =>
      {| heap := heap m; _lock := _lock m;
         _latest_rgb := _latest_rgb m; _latest_slam := _latest_slam m;
         _latest_rgb_ts := v; _latest_slam_ts := _latest_slam_ts m |}
  | SLAM =>
      {| heap := heap m; _lock := _lock m;
         _latest_rgb := _latest_rgb m; _latest_slam := _latest_slam m;
         _latest_rgb_ts := _latest_rgb_ts m; _latest_slam_ts := v |}
  end.

Definition latest_image (s : stream_id) (m : mem) : option loc :=
  match s with RGB => _latest_rgb m | SLAM => _latest_slam m end.

Definition latest_ts (s : stream_id) (m : mem) : option Z :=
  match s with RGB => _latest_rgb_ts m | SLAM => _latest_slam_ts m end.

(** What a slot holds, by value: the stored array's contents and the stored
    timestamp. *)
Definition slot (s : stream_id) (m : mem) : option ndarray * option Z :=
  (deref m <$> latest_image s m, latest_ts s m).

(** ** The vendor SDK and the window system, as the script sees them *)

Record HttpServerConfig := { address : string; port : Z }.

(** The two callbacks of this module, as the function objects that are
    handed to the receiver. *)
Inductive callback := fn_rgb_callback | fn_slam_callback.

Record StreamReceiver := {
  enable_image_decoding : bool;
  enable_raw_stream : bool;
  server_config : option HttpServerConfig;
  vrs_path : option string;
  on_rgb : option callback;
  on_slam : option callback
}.

Inductive sdk_call :=
| NewStreamReceiver (decoding raw : bool)
| SetServerConfig (cfg : HttpServerConfig)
| RecordToVrs (path : string)
| RegisterRgbCallback (cb : callback)
| RegisterSlamCallback (cb : callback)
| StartServer.

(** Everything the program does that is visible from outside, in order. *)
Inductive event :=
| ESdk (c : sdk_call)
| EPrint (line : string)
| EImshow (winname : string) (img : ndarray)
| EWaitKey (delay : Z)
| ESleep (microseconds : Z)
| EDestroyAllWindows.

Definition frame : Type := stream_id * ImageData * ImageDataRecord.

(** The world of the main thread: the module state, the running server, the
    events so far (oldest first), and the environment still to come: the
    values [cv2.waitKey] will return, the frames the SDK threads deliver
    before each snapshot, and the number of main-thread statements after
    which SIGINT arrives (if it does). *)
Record world := {
  wmem : mem;
  server : option StreamReceiver;
  trace : list event;
  keys : list Z;
  arrivals : list (list frame);
  sigint : option nat
}.

Definition with_mem (m : mem) (w : world) : world :=
  {| wmem := m; server := server w; trace := trace w;
     keys := keys w; arrivals := arrivals w; sigint := sigint w |}.

Definition with_server (s : option StreamReceiver) (w : world) : world :=
  {| wmem := wmem w; server := s; trace := trace w;
     keys := keys w; arrivals := arrivals w; sigint := sigint w |}.

Definition with_trace (t : list event) (w : world) : world :=
  {| wmem := wmem w; server := server w; trace := t;
     keys := keys w; arrivals := arrivals w; sigint := sigint w |}.

Definition with_keys (k : list Z) (w : world) : world :=
  {| wmem := wmem w; server := server w; trace := trace w;
     keys := k; arrivals := arrivals w; sigint := sigint w |}.

Definition with_arrivals (a : list (list frame)) (w : world) : world :=
  {| wmem := wmem w; server := server w; trace := trace w;
     keys := keys w; arrivals := a; sigint := sigint w |}.

Definition with_sigint (n : option nat) (w : world) : world :=
  {| wmem := wmem w; server := server w; trace := trace w;
     keys := keys w; arrivals := arrivals w; sigint := n |}.

(** The interpreter right after the module body has run (lines 13-17), in
    a given environment. *)
Definition world_init (ks : list Z) (fs : list (list frame)) (int : option nat) : world :=
  {| wmem := mem_init; server := None; trace := [];
     keys := ks; arrivals := fs; sigint := int |}.

(** ** A state-and-exception monad for Python statements *)

Inductive exn := KeyboardInterrupt | AttributeError | cv2_error.

Inductive result (A : Type) :=
| Returns (a : A)
| Raises (e : exn)
| Deadlock               (* waiting for a lock that is never released *)
| Running.               (* the fuel ran out: the loop is still going *)
Arguments Returns {A} a.
Arguments Raises {A} e.
Arguments Deadlock {A}.
Arguments Running {A}.

Definition M (A : Type) : Type := world -> result A * world.

Definition ret {A} (a : A) : M A := fun w => (Returns a, w).

Definition bind {A B} (m : M A) (k : A -> M B) : M B :=
  fun w =>
    match m w with
    | (Returns a, w') => k a w'
    | (Raises e, w') => (Raises e, w')
    | (Deadlock, w') => (Deadlock, w')
    | (Running, w') => (Running, w')
    end.

Definition raise {A} (e : exn) : M A := fun w => (Raises e, w).

Notation "x <- m ;; k" := (bind m (fun x => k))
  (at level 100, m at next level, right associativity).
Notation "m ;;; k" := (bind m (fun _ => k))
  (at level 100, right associativity).

Definition get_mem : M mem := fun w => (Returns (wmem w), w).
Definition put_mem (m : mem) : M unit := fun w => (Returns tt, with_mem m w).
Definition emit (e : event) : M unit :=
  fun w => (Returns tt, with_trace (trace w ++ [e]) w).

(** Between two statements of the main thread the interpreter looks for a
    pending SIGINT and turns it into [KeyboardInterrupt]. *)
Definition checkpoint : M unit :=
  fun w =>
    match sigint w with
    | None => (Returns tt, w)
    | Some O => (Raises KeyboardInterrupt, with_sigint None w)
    | Some (S n) => (Returns tt, with_sigint (Some n) w)
    end.

(** [with _lock: body]: acquire, run the body, release on the way out
    whether the body returned or raised. *)
Definition acquire : M unit :=
  fun w =>
    if _lock (wmem w) then (Deadlock, w)
    else (Returns tt, with_mem (mem_set_lock true (wmem w)) w).

Definition release : M unit :=
  fun w => (Returns tt, with_mem (mem_set_lock false (wmem w)) w).

Definition with_lock {A} (body : M A) : M A :=
  acquire ;;;
  fun w =>
    match body w with
    | (Returns a, w') => (Returns a, snd (release w'))
    | (Raises e, w') => (Raises e, snd (release w'))
    | (Deadlock, w') => (Deadlock, w')
    | (Running, w') => (Running, w')
    end.

(** [try: body / except KeyboardInterrupt: handler / finally: final]. *)
Definition try_except_finally (body handler final : M unit) : M unit :=
  fun w =>
    let after_try :=
      match body w with
      | (Raises KeyboardInterrupt, w') => handler w'
      | other => other
      end in
    match after_try with
    | (Returns tt, w') => final w'
    | (Raises e, w') =>
        match final w' with
        | (Returns tt, w'') => (Raises e, w'')
        | other => other
        end
    | (Deadlock, w') => (Deadlock, w')
    | (Running, w') => (Running, w')
    end.

(** ** numpy, cv2, time, print *)

Definition set_image (s : stream_id) (v : option loc) : M unit :=
  m <- get_mem ;; put_mem (mem_set_image s v m).

Definition set_ts (s : stream_id) (v : option Z) : M unit :=
  m <- get_mem ;; put_mem (mem_set_ts s v m).

Definition new_array (a : ndarray) : M (option loc) :=
  m <- get_mem ;; put_mem (snd (mem_alloc a m)) ;;; ret (Some (fst (mem_alloc a m))).

(** [image_data.to_numpy_array()]: a fresh array holding the decoded pixels. *)
Definition array_of (d : ImageData) : ndarray :=
  {| shape := payload_shape d; pixels := payload d; drawn := [] |}.

Definition to_numpy_array (d : ImageData) : M (option loc) := new_array (array_of d).

(** [a.copy()]; on [None] the attribute lookup fails. *)
Definition ndarray_copy (a : option loc) : M (option loc) :=
  match a with
  | None => raise AttributeError
  | Some l => m <- get_mem ;; new_array (deref m l)
  end.

Inductive color_code := COLOR_RGB2BGR.

(** Channel order of every pixel triple reversed. *)
Fixpoint swap_rb (px : list Z) : list Z :=
  match px with
  | r :: g :: b :: rest => b :: g :: r :: swap_rb rest
  | rest => rest
  end.

Definition swap_rb_color (c : Z * Z * Z) : Z * Z * Z :=
  let '(c0, c1, c2) := c in (c2, c1, c0).

Definition swap_rb_draw (t : text_draw) : text_draw :=
  {| td_text := td_text t; td_org := td_org t; td_font_face := td_font_face t;
     td_font_scale := td_font_scale t; td_color := swap_rb_color (td_color t);
     td_thickness := td_thickness t; td_line_type := td_line_type t |}.

Definition convert (code : color_code) (a : ndarray) : ndarray :=
  match code with
  | COLOR_RGB2BGR =>
      {| shape := shape a; pixels := swap_rb (pixels a);
         drawn := map swap_rb_draw (drawn a) |}
  end.

(** [cv2.cvtColor(src, code)] returns a new array. *)
Definition cvtColor (src : option loc) (code : color_code) : M (option loc) :=
  match src with
  | None => raise cv2_error
  | Some l => m <- get_mem ;; new_array (convert code (deref m l))
  end.

Definition FONT_HERSHEY_SIMPLEX : Z := 0.
Definition LINE_AA : Z := 16.

Definition draw_text (t : text_draw) (a : ndarray) : ndarray :=
  {| shape := shape a; pixels := pixels a; drawn := drawn a ++ [t] |}.

(** [cv2.putText(img, ...)] draws on [img] in place. *)
Definition putText (img : option loc) (text : string) (org : Z * Z) (fontFace : Z)
    (fontScale : Z * Z) (color : Z * Z * Z) (thickness lineType : Z) : M unit :=
  match img with
  | None => raise cv2_error
  | Some l =>
      m <- get_mem ;;
      put_mem (mem_store l
        (draw_text {| td_text := text; td_org := org; td_font_face := fontFace;
                      td_font_scale := fontScale; td_color := color;
                      td_thickness := thickness; td_line_type := lineType |}
                   (deref m l)) m)
  end.

(** [cv2.imshow(winname, mat)] puts the buffer's current contents on screen. *)
Definition imshow (winname : string) (mat : option loc) : M unit :=
  match mat with
  | None => raise cv2_error
  | Some l => m <- get_mem ;; emit (EImshow winname (deref m l))
  end.

(** [cv2.waitKey(delay)]: the code of the key pressed meanwhile, or -1. *)
Definition waitKey (delay : Z) : M Z :=
  emit (EWaitKey delay) ;;;
  fun w =>
    match keys w with
    | [] => (Returns (-1), w)
    | k :: ks => (Returns k, with_keys ks w)
    end.

Definition destroyAllWindows : M unit := emit EDestroyAllWindows.
Definition print (line : string) : M unit := emit (EPrint line).
Definition sleep_us (microseconds : Z) : M unit := emit (ESleep microseconds).

Definition ord (c : ascii) : Z := Z.of_nat (nat_of_ascii c).

(** [str(x)] for an int or [None], as an f-string formats it. *)
Definition str_int (z : Z) : string := NilZero.string_of_int (Z.to_int z).

Definition str_opt_int (v : option Z) : string :=
  match v with None => "None" | Some z => str_int z end.

(** ** The callbacks (lines 20-33) *)

Definition rgb_callback (image_data : ImageData) (image_record : ImageDataRecord) : M unit :=
  img <- to_numpy_array image_data ;;
  with_lock (
    set_image RGB img ;;;
    set_ts RGB (Some (capture_timestamp_ns image_record))).

Definition slam_callback (image_data : ImageData) (image_record : ImageDataRecord) : M unit :=
  img <- to_numpy_array image_data ;;
  with_lock (
    set_image SLAM img ;;;
    set_ts SLAM (Some (capture_timestamp_ns image_record))).

Definition call (cb : callback) : ImageData -> ImageDataRecord -> M unit :=
  match cb with
  | fn_rgb_callback => rgb_callback
  | fn_slam_callback => slam_callback
  end.

(** ** The receiver object (the methods the script calls) *)

Definition new_StreamReceiver (decoding raw : bool) : M StreamReceiver :=
  emit (ESdk (NewStreamReceiver decoding raw)) ;;;
  ret {| enable_image_decoding := decoding; enable_raw_stream := raw;
         server_config := None; vrs_path := None; on_rgb := None; on_slam := None |}.

Definition set_server_config (cfg : HttpServerConfig) (sr : StreamReceiver) : M StreamReceiver :=
  emit (ESdk (SetServerConfig cfg)) ;;;
  ret {| enable_image_decoding := enable_image_decoding sr;
         enable_raw_stream := enable_raw_stream sr;
         server_config := Some cfg; vrs_path := vrs_path sr;
         on_rgb := on_rgb sr; on_slam := on_slam sr |}.

Definition sr_record_to_vrs (path : string) (sr : StreamReceiver) : M StreamReceiver :=
  emit (ESdk (RecordToVrs path)) ;;;
  ret {| enable_image_decoding := enable_image_decoding sr;
         enable_raw_stream := enable_raw_stream sr;
         server_config := server_config sr; vrs_path := Some path;
         on_rgb := on_rgb sr; on_slam := on_slam sr |}.

Definition register_rgb_callback (cb : callback) (sr : StreamReceiver) : M StreamReceiver :=
  emit (ESdk (RegisterRgbCallback cb)) ;;;
  ret {| enable_image_decoding := enable_image_decoding sr;
         enable_raw_stream := enable_raw_stream sr;
         server_config := server_config sr; vrs_path := vrs_path sr;
         on_rgb := Some cb; on_slam := on_slam sr |}.

Definition register_slam_callback (cb : callback) (sr : StreamReceiver) : M StreamReceiver :=
  emit (ESdk (RegisterSlamCallback cb)) ;;;
  ret {| enable_image_decoding := enable_image_decoding sr;
         enable_raw_stream := enable_raw_stream sr;
         server_config := server_config sr; vrs_path := vrs_path sr;
         on_rgb := on_rgb sr; on_slam := Some cb |}.

Definition start_server (sr : StreamReceiver) : M unit :=
  emit (ESdk StartServer) ;;;
  fun w => (Returns tt, with_server (Some sr) w).

(** The running server hands a decoded frame to the callback registered for
    its stream, if there is one.  The callback runs on an SDK thread; the
    lock makes its two assignments one step for the main thread. *)
Definition deliver (f : frame) : M unit :=
  fun w =>
    match server w, f with
    | None, _ => (Returns tt, w)
    | Some sr, (RGB, d, r) =>
        match on_rgb sr with Some cb => call cb d r w | None => (Returns tt, w) end
    | Some sr, (SLAM, d, r) =>
        match on_slam sr with Some cb => call cb d r w | None => (Returns tt, w) end
    end.

Fixpoint deliver_all (fs : list frame) : M unit :=
  match fs with
  | [] => ret tt
  | f :: rest => deliver f ;;; deliver_all rest
  end.

(** The frames that arrive before the next snapshot. *)
Definition sdk_threads_run : M unit :=
  fun w =>
    match arrivals w with
    | [] => (Returns tt, w)
    | fs :: later => deliver_all fs (with_arrivals later w)
    end.

(** ** Command line (lines 58-63) *)

(** What the user typed, option by option; lexing the argument vector is
    argparse's business. *)
Record command_line := {
  given_host : option string;
  given_port : option Z;
  given_record_to_vrs : option string;
  given_show_slam : bool
}.

Record Namespace := {
  host : string;
  port_number : Z;
  record_to_vrs : string;
  show_slam : bool
}.

Definition parse_args (c : command_line) : Namespace :=
  {| host := default "0.0.0.0" (given_host c);
     port_number := default 6768 (given_port c);
     record_to_vrs := default "" (given_record_to_vrs c);
     show_slam := given_show_slam c |}.

Definition no_flags : command_line :=
  {| given_host := None; given_port := None;
     given_record_to_vrs := None; given_show_slam := false |}.

(** Python's truth value of a string. *)
Definition truthy (s : string) : bool :=
  match s with EmptyString => false | String _ _ => true end.

Definition set_address (a : string) (cfg : HttpServerConfig) : HttpServerConfig :=
  {| address := a; port := port cfg |}.

Definition set_port (p : Z) (cfg : HttpServerConfig) : HttpServerConfig :=
  {| address := address cfg; port := p |}.

(** ** The display loop (lines 72-104) *)

Definition snapshot : Type := option loc * option loc * option Z * option Z.

Definition RGB_WINDOW : string := "Aria RGB (press q to quit)".
Definition SLAM_WINDOW : string := "Aria SLAM".

(** Lines 73-77. *)
Definition take_snapshot : M snapshot :=
  checkpoint ;;;
  with_lock (
    checkpoint ;;;
    m <- get_mem ;;
    rgb <- (if is_not_None (_latest_rgb m) then ndarray_copy (_latest_rgb m) else ret None) ;;
    checkpoint ;;;
    m <- get_mem ;;
    slam <- (if is_not_None (_latest_slam m) then ndarray_copy (_latest_slam m) else ret None) ;;
    checkpoint ;;;
    m <- get_mem ;;
    let rgb_ts := _latest_rgb_ts m in
    checkpoint ;;;
    m <- get_mem ;;
    let slam_ts := _latest_slam_ts m in
    ret (rgb, slam, rgb_ts, slam_ts)).

(** Lines 80-92. *)
Definition render_rgb (rgb : option loc) (rgb_ts : option Z) : M unit :=
  checkpoint ;;;
  if is_not_None rgb then
    checkpoint ;;;
    rgb_bgr <- cvtColor rgb COLOR_RGB2BGR ;;
    checkpoint ;;;
    putText rgb_bgr ("RGB ts(ns): " +:+ str_opt_int rgb_ts) (10, 30)
      FONT_HERSHEY_SIMPLEX (7, 10) (0, 255, 0) 2 LINE_AA ;;;
    checkpoint ;;;
    imshow RGB_WINDOW rgb_bgr
  else ret tt.

(** Lines 95-97. *)
Definition render_slam (args : Namespace) (slam : option loc) : M unit :=
  checkpoint ;;;
  if show_slam args && is_not_None slam then
    checkpoint ;;;
    imshow SLAM_WINDOW slam
  else ret tt.

(** Lines 99-104; the result says whether the loop was left by [break]. *)
Definition poll_quit : M bool :=
  checkpoint ;;;
  k <- waitKey 1 ;;
  let key := Z.land k 255 in
  checkpoint ;;;
  if (key =? ord "q"%char)%Z then
    checkpoint ;;;
    print "[Receiver] Quit requested." ;;;
    checkpoint ;;;
    ret true
  else
    checkpoint ;;;
    sleep_us 1000 ;;;
    ret false.

(** What follows the snapshot in one iteration. *)
Definition present (args : Namespace) (snap : snapshot) : M bool :=
  let '(rgb, slam, rgb_ts, slam_ts) := snap in
  render_rgb rgb rgb_ts ;;;
  render_slam args slam ;;;
  poll_quit.

Definition loop_body (args : Namespace) : M bool :=
  snap <- take_snapshot ;;
  present args snap.

(** [while True: ...], with the SDK threads running between iterations. *)
Fixpoint while_True (fuel : nat) (args : Namespace) : M unit :=
  match fuel with
  | O => fun w => (Running, w)
  | S fuel' =>
      sdk_threads_run ;;;
      stop <- loop_body args ;;
      if (stop : bool) then ret tt else while_True fuel' args
  end.

Definition NL : string := String (ascii_of_nat 10) EmptyString.

Section Script.

(** A freshly constructed [sdk_gen2.HttpServerConfig()]: the field values
    are the SDK's, unknown here. *)
Variable HttpServerConfig_new : HttpServerConfig.

(** Lines 36-54. *)
Definition build_receiver (host : string) (port : Z) (record_to_vrs : string)
  : M StreamReceiver :=
  let server_cfg := HttpServerConfig_new in
  let server_cfg := set_address host server_cfg in
  let server_cfg := set_port port server_cfg in
  sr <- new_StreamReceiver true false ;;
  sr <- set_server_config server_cfg sr ;;
  sr <- (if truthy record_to_vrs then sr_record_to_vrs record_to_vrs sr else ret sr) ;;
  sr <- register_rgb_callback fn_rgb_callback sr ;;
  sr <- register_slam_callback fn_slam_callback sr ;;
  ret sr.

(** Lines 57-112. *)
Definition main (argv : command_line) (fuel : nat) : M unit :=
  let args := parse_args argv in
  sr <- build_receiver (host args) (port_number args) (record_to_vrs args) ;;
  print ("[Receiver] Starting server on http(s)://" +:+ host args +:+ ":"
           +:+ str_int (port_number args)) ;;;
  print "[Receiver] Waiting for device to start streaming..." ;;;
  start_server sr ;;;
  try_except_finally
    (while_True fuel args)
    (print (NL +:+ "[Receiver] KeyboardInterrupt, exiting..."))
    (destroyAllWindows ;;;
     print "[Receiver] Done.").

End Script.

(** The process exit status of a run of [main], when it ends. *)
Definition exit_status (r : result unit) : option Z :=
  match r with
  | Returns _ => Some 0
  | Raises _ => Some 1
  | Deadlock | Running => None
  end.

(** ** The cache as the specification names it *)

(** [put(stream_id, image, timestamp_ns)] is the callback of that stream. *)
Definition put (f : frame) : M unit :=
  let '(s, d, r) := f in
  match s with
  | RGB => rgb_callback d r
  | SLAM => slam_callback d r
  end.

Fixpoint put_all (fs : list frame) : M unit :=
  match fs with
  | [] => ret tt
  | f :: rest => put f ;;; put_all rest
  end.

(** The last frame of stream [s] in a sequence of frames, if any. *)
Fixpoint last_put (s : stream_id) (fs : list frame) : option (ImageData * ImageDataRecord) :=
  match fs with
  | [] => None
  | (s', d, r) :: rest =>
      match last_put s rest with
      | Some x => Some x
      | None => if decide (s' = s) then Some (d, r) else None
      end
  end.

(** The record a put leaves in its slot, by value. *)
Definition record_of (x : option (ImageData * ImageDataRecord)) : option ndarray * option Z :=
  match x with
  | Some (d, r) => (Some (array_of d), Some (capture_timestamp_ns r))
  | None => (None, None)
  end.

(** One stream's part of a snapshot, by value. *)
Definition seen (s : stream_id) (m : mem) (snap : snapshot) : option ndarray * option Z :=
  let '(rgb, slam, rgb_ts, slam_ts) := snap in
  match s with
  | RGB => (deref m <$> rgb, rgb_ts)
  | SLAM => (deref m <$> slam, slam_ts)
  end.

(** ** Interleavings of the callbacks and the snapshot block

    The SDK runs callbacks on its own threads while the main thread takes
    snapshots.  Each thread is at one of the statements named below; a step
    runs one statement of one thread. *)

Inductive cb_pc :=
| CbCall (s : stream_id) (d : ImageData) (r : ImageDataRecord)   (* line 22 / 30 is next *)
| CbWait (s : stream_id) (img : option loc) (r : ImageDataRecord) (* at [with _lock:] *)
| CbHold (s : stream_id) (img : option loc) (r : ImageDataRecord) (* line 24 / 32 is next *)
| CbHalf (s : stream_id) (r : ImageDataRecord)                   (* line 25 / 33 is next *)
| CbExit                                                         (* leaving the block *)
| CbDone.

Definition cb_step (pc : cb_pc) (m : mem) : option (cb_pc * mem) :=
  match pc with
  | CbCall s d r =>
      Some (CbWait s (Some (fst (mem_alloc (array_of d) m))) r,
            snd (mem_alloc (array_of d) m))
  | CbWait s img r =>
      if _lock m then None else Some (CbHold s img r, mem_set_lock true m)
  | CbHold s img r => Some (CbHalf s r, mem_set_image s img m)
  | CbHalf s r => Some (CbExit, mem_set_ts s (Some (capture_timestamp_ns r)) m)
  | CbExit => Some (CbDone, mem_set_lock false m)
  | CbDone => None
  end.

Inductive sn_pc :=
| SnWait                                            (* at [with _lock:], line 73 *)
| SnHold                                            (* line 74 is next *)
| SnRgb (rgb : option loc)                          (* line 75 is next *)
| SnSlam (rgb slam : option loc)                    (* line 76 is next *)
| SnRgbTs (rgb slam : option loc) (rgb_ts : option Z) (* line 77 is next *)
| SnExit (snap : snapshot)                          (* leaving the block *)
| SnRest (snap : snapshot).                         (* lines 79-104, then back *)

(** [None if x is None else x.copy()] *)
Definition copy_or_None (x : option loc) (m : mem) : option loc * mem :=
  match x with
  | None => (None, m)
  | Some l => (Some (fst (mem_alloc (deref m l) m)), snd (mem_alloc (deref m l) m))
  end.

Definition sn_step (pc : sn_pc) (m : mem) : option (sn_pc * mem) :=
  match pc with
  | SnWait => if _lock m then None else Some (SnHold, mem_set_lock true m)
  | SnHold =>
      Some (SnRgb (fst (copy_or_None (_latest_rgb m) m)),
            snd (copy_or_None (_latest_rgb m) m))
  | SnRgb rgb =>
      Some (SnSlam rgb (fst (copy_or_None (_latest_slam m) m)),
            snd (copy_or_None (_latest_slam m) m))
  | SnSlam rgb slam => Some (SnRgbTs rgb slam (_latest_rgb_ts m), m)
  | SnRgbTs rgb slam rgb_ts => Some (SnExit (rgb, slam, rgb_ts, _latest_slam_ts m), m)
  | SnExit snap => Some (SnRest snap, mem_set_lock false m)
  | SnRest snap => Some (SnWait, m)
  end.

(** What the main thread has seen: both streams' parts of a snapshot. *)
Definition view : Type := (option ndarray * option Z) * (option ndarray * option Z).

Definition view_of (m : mem) (snap : snapshot) : view :=
  (seen RGB m snap, seen SLAM m snap).

Definition part (s : stream_id) (v : view) : option ndarray * option Z :=
  match s with RGB => fst v | SLAM => snd v end.

Record config := {
  cmem : mem;
  producers : list cb_pc;        (* the SDK threads running a callback *)
  display : sn_pc;               (* the main thread *)
  invoked : list frame;          (* every callback invocation so far *)
  observed : list view           (* every snapshot taken so far *)
}.

Definition config_init : config :=
  {| cmem := mem_init; producers := []; display := SnWait;
     invoked := []; observed := [] |}.

Inductive action :=
| Invoke (f : frame)             (* the SDK calls a callback on a new thread *)
| Producer (i : nat)             (* thread [i] runs its next statement *)
| Display.                       (* the main thread runs its next statement *)

Definition do_action (a : action) (c : config) : option config :=
  match a with
  | Invoke (s, d, r) =>
      Some {| cmem := cmem c; producers := producers c ++ [CbCall s d r];
              display := display c; invoked := invoked c ++ [(s, d, r)];
              observed := observed c |}
  | Producer i =>
      match producers c !! i with
      | None => None
      | Some pc =>
          match cb_step pc (cmem c) with
          | None => None
          | Some (pc', m') =>
              Some {| cmem := m'; producers := <[i := pc']> (producers c);
                      display := display c; invoked := invoked c;
                      observed := observed c |}
          end
      end
  | Display =>
      match sn_step (display c) (cmem c) with
      | None => None
      | Some (pc', m') =>
          Some {| cmem := m'; producers := producers c; display := pc';
                  invoked := invoked c;
                  observed :=
                    match display c with
                    | SnExit snap => observed c ++ [view_of (cmem c) snap]
                    | _ => observed c
                    end |}
      end
  end.

(** A schedule is a sequence of actions; it runs as far as every action is
    enabled. *)
Fixpoint run (sched : list action) (c : config) : option config :=
  match sched with
  | [] => Some c
  | a :: rest =>
      match do_action a c with
      | Some c' => run rest c'
      | None => None
      end
  end.

(** A stream's part of a view comes from one callback invocation: the image
    and the timestamp of the same call, or nothing at all. *)
Definition from_one_put (s : stream_id) (x : option ndarray * option Z) (calls : list frame) : Prop :=
  x = (None, None) \/
  exists d r, In (s, d, r) calls /\ x = (Some (array_of d), Some (capture_timestamp_ns r)).

(** ** Assertions about runs of the main thread *)

(** [wp m Q w]: running [m] in world [w] ends in a result and a world that
    satisfy [Q]. *)
Definition wp {A} (m : M A) (Q : result A -> world -> Prop) (w : world) : Prop :=
  Q (fst (m w)) (snd (m w)).

Definition bind_post {A B} (k : A -> M B) (Q : result B -> world -> Prop)
  : result A -> world -> Prop :=
  fun r w =>
    match r with
    | Returns a => wp (k a) Q w
    | Raises e => Q (Raises e) w
    | Deadlock => Q Deadlock w
    | Running => Q Running w
    end.

(** The ways a block of the main thread may end: it returns, or a pending
    SIGINT cuts it short, or (for the loop) the fuel runs out.  It neither
    raises anything else nor blocks. *)
Definition outcome {A} (J : world -> Prop) (Q : A -> world -> Prop)
  : result A -> world -> Prop :=
  fun r w =>
    match r with
    | Returns a => Q a w
    | Raises KeyboardInterrupt => J w
    | Running => J w
    | Raises _ | Deadlock => False
    end.

(** The SIGINT countdown after a checkpoint that let the thread go on. *)
Definition after_tick (s n : option nat) : Prop :=
  (s = None /\ n = None) \/ (exists k, s = Some (S k) /\ n = Some k).

(** The annotation of line 82-91 for a timestamp. *)
Definition ts_label (rgb_ts : option Z) : text_draw :=
  {| td_text := "RGB ts(ns): " +:+ str_opt_int rgb_ts; td_org := (10, 30);
     td_font_face := FONT_HERSHEY_SIMPLEX; td_font_scale := (7, 10);
     td_color := (0, 255, 0); td_thickness := 2; td_line_type := LINE_AA |}.

Definition annotated (img : ndarray) : Prop :=
  exists rgb_ts, drawn img = [ts_label rgb_ts].

(** A reference to an array nothing has been drawn on. *)
Definition clean (m : mem) (v : option loc) : Prop :=
  forall l, v = Some l -> (l < length (heap m))%nat /\ drawn (deref m l) = [].

Definition mem_ok (m : mem) : Prop :=
  clean m (_latest_rgb m) /\ clean m (_latest_slam m).

(** What the loop may put into the trace. *)
Definition shown_ok (args : Namespace) (e : event) : Prop :=
  match e with
  | EImshow name img =>
      (name = RGB_WINDOW /\ annotated img) \/
      (name = SLAM_WINDOW /\ show_slam args = true /\ drawn img = [])
  | ESdk _ | EDestroyAllWindows => False
  | EPrint _ | EWaitKey _ | ESleep _ => True
  end.

(** The events that are neither windows nor SDK calls. *)
Definition quiet_event (e : event) : Prop :=
  match e with
  | EPrint _ | EWaitKey _ | ESleep _ => True
  | ESdk _ | EImshow _ _ | EDestroyAllWindows => False
  end.

(** [t] is [t0] followed by events that all satisfy [ok]. *)
Definition trace_ok (ok : event -> Prop) (t0 t : list event) : Prop :=
  exists es, t = (t0 ++ es)%list /\ Forall ok es.

(** [m'] has the slots of [m] and every array of [m], unchanged. *)
Definition untouched (m m' : mem) : Prop :=
  _latest_rgb m' = _latest_rgb m /\ _latest_slam m' = _latest_slam m /\
  _latest_rgb_ts m' = _latest_rgb_ts m /\ _latest_slam_ts m' = _latest_slam_ts m /\
  (length (heap m) <= length (heap m'))%nat /\
  (forall l, (l < length (heap m))%nat -> deref m' l = deref m l).

(** What the main thread's statements keep, from world [w0] on. *)
Definition kept (ok : event -> Prop) (w0 w : world) : Prop :=
  _lock (wmem w) = _lock (wmem w0) /\ untouched (wmem w0) (wmem w) /\
  trace_ok ok (trace w0) (trace w) /\
  server w = server w0 /\ arrivals w = arrivals w0.

(** The receiver as [build_receiver] leaves it. *)
Definition both_registered (sr : StreamReceiver) : Prop :=
  on_rgb sr = Some fn_rgb_callback /\ on_slam sr = Some fn_slam_callback.

(** What holds between iterations of the loop: [t0] is the trace when the
    loop was entered, [fs] the frames the environment had in store then. *)
Definition loop_inv (args : Namespace) (t0 : list event) (sr : StreamReceiver)
    (fs : list (list frame)) (w : world) : Prop :=
  _lock (wmem w) = false /\ mem_ok (wmem w) /\
  trace_ok (shown_ok args) t0 (trace w) /\
  server w = Some sr /\
  exists n, arrivals w = drop n fs /\
    forall s, slot s (wmem w) = record_of (last_put s (concat (take n fs))).

Definition is_quit (k : Z) : bool := (Z.land k 255 =? ord "q"%char)%Z.

Definition shows (name : string) (e : event) : bool :=
  match e with
  | EImshow n _ => (n =? name)%string
  | _ => false
  end.

(** How often a window was drawn in a trace. *)
Definition times_shown (name : string) (t : list event) : nat :=
  length (filter (fun e => shows name e = true) t).

(** The events of the setup (lines 58-69). *)
Definition setup_events (args : Namespace) : list event :=
  [ESdk (NewStreamReceiver true false);
   ESdk (SetServerConfig {| address := host args; port := port_number args |})] ++
  (if truthy (record_to_vrs args) then [ESdk (RecordToVrs (record_to_vrs args))] else []) ++
  [ESdk (RegisterRgbCallback fn_rgb_callback);
   ESdk (RegisterSlamCallback fn_slam_callback);
   EPrint ("[Receiver] Starting server on http(s)://" +:+ host args +:+ ":"
             +:+ str_int (port_number args));
   EPrint "[Receiver] Waiting for device to start streaming...";
   ESdk StartServer].

(** The events of the teardown (line 109-112). *)
Definition teardown_events : list event :=
  [EDestroyAllWindows; EPrint "[Receiver] Done."].

(** What a snapshot returns: fresh copies of the stored arrays and the
    stored timestamps. *)
Definition snapshot_of (w w' : world) (snap : snapshot) : Prop :=
  let '(rgb, slam, rgb_ts, slam_ts) := snap in
  (forall l, rgb = Some l \/ slam = Some l ->
     (length (heap (wmem w)) <= l < length (heap (wmem w')))%nat) /\
  (mem_ok (wmem w) ->
     (forall s, seen s (wmem w') snap = slot s (wmem w)) /\
     clean (wmem w') rgb /\ clean (wmem w') slam).

(** The module state after the callback of stream [s] has run from start to
    end with the lock free. *)
Definition mem_put (s : stream_id) (d : ImageData) (r : ImageDataRecord) (m : mem) : mem :=
  mem_set_lock false
    (mem_set_ts s (Some (capture_timestamp_ns r))
       (mem_set_image s (Some (length (heap m)))
          (mem_set_lock true (mem_push (array_of d) m)))).

(** The receiver that [main] starts. *)
Definition receiver_of (args : Namespace) : StreamReceiver :=
  {| enable_image_decoding := true; enable_raw_stream := false;
     server_config := Some {| address := host args; port := port_number args |};
     vrs_path := if truthy (record_to_vrs args) then Some (record_to_vrs args) else None;
     on_rgb := Some fn_rgb_callback; on_slam := Some fn_slam_callback |}.

(** The world when the loop is entered (line 71). *)
Definition after_setup (args : Namespace) (w : world) : world :=
  with_server (Some (receiver_of args)) (with_trace (trace w ++ setup_events args) w).

(** The handler of line 106-107 and the [finally] block of lines 109-112. *)
Definition handler : M unit := print (NL +:+ "[Receiver] KeyboardInterrupt, exiting...").
Definition teardown : M unit := destroyAllWindows ;;; print "[Receiver] Done.".

(** How a block of the loop body uses up the SIGINT countdown: when it
    returns, a pending SIGINT has come closer; when it is interrupted, SIGINT
    was pending and is not any more. *)
Definition paced {A} (s : option nat) : result A -> world -> Prop :=
  fun r w' =>
    match r with
    | Returns _ =>
        match s with
        | None => sigint w' = None
        | Some k => exists k', sigint w' = Some k' /\ (k' < k)%nat
        end
    | Raises KeyboardInterrupt => s <> None /\ sigint w' = None
    | Running => False
    | Raises _ | Deadlock => True
    end.

(** ** One iteration that SIGINT does not disturb, in closed form *)

(** Lines 73-77 on the module state. *)
Definition snapshot_mem (m : mem) : snapshot * mem :=
  let rgb := copy_or_None (_latest_rgb m) m in
  let slam := copy_or_None (_latest_slam (snd rgb)) (snd rgb) in
  ((fst rgb, fst slam, _latest_rgb_ts (snd slam), _latest_slam_ts (snd slam)),
   snd slam).

(** Lines 81-91 on the module state: the converted frame, drawn on. *)
Definition rendered (rgb : option loc) (rgb_ts : option Z) (m : mem) : mem :=
  match rgb with
  | None => m
  | Some l =>
      mem_store (length (heap m))
        (draw_text (ts_label rgb_ts)
           (deref (mem_push (convert COLOR_RGB2BGR (deref m l)) m) (length (heap m))))
        (mem_push (convert COLOR_RGB2BGR (deref m l)) m)
  end.

Definition rgb_events (rgb : option loc) (rgb_ts : option Z) (m : mem) : list event :=
  match rgb with
  | None => []
  | Some l => [EImshow RGB_WINDOW (deref (rendered rgb rgb_ts m) (length (heap m)))]
  end.

Definition slam_events (args : Namespace) (slam : option loc) (m : mem) : list event :=
  if show_slam args then
    match slam with
    | None => []
    | Some l => [EImshow SLAM_WINDOW (deref m l)]
    end
  else [].

Definition key_events (k : Z) : list event :=
  EWaitKey 1 ::
  (if is_quit k then [EPrint "[Receiver] Quit requested."] else [ESleep 1000]).

Definition present_events (args : Namespace) (snap : snapshot) (m : mem) (k : Z)
  : list event :=
  let '(rgb, slam, rgb_ts, slam_ts) := snap in
  rgb_events rgb rgb_ts m ++ slam_events args slam (rendered rgb rgb_ts m) ++
  key_events k.

Definition next_key (w : world) : Z := hd (-1) (keys w).

Definition iteration_mem (m : mem) : mem :=
  rendered (fst (fst (fst (fst (snapshot_mem m))))) (snd (fst (fst (snapshot_mem m))))
    (snd (snapshot_mem m)).

Definition iteration_events (args : Namespace) (m : mem) (k : Z) : list event :=
  present_events args (fst (snapshot_mem m)) (snd (snapshot_mem m)) k.

(** The world after one undisturbed iteration. *)
Definition after_iteration (args : Namespace) (w : world) : world :=
  with_keys (tl (keys w))
    (with_trace (trace w ++ iteration_events args (wmem w) (next_key w))
       (with_mem (iteration_mem (wmem w)) w)).

(** Batches of frames that hold no SLAM frame. *)
Definition rgb_only (fs : list (list frame)) : Prop :=
  Forall (Forall (fun f : frame => fst (fst f) = RGB)) fs.

(** The RGB slot is filled, or will be by the frames of the next batch. *)
Definition rgb_ready (w : world) : Prop :=
  is_not_None (_latest_rgb (wmem w)) = true \/
  exists d r, In (RGB, d, r) (hd [] (arrivals w)).

(** Every event passes: for what an iteration leaves untouched, whatever it
    shows. *)
Definition any_event (e : event) : Prop := True.

(** The events between two worlds of a run. *)
Definition new_events (w w' : world) : list event :=
  drop (length (trace w)) (trace w').

(** Every image put on screen carries the annotation. *)
Definition presents_only_annotated (t : list event) : Prop :=
  forall name img, In (EImshow name img) t -> annotated img.

(** ** Sample inputs *)

Definition sample_config : HttpServerConfig := {| address := "127.0.0.1"; port := 8080 |}.

Definition sample_rgb : ImageData :=
  {| payload_shape := [1; 2; 3]%nat; payload := [10; 20; 30; 40; 50; 60] |}.

Definition sample_rgb2 : ImageData :=
  {| payload_shape := [1; 2; 3]%nat; payload := [11; 21; 31; 41; 51; 61] |}.

Definition sample_slam : ImageData :=
  {| payload_shape := [2; 2]%nat; payload := [7; 8; 9; 10] |}.

Definition at_ns (t : Z) : ImageDataRecord := {| capture_timestamp_ns := t |}.

Definition with_show_slam : command_line :=
  {| given_host := None; given_port := None;
     given_record_to_vrs := None; given_show_slam := true |}.



(** One batch with a frame of each stream, then the quit key. *)
Definition sample_world : world :=
  world_init [ord "q"%char] [[(RGB, sample_rgb, at_ns 100); (SLAM, sample_slam, at_ns 50)]] None.

(** Two command lines that differ at most in [--show-slam]. *)
Definition same_but_show_slam (c c' : command_line) : Prop :=
  given_host c = given_host c' /\ given_port c = given_port c' /\
  given_record_to_vrs c = given_record_to_vrs c'.

(** The module state after a sequence of callbacks, each run alone. *)
Fixpoint mem_put_all (fs : list frame) (m : mem) : mem :=
  match fs with
  | [] => m
  | (s, d, r) :: rest => mem_put_all rest (mem_put s d r m)
  end.



(** The world after the next batch of frames has been delivered. *)
Definition after_batch (w : world) : world :=
  with_mem (mem_put_all (hd [] (arrivals w)) (wmem w))
    (with_arrivals (tl (arrivals w)) w).

(** ** The invariant of the interleavings *)

(** The statements inside [with _lock:]. *)
Definition in_cs (pc : cb_pc) : bool :=
  match pc with
  | CbHold _ _ _ | CbHalf _ _ | CbExit => true
  | CbCall _ _ _ | CbWait _ _ _ | CbDone => false
  end.

Definition sn_in_cs (pc : sn_pc) : bool :=
  match pc with
  | SnHold | SnRgb _ | SnSlam _ _ | SnRgbTs _ _ _ | SnExit _ => true
  | SnWait | SnRest _ => false
  end.

Definition count_cs (pcs : list cb_pc) : nat := length (List.filter in_cs pcs).

(** How many threads are inside the lock. *)
Definition holders (c : config) : nat :=
  (count_cs (producers c) + (if sn_in_cs (display c) then 1 else 0))%nat.

(** [l] holds the decoded image of an invocation of stream [s] with record
    [r]. *)
Definition stored_from (s : stream_id) (calls : list frame) (m : mem) (l : loc)
    (r : ImageDataRecord) : Prop :=
  (l < length (heap m))%nat /\
  exists d, In (s, d, r) calls /\ deref m l = array_of d.

(** What a callback thread knows at each statement. *)
Definition cb_ok (calls : list frame) (m : mem) (pc : cb_pc) : Prop :=
  match pc with
  | CbCall s d r => In (s, d, r) calls
  | CbWait s img r | CbHold s img r =>
      exists l, img = Some l /\ stored_from s calls m l r
  | CbHalf s r => exists l, latest_image s m = Some l /\ stored_from s calls m l r
  | CbExit | CbDone => True
  end.

(** A slot that is not being written holds nothing, or the image and the
    timestamp of one invocation. *)
Definition coherent (s : stream_id) (calls : list frame) (m : mem) : Prop :=
  (latest_image s m = None /\ latest_ts s m = None) \/
  exists l r, latest_image s m = Some l /\
              latest_ts s m = Some (capture_timestamp_ns r) /\
              stored_from s calls m l r.

Definition writing (s : stream_id) (pcs : list cb_pc) : Prop :=
  exists r, In (CbHalf s r) pcs.

(** [v] is the main thread's copy of the stored array (or [None] for [None]). *)
Definition copy_of (m : mem) (v stored : option loc) : Prop :=
  match stored with
  | None => v = None
  | Some l =>
      exists l', v = Some l' /\ (l < length (heap m))%nat /\
                 (l' < length (heap m))%nat /\ deref m l' = deref m l
  end.

(** What the main thread knows at each statement of the snapshot block. *)
Definition sn_ok (m : mem) (pc : sn_pc) : Prop :=
  match pc with
  | SnWait | SnHold | SnRest _ => True
  | SnRgb rgb => copy_of m rgb (_latest_rgb m)
  | SnSlam rgb slam =>
      copy_of m rgb (_latest_rgb m) /\ copy_of m slam (_latest_slam m)
  | SnRgbTs rgb slam rgb_ts =>
      copy_of m rgb (_latest_rgb m) /\ copy_of m slam (_latest_slam m) /\
      rgb_ts = _latest_rgb_ts m
  | SnExit (rgb, slam, rgb_ts, slam_ts) =>
      copy_of m rgb (_latest_rgb m) /\ copy_of m slam (_latest_slam m) /\
      rgb_ts = _latest_rgb_ts m /\ slam_ts = _latest_slam_ts m
  end.

Record config_inv (c : config) : Prop := {
  inv_lock : holders c = if _lock (cmem c) then 1%nat else 0%nat;
  inv_threads : Forall (cb_ok (invoked c) (cmem c)) (producers c);
  inv_slots : forall s, ~ writing s (producers c) -> coherent s (invoked c) (cmem c);
  inv_display : sn_ok (cmem c) (display c);
  inv_observed :
    Forall (fun v => forall s, from_one_put s (part s v) (invoked c)) (observed c)
}.

(** A thread run alone for [n] statements. *)
Fixpoint cb_run (n : nat) (pc : cb_pc) (m : mem) : option (cb_pc * mem) :=
  match n with
  | O => Some (pc, m)
  | S n' =>
      match cb_step pc m with
      | Some (pc', m') => cb_run n' pc' m'
      | None => None
      end
  end.

Fixpoint sn_run (n : nat) (pc : sn_pc) (m : mem) : option (sn_pc * mem) :=
  match n with
  | O => Some (pc, m)
  | S n' =>
      match sn_step pc m with
      | Some (pc', m') => sn_run n' pc' m'
      | None => None
      end
  end.

(** A schedule in which the main thread takes a snapshot while one callback
    waits for the lock, and another after that callback has written. *)
Definition sample_schedule : list action :=
  [Invoke (RGB, sample_rgb, at_ns 100);
   Producer 0; Producer 0; Producer 0; Producer 0; Producer 0;
   Display;
   Invoke (RGB, sample_rgb2, at_ns 200); Producer 1;
   Invoke (SLAM, sample_slam, at_ns 50); Producer 2;
   Display; Display; Display; Display; Display; Display;
   Producer 2; Producer 2;
   Producer 2; Producer 2;
   Producer 1; Producer 1; Producer 1; Producer 1;
   Display; Display; Display; Display; Display; Display].

(** ** An uninterrupted run, frame by frame *)

(** What lines 81-92 put on screen for an RGB frame [d] with record [r]. *)
Definition rgb_view (d : ImageData) (r : ImageDataRecord) : ndarray :=
  draw_text (ts_label (Some (capture_timestamp_ns r)))
    (convert COLOR_RGB2BGR (array_of d)).

(** The events of one iteration, given the frames delivered so far and the
    key that the poll reads. *)
Definition frame_events (args : Namespace) (got : list frame) (k : Z) : list event :=
  (match last_put RGB got with
   | Some (d, r) => [EImshow RGB_WINDOW (rgb_view d r)]
   | None => []
   end) ++
  (if show_slam args then
     match last_put SLAM got with
     | Some (d, _) => [EImshow SLAM_WINDOW (array_of d)]
     | None => []
     end
   else []) ++
  key_events k.

(** Iteration [i] (from 0) comes after the batches 0..i and reads key [i];
    [waitKey] returns -1 once the keys are used up. *)
Definition nth_iteration (args : Namespace) (fs : list (list frame)) (ks : list Z)
    (i : nat) : list event :=
  frame_events args (concat (take (S i) fs)) (nth i ks (-1)).

(** How many iterations [fuel] turns of the loop run with keys [ks], and
    whether the last of them read the quit key. *)
Fixpoint iterations (fuel : nat) (ks : list Z) : nat :=
  match fuel with
  | O => O
  | S fuel' => S (if is_quit (hd (-1) ks) then O else iterations fuel' (tl ks))
  end.

Fixpoint quits (fuel : nat) (ks : list Z) : bool :=
  match fuel with
  | O => false
  | S fuel' => is_quit (hd (-1) ks) || quits fuel' (tl ks)
  end.

(** The loop's state before iteration [n] of an uninterrupted run. *)
Definition before_iteration (sr : StreamReceiver) (fs : list (list frame))
    (ks : list Z) (n : nat) (w : world) : Prop :=
  _lock (wmem w) = false /\ mem_ok (wmem w) /\ server w = Some sr /\
  sigint w = None /\ arrivals w = drop n fs /\ keys w = drop n ks /\
  forall s, slot s (wmem w) = record_of (last_put s (concat (take n fs))).

(** Counting the key polls and the sleeps of a trace. *)
Definition is_poll (e : event) : bool :=
  match e with EWaitKey _ => true | _ => false end.

Definition is_sleep (e : event) : bool :=
  match e with ESleep _ => true | _ => false end.

Definition count (p : event -> bool) (t : list event) : nat :=
  length (List.filter p t).

(** ** Runs with and without a pending SIGINT *)

(** The same world with no SIGINT to come. *)
Definition calm (w : world) : world := with_sigint None w.

(** A block run with a pending SIGINT does what it does without one, up to
    the statement at which the signal strikes: either it ends as the calm run
    does, in the same world but for the countdown, or it raises
    [KeyboardInterrupt] having produced a prefix of the calm run's events. *)
Definition follows_calm {A} (m : M A) : Prop :=
  forall w,
    trace w `prefix_of` trace (snd (m w)) /\
    match fst (m w) with
    | Raises KeyboardInterrupt =>
        sigint w <> None /\ trace (snd (m w)) `prefix_of` trace (snd (m (calm w)))
    | r => m (calm w) = (r, calm (snd (m w)))
    end.

(** ** Work left in an interleaving *)

(** The statements a callback thread still has to run. *)
Definition cb_left (pc : cb_pc) : nat :=
  match pc with
  | CbCall _ _ _ => 5
  | CbWait _ _ _ => 4
  | CbHold _ _ _ => 3
  | CbHalf _ _ => 2
  | CbExit => 1
  | CbDone => 0
  end.

(** The statements the main thread still has to run to leave the snapshot
    block, when it is inside. *)
Definition sn_left (pc : sn_pc) : nat :=
  match pc with
  | SnHold => 5
  | SnRgb _ => 4
  | SnSlam _ _ => 3
  | SnRgbTs _ _ _ => 2
  | SnExit _ => 1
  | SnWait | SnRest _ => 0
  end.

Definition work_left (c : config) : nat :=
  (list_sum (map cb_left (producers c)) + sn_left (display c))%nat.

Definition is_step (a : action) : bool :=
  match a with Invoke _ => false | Producer _ | Display => true end.

(** The start of [sample_schedule]: the first callback has finished, the
    main thread is inside the snapshot block, a second callback waits. *)
Definition sample_schedule_start : list action := take 9 sample_schedule.

(** ** The cache at one moment *)

(** Both slots by value: the cache as it stands. *)
Definition cache_view (m : mem) : view := (slot RGB m, slot SLAM m).

(** The cache stood at [v] at some moment of the schedule at which the main
    thread was leaving the snapshot block. *)
Definition cache_at_exit (sched : list action) (c0 : config) (v : view) : Prop :=
  exists n c1 snap,
    run (take n sched) c0 = Some c1 /\ display c1 = SnExit snap /\
    cache_view (cmem c1) = v.

(** ** The SDK calls of a run *)


(** * Proofs *)

(** ** Rules for running statements *)

Lemma wp_bind {A B} (m : M A) (k : A -> M B) Q w :
  wp m (bind_post k Q) w -> wp (bind m k) Q w.
Proof.
  unfold wp, bind_post, bind. destruct (m w) as [[a|e| |] w']; simpl; auto.
Qed.

Lemma wp_mono {A} (m : M A) (Q Q' : result A -> world -> Prop) w :
  wp m Q w -> (forall r w', Q r w' -> Q' r w') -> wp m Q' w.
Proof. unfold wp. auto. Qed.

Lemma wp_ret {A} (a : A) Q w : Q (Returns a) w -> wp (ret a) Q w.
Proof. auto. Qed.

Lemma with_sigint_id w : with_sigint (sigint w) w = w.
Proof. destruct w; reflexivity. Qed.

Lemma wp_checkpoint Q w :
  match sigint w with
  | None => Q (Returns tt) w
  | Some O => Q (Raises KeyboardInterrupt) (with_sigint None w)
  | Some (S n) => Q (Returns tt) (with_sigint (Some n) w)
  end -> wp checkpoint Q w.
Proof. unfold wp, checkpoint. destruct (sigint w) as [[|n]|]; auto. Qed.

Lemma wp_tick Q w :
  Q (Raises KeyboardInterrupt) (with_sigint None w) ->
  (forall n, after_tick (sigint w) n -> Q (Returns tt) (with_sigint n w)) ->
  wp checkpoint Q w.
Proof.
  intros H1 H2. apply wp_checkpoint. destruct (sigint w) as [[|k]|] eqn:E.
  - exact H1.
  - apply H2. right. eauto.
  - rewrite <- (with_sigint_id w) at 1. rewrite E. apply H2. left. auto.
Qed.

Lemma wp_get_mem Q w : Q (Returns (wmem w)) w -> wp get_mem Q w.
Proof. auto. Qed.

Lemma wp_ndarray_copy l Q w :
  Q (Returns (Some (length (heap (wmem w)))))
    (with_mem ((mem_push (deref (wmem w) l) (wmem w))) w) ->
  wp (ndarray_copy (Some l)) Q w.
Proof. auto. Qed.

Lemma wp_cvtColor l c Q w :
  Q (Returns (Some (length (heap (wmem w)))))
    (with_mem ((mem_push (convert c (deref (wmem w) l)) (wmem w))) w) ->
  wp (cvtColor (Some l) c) Q w.
Proof. auto. Qed.

Lemma wp_putText l text org ff fs col th lt Q w :
  Q (Returns tt)
    (with_mem (mem_store l (draw_text
       {| td_text := text; td_org := org; td_font_face := ff; td_font_scale := fs;
          td_color := col; td_thickness := th; td_line_type := lt |}
       (deref (wmem w) l)) (wmem w)) w) ->
  wp (putText (Some l) text org ff fs col th lt) Q w.
Proof. auto. Qed.

Lemma wp_imshow n l Q w :
  Q (Returns tt) (with_trace (trace w ++ [EImshow n (deref (wmem w) l)]) w) ->
  wp (imshow n (Some l)) Q w.
Proof. auto. Qed.

Lemma wp_emit e Q w :
  Q (Returns tt) (with_trace (trace w ++ [e]) w) -> wp (emit e) Q w.
Proof. auto. Qed.

Lemma wp_waitKey d Q w :
  Q (Returns (hd (-1) (keys w)))
    (with_keys (tl (keys w)) (with_trace (trace w ++ [EWaitKey d]) w)) ->
  wp (waitKey d) Q w.
Proof.
  unfold wp, waitKey, bind, emit. simpl. destruct w as [m s t ks a i]; simpl.
  destruct ks; simpl; auto.
Qed.

Lemma wp_with_lock {A} (body : M A) Q w :
  _lock (wmem w) = false ->
  wp body (fun r w' =>
             match r with
             | Returns a => Q (Returns a) (with_mem (mem_set_lock false (wmem w')) w')
             | Raises e => Q (Raises e) (with_mem (mem_set_lock false (wmem w')) w')
             | Deadlock => Q Deadlock w'
             | Running => Q Running w'
             end)
     (with_mem (mem_set_lock true (wmem w)) w) ->
  wp (with_lock body) Q w.
Proof.
  intros Hl. unfold wp, with_lock, bind, acquire. rewrite Hl. simpl.
  destruct (body _) as [[a|e| |] w']; simpl; auto.
Qed.

(** Split the conjunctions that are written out, not the folded ones. *)
Ltac conj_split := repeat match goal with |- _ /\ _ => split end.

Ltac wp_simpl :=
  cbn [bind_post outcome wmem trace keys sigint server arrivals
       with_mem with_trace with_keys with_sigint with_server with_arrivals
       fst snd is_not_None
       heap _lock _latest_rgb _latest_slam _latest_rgb_ts _latest_slam_ts
       mem_push mem_store mem_set_lock mem_set_image mem_set_ts].

Ltac wp_tick :=
  apply wp_bind, wp_tick; [ wp_simpl | intros ? _; wp_simpl ].

(** ** The heap *)

Lemma deref_alloc_old a m l :
  (l < length (heap m))%nat -> deref (mem_push a m) l = deref m l.
Proof. intros H. unfold deref. simpl. apply app_nth1. exact H. Qed.

Lemma deref_alloc_new a m : deref (mem_push a m) (length (heap m)) = a.
Proof.
  unfold deref. simpl. rewrite app_nth2 by lia.
  rewrite Nat.sub_diag. reflexivity.
Qed.

Lemma length_alloc a m :
  length (heap (mem_push a m)) = S (length (heap m)).
Proof. simpl. rewrite length_app. simpl. lia. Qed.

Lemma length_store l a m : length (heap (mem_store l a m)) = length (heap m).
Proof. simpl. apply length_insert. Qed.

Lemma deref_store_same l a m :
  (l < length (heap m))%nat -> deref (mem_store l a m) l = a.
Proof.
  intros H. unfold deref. simpl. apply nth_lookup_Some with (d := empty_array).
  apply list_lookup_insert_eq. exact H.
Qed.

Lemma deref_store_other l l' a m : l <> l' -> deref (mem_store l a m) l' = deref m l'.
Proof.
  intros H. unfold deref. simpl.
  destruct (heap m !! l') eqn:E.
  - rewrite (nth_lookup_Some _ _ _ _ E). apply nth_lookup_Some.
    rewrite list_lookup_insert_ne; auto.
  - apply lookup_ge_None in E. rewrite !nth_overflow; auto.
    rewrite length_insert. exact E.
Qed.

Lemma clean_None m : clean m None.
Proof. intros l E. discriminate. Qed.

Lemma untouched_refl m : untouched m m.
Proof. unfold untouched. repeat split; auto. Qed.

Lemma untouched_trans m1 m2 m3 :
  untouched m1 m2 -> untouched m2 m3 -> untouched m1 m3.
Proof.
  intros (A1 & A2 & A3 & A4 & A5 & A6) (B1 & B2 & B3 & B4 & B5 & B6).
  unfold untouched. repeat split; try congruence; try lia.
  intros l Hl. rewrite B6 by lia. auto.
Qed.

Lemma untouched_alloc a m : untouched m (mem_push a m).
Proof.
  unfold untouched. repeat split; auto.
  - rewrite length_alloc. lia.
  - intros l Hl. apply deref_alloc_old. exact Hl.
Qed.

Lemma untouched_lock b m : untouched m (mem_set_lock b m).
Proof. unfold untouched. repeat split; auto. Qed.

Lemma untouched_store_new l a m0 m :
  untouched m0 m -> (length (heap m0) <= l)%nat -> untouched m0 (mem_store l a m).
Proof.
  intros (A1 & A2 & A3 & A4 & A5 & A6) Hl.
  unfold untouched. repeat split; auto.
  - rewrite length_store. lia.
  - intros l' Hl'. rewrite deref_store_other by lia. auto.
Qed.

Lemma clean_untouched m m' v : clean m v -> untouched m m' -> clean m' v.
Proof.
  intros H (_ & _ & _ & _ & A5 & A6) l E. destruct (H l E) as [H1 H2]. split.
  - lia.
  - rewrite A6; auto.
Qed.

Lemma mem_ok_untouched m m' : mem_ok m -> untouched m m' -> mem_ok m'.
Proof.
  intros [H1 H2] U. pose proof U as (A1 & A2 & _).
  split; [rewrite A1 | rewrite A2]; eapply clean_untouched; eauto.
Qed.

Lemma trace_ok_refl ok t0 : trace_ok ok t0 t0.
Proof. exists []. split; [symmetry; apply app_nil_r | constructor]. Qed.

Lemma trace_ok_snoc ok t0 t e :
  trace_ok ok t0 t -> ok e -> trace_ok ok t0 (t ++ [e]).
Proof.
  intros (es & -> & H) He. exists (es ++ [e])%list. split.
  - rewrite app_assoc. reflexivity.
  - apply Forall_app. split; auto.
Qed.

Lemma trace_ok_trans ok t0 t1 t2 :
  trace_ok ok t0 t1 -> trace_ok ok t1 t2 -> trace_ok ok t0 t2.
Proof.
  intros (es & -> & H) (es' & -> & H'). exists (es ++ es')%list. split.
  - rewrite app_assoc. reflexivity.
  - apply Forall_app. split; auto.
Qed.

(** ** What the blocks of the loop body keep *)

Lemma untouched_alloc_r a m0 m :
  untouched m0 m -> untouched m0 (mem_push a m).
Proof. intros H. eapply untouched_trans; [exact H | apply untouched_alloc]. Qed.

Lemma untouched_lock_r b m0 m : untouched m0 m -> untouched m0 (mem_set_lock b m).
Proof. intros H. eapply untouched_trans; [exact H | apply untouched_lock]. Qed.

Lemma untouched_store_r m0 m1 m a :
  untouched m0 m1 -> untouched m0 m ->
  untouched m0 (mem_store (length (heap m1)) a m).
Proof.
  intros H1 H. apply untouched_store_new; auto.
  destruct H1 as (_ & _ & _ & _ & H5 & _). exact H5.
Qed.

Create HintDb kept.
#[local] Hint Resolve untouched_refl untouched_alloc_r untouched_lock_r
  untouched_store_r trace_ok_refl trace_ok_snoc : kept.

Ltac kept_split :=
  unfold kept; wp_simpl; split; [|split; [|split; [|split]]];
  [ try reflexivity | eauto 10 with kept | eauto 10 with kept
  | try reflexivity | try reflexivity ].

Lemma kept_trans ok w0 w1 w2 :
  kept ok w0 w1 -> kept ok w1 w2 -> kept ok w0 w2.
Proof.
  intros (A1 & A2 & A3 & A4 & A5) (B1 & B2 & B3 & B4 & B5).
  unfold kept. conj_split; try congruence.
  - eapply untouched_trans; eauto.
  - eapply trace_ok_trans; eauto.
Qed.

(** The array shown in the RGB window: converted, then drawn on once. *)
Lemma annotated_drawn m l c rgb_ts :
  drawn (deref m l) = [] ->
  annotated
    (deref
       (mem_store (length (heap m))
          (draw_text (ts_label rgb_ts)
             (deref ((mem_push (convert c (deref m l)) m)) (length (heap m))))
          ((mem_push (convert c (deref m l)) m)))
       (length (heap m))).
Proof.
  intros H. exists rgb_ts.
  rewrite deref_store_same by (rewrite length_alloc; lia).
  rewrite deref_alloc_new. destruct c. simpl. rewrite H. reflexivity.
Qed.

Section Blocks.

Variable ok : event -> Prop.
Variable args : Namespace.
Hypothesis ok_quiet : forall e, quiet_event e -> ok e.

Let ok_print line : ok (EPrint line) := ok_quiet (EPrint line) I.
Let ok_waitKey d : ok (EWaitKey d) := ok_quiet (EWaitKey d) I.
Let ok_sleep d : ok (ESleep d) := ok_quiet (ESleep d) I.

#[local] Hint Resolve ok_print ok_waitKey ok_sleep : kept.

Lemma render_rgb_kept rgb rgb_ts w :
  (forall l, rgb = Some l ->
     ok (EImshow RGB_WINDOW
           (deref (rendered rgb rgb_ts (wmem w)) (length (heap (wmem w)))))) ->
  wp (render_rgb rgb rgb_ts) (outcome (kept ok w) (fun _ => kept ok w)) w.
Proof.
  intros Hc. unfold render_rgb.
  wp_tick; [kept_split|].
  destruct rgb as [l|]; wp_simpl.
  2:{ apply wp_ret. kept_split. }
  wp_tick; [kept_split|].
  apply wp_bind, wp_cvtColor; wp_simpl.
  wp_tick; [kept_split|].
  apply wp_bind, wp_putText; wp_simpl.
  wp_tick; [kept_split|].
  apply wp_imshow. kept_split.
Qed.

Lemma render_slam_kept slam w :
  (forall l, slam = Some l -> show_slam args = true ->
     ok (EImshow SLAM_WINDOW (deref (wmem w) l))) ->
  wp (render_slam args slam) (outcome (kept ok w) (fun _ => kept ok w)) w.
Proof.
  intros Hc. unfold render_slam.
  wp_tick; [kept_split|].
  destruct (show_slam args) eqn:Hs; cbn [andb].
  2:{ apply wp_ret. kept_split. }
  destruct slam as [l|]; wp_simpl.
  2:{ apply wp_ret. kept_split. }
  wp_tick; [kept_split|].
  apply wp_imshow. kept_split.
Qed.

Lemma poll_quit_kept w :
  wp poll_quit (outcome (kept ok w) (fun _ => kept ok w)) w.
Proof.
  unfold poll_quit.
  wp_tick; [kept_split|].
  apply wp_bind, wp_waitKey; wp_simpl.
  wp_tick; [kept_split|].
  destruct (_ =? _)%Z.
  - wp_tick; [kept_split|].
    apply wp_bind, wp_emit; wp_simpl.
    wp_tick; [kept_split|].
    apply wp_ret. kept_split.
  - wp_tick; [kept_split|].
    apply wp_bind, wp_emit; wp_simpl.
    apply wp_ret. kept_split.
Qed.

End Blocks.


(** Reading an array through a heap that has grown since. *)
Ltac heap_len :=
  cbn [heap mem_put mem_push mem_store mem_set_lock mem_set_image mem_set_ts];
  rewrite ?length_app; cbn [length]; lia.

Ltac heap_nth :=
  unfold deref;
  cbn [heap mem_put mem_push mem_store mem_set_lock mem_set_image mem_set_ts];
  repeat first [ rewrite nth_middle
               | rewrite app_nth1 by (rewrite ?length_app; cbn [length]; lia) ].

Ltac snapshot_leaf Er Es :=
  unfold snapshot_of; wp_simpl; split;
  [ intros l [E|E]; try discriminate E; injection E as <-; wp_simpl; heap_len
  | intros [Hr Hs]; rewrite ?Er, ?Es in *;
    try (destruct (Hr _ eq_refl) as [Hr1 Hr2]);
    try (destruct (Hs _ eq_refl) as [Hs1 Hs2]);
    split; [|split];
    [ intros [|]; unfold seen, slot, latest_image, latest_ts;
      rewrite ?Er, ?Es; cbn [fmap option_fmap option_map];
      heap_nth; reflexivity
    | intros l E; try discriminate E; injection E as <-; wp_simpl;
      (split; [heap_len | heap_nth; assumption])
    | intros l E; try discriminate E; injection E as <-; wp_simpl;
      (split; [heap_len | heap_nth; assumption]) ] ].

Lemma take_snapshot_kept ok w :
  _lock (wmem w) = false ->
  wp take_snapshot
     (outcome (kept ok w) (fun snap w' => kept ok w w' /\ snapshot_of w w' snap)) w.
Proof.
  intros Hl. unfold take_snapshot.
  wp_tick; [solve [kept_split]|].
  apply wp_with_lock; [exact Hl|]. wp_simpl.
  wp_tick; [solve [kept_split; auto]|].
  apply wp_bind, wp_get_mem; wp_simpl.
  destruct (_latest_rgb (wmem w)) as [lr|] eqn:Er; wp_simpl.
  - apply wp_bind, wp_ndarray_copy; wp_simpl.
    wp_tick; [solve [kept_split; auto]|].
    apply wp_bind, wp_get_mem; wp_simpl.
    destruct (_latest_slam (wmem w)) as [ls|] eqn:Es; wp_simpl.
    + apply wp_bind, wp_ndarray_copy; wp_simpl.
      wp_tick; [solve [kept_split; auto]|].
      apply wp_bind, wp_get_mem; wp_simpl.
      wp_tick; [solve [kept_split; auto]|].
      apply wp_bind, wp_get_mem; wp_simpl.
      apply wp_ret. wp_simpl. split; [solve [kept_split; auto]|].
      snapshot_leaf Er Es.
    + apply wp_bind, wp_ret; wp_simpl.
      wp_tick; [solve [kept_split; auto]|].
      apply wp_bind, wp_get_mem; wp_simpl.
      wp_tick; [solve [kept_split; auto]|].
      apply wp_bind, wp_get_mem; wp_simpl.
      apply wp_ret. wp_simpl. split; [solve [kept_split; auto]|].
      snapshot_leaf Er Es.
  - apply wp_bind, wp_ret; wp_simpl.
    wp_tick; [solve [kept_split; auto]|].
    apply wp_bind, wp_get_mem; wp_simpl.
    destruct (_latest_slam (wmem w)) as [ls|] eqn:Es; wp_simpl.
    + apply wp_bind, wp_ndarray_copy; wp_simpl.
      wp_tick; [solve [kept_split; auto]|].
      apply wp_bind, wp_get_mem; wp_simpl.
      wp_tick; [solve [kept_split; auto]|].
      apply wp_bind, wp_get_mem; wp_simpl.
      apply wp_ret. wp_simpl. split; [solve [kept_split; auto]|].
      snapshot_leaf Er Es.
    + apply wp_bind, wp_ret; wp_simpl.
      wp_tick; [solve [kept_split; auto]|].
      apply wp_bind, wp_get_mem; wp_simpl.
      wp_tick; [solve [kept_split; auto]|].
      apply wp_bind, wp_get_mem; wp_simpl.
      apply wp_ret. wp_simpl. split; [solve [kept_split; auto]|].
      snapshot_leaf Er Es.
Qed.

Lemma wp_bind_outcome {A B} J (m : M A) (k : A -> M B) Qa Q w :
  wp m (outcome J Qa) w ->
  (forall a w', Qa a w' -> wp (k a) (outcome J Q) w') ->
  wp (bind m k) (outcome J Q) w.
Proof.
  intros Hm Hk. apply wp_bind. eapply wp_mono; [exact Hm|].
  intros [a|[]| |] w'; simpl; auto.
Qed.

Lemma wp_rebase {A} ok w0 w (m : M A) Q :
  kept ok w0 w ->
  wp m (outcome (kept ok w) (fun a w' => kept ok w w' /\ Q a w')) w ->
  wp m (outcome (kept ok w0)
          (fun a w' => kept ok w0 w' /\ kept ok w w' /\ Q a w')) w.
Proof.
  intros H0 H. eapply wp_mono; [exact H|].
  intros [a|[]| |] w'; simpl; auto.
  - intros [H1 H2]. split; [|split]; auto. eapply kept_trans; eauto.
  - intros H1. eapply kept_trans; eauto.
  - intros H1. eapply kept_trans; eauto.
Qed.

Lemma wp_and_True {A} J (m : M A) (Q : A -> world -> Prop) w :
  wp m (outcome J Q) w -> wp m (outcome J (fun a w' => Q a w' /\ True)) w.
Proof.
  intros H. eapply wp_mono; [exact H|]. intros [a|[]| |] w'; simpl; auto.
Qed.

Section Iteration.

Variable ok : event -> Prop.
Variable args : Namespace.
Hypothesis ok_quiet : forall e, quiet_event e -> ok e.

Lemma present_kept rgb slam rgb_ts slam_ts w :
  (forall l, rgb = Some l ->
     ok (EImshow RGB_WINDOW
           (deref (rendered rgb rgb_ts (wmem w)) (length (heap (wmem w)))))) ->
  (forall l m', slam = Some l -> show_slam args = true ->
     untouched (wmem w) m' -> ok (EImshow SLAM_WINDOW (deref m' l))) ->
  wp (present args (rgb, slam, rgb_ts, slam_ts))
     (outcome (kept ok w) (fun _ => kept ok w)) w.
Proof.
  intros Hr Hs. unfold present.
  eapply wp_bind_outcome; [apply (render_rgb_kept ok); assumption|].
  intros [] w1 K1. simpl in K1.
  eapply wp_bind_outcome.
  { apply wp_rebase; [exact K1|].
    apply wp_and_True, (render_slam_kept ok args).
    intros l E Hsh. apply (Hs l _ E Hsh). apply K1. }
  intros [] w2 (K2 & K12 & _).
  eapply wp_mono; [apply (wp_rebase ok w w2 poll_quit (fun _ _ => True) K2)|].
  - apply wp_and_True, (poll_quit_kept ok ok_quiet).
  - intros [b|[]| |] w'; simpl; tauto.
Qed.

Lemma loop_body_kept w :
  _lock (wmem w) = false ->
  (forall rgb slam rgb_ts slam_ts w1,
     untouched (wmem w) (wmem w1) ->
     snapshot_of w w1 (rgb, slam, rgb_ts, slam_ts) ->
     (forall l, rgb = Some l ->
        ok (EImshow RGB_WINDOW
              (deref (rendered rgb rgb_ts (wmem w1)) (length (heap (wmem w1)))))) /\
     (forall l m', slam = Some l -> show_slam args = true ->
        untouched (wmem w1) m' -> ok (EImshow SLAM_WINDOW (deref m' l)))) ->
  wp (loop_body args) (outcome (kept ok w) (fun _ => kept ok w)) w.
Proof.
  intros Hl Hok. unfold loop_body.
  eapply wp_bind_outcome; [apply take_snapshot_kept; exact Hl|].
  intros [[[rgb slam] rgb_ts] slam_ts] w1 [K1 S1]. simpl in K1.
  destruct (Hok rgb slam rgb_ts slam_ts w1 (proj1 (proj2 K1)) S1) as [Hr Hs].
  eapply wp_mono; [apply (wp_rebase ok w w1 _ (fun _ _ => True) K1)|].
  - apply wp_and_True, present_kept; assumption.
  - intros [b|[]| |] w'; simpl; tauto.
Qed.

End Iteration.

Lemma present_untouched args snap w :
  wp (present args snap) (outcome (kept any_event w) (fun _ => kept any_event w)) w.
Proof.
  destruct snap as [[[rgb slam] rgb_ts] slam_ts].
  apply present_kept; intros; exact I.
Qed.

Lemma loop_body_untouched args w :
  _lock (wmem w) = false ->
  wp (loop_body args) (outcome (kept any_event w) (fun _ => kept any_event w)) w.
Proof.
  intros Hl. apply loop_body_kept; auto; intros; try exact I.
  split; intros; exact I.
Qed.

(** The iteration as the loop runs it: what it shows. *)
Lemma shown_ok_quiet args e : quiet_event e -> shown_ok args e.
Proof. destruct e; simpl; tauto. Qed.

Lemma shown_ok_rgb args m l rgb_ts :
  clean m (Some l) ->
  shown_ok args
    (EImshow RGB_WINDOW (deref (rendered (Some l) rgb_ts m) (length (heap m)))).
Proof.
  intros Hc. left. split; [reflexivity|]. apply annotated_drawn.
  apply (Hc l eq_refl).
Qed.

Lemma shown_ok_slam args m m' l :
  clean m (Some l) -> show_slam args = true -> untouched m m' ->
  shown_ok args (EImshow SLAM_WINDOW (deref m' l)).
Proof.
  intros Hc Hs U. right. conj_split; auto.
  destruct (clean_untouched _ _ _ Hc U l eq_refl) as [_ H]. exact H.
Qed.

Lemma loop_body_shown args w :
  _lock (wmem w) = false -> mem_ok (wmem w) ->
  wp (loop_body args)
     (outcome (kept (shown_ok args) w) (fun _ => kept (shown_ok args) w)) w.
Proof.
  intros Hl Hm. apply loop_body_kept; auto using shown_ok_quiet.
  intros rgb slam rgb_ts slam_ts w1 U (_ & S1).
  destruct (S1 Hm) as (_ & Cr & Cs). split.
  - intros l ->. apply shown_ok_rgb. exact Cr.
  - intros l m' -> Hs U'. eapply shown_ok_slam; eauto.
Qed.

(** ** The callbacks *)

Lemma put_run s d r w :
  _lock (wmem w) = false ->
  put (s, d, r) w = (Returns tt, with_mem (mem_put s d r (wmem w)) w).
Proof.
  intros Hl. destruct s;
    unfold put, rgb_callback, slam_callback, to_numpy_array, new_array, with_lock,
      set_image, set_ts, bind, acquire, release, get_mem, put_mem, ret;
    simpl; rewrite Hl; reflexivity.
Qed.

Lemma put_deadlock s d r w :
  _lock (wmem w) = true -> fst (put (s, d, r) w) = Deadlock.
Proof.
  intros Hl. destruct s;
    unfold put, rgb_callback, slam_callback, to_numpy_array, new_array, with_lock,
      set_image, set_ts, bind, acquire, release, get_mem, put_mem, ret;
    simpl; rewrite Hl; reflexivity.
Qed.

Lemma mem_put_lock s d r m : _lock (mem_put s d r m) = false.
Proof. destruct s; reflexivity. Qed.

Lemma mem_put_length s d r m :
  length (heap (mem_put s d r m)) = S (length (heap m)).
Proof. destruct s; simpl; rewrite length_app; simpl; lia. Qed.

Lemma mem_put_old s d r m l :
  (l < length (heap m))%nat -> deref (mem_put s d r m) l = deref m l.
Proof. intros H. destruct s; heap_nth; reflexivity. Qed.

Lemma mem_put_slot s d r m :
  slot s (mem_put s d r m) = record_of (Some (d, r)).
Proof. destruct s; unfold slot; simpl; heap_nth; reflexivity. Qed.

Lemma mem_put_image_other s s' d r m :
  s' <> s -> latest_image s' (mem_put s d r m) = latest_image s' m.
Proof. destruct s, s'; intros H; try congruence; reflexivity. Qed.

Lemma mem_put_ts_other s s' d r m :
  s' <> s -> latest_ts s' (mem_put s d r m) = latest_ts s' m.
Proof. destruct s, s'; intros H; try congruence; reflexivity. Qed.

Lemma mem_put_slot_other s s' d r m :
  s' <> s -> clean m (latest_image s' m) ->
  slot s' (mem_put s d r m) = slot s' m.
Proof.
  intros Hne Hc. unfold slot.
  rewrite mem_put_image_other, mem_put_ts_other by exact Hne.
  destruct (latest_image s' m) as [l|] eqn:E; [|reflexivity].
  simpl. rewrite mem_put_old; [reflexivity|]. apply (Hc l eq_refl).
Qed.

Lemma mem_put_ok s d r m : mem_ok m -> mem_ok (mem_put s d r m).
Proof.
  intros [Hr Hs]. destruct s; split; intros l E; simpl in E.
  - injection E as <-. split; [heap_len | heap_nth; reflexivity].
  - destruct (Hs l E). split; [heap_len | heap_nth; assumption].
  - destruct (Hr l E). split; [heap_len | heap_nth; assumption].
  - injection E as <-. split; [heap_len | heap_nth; reflexivity].
Qed.

Lemma mem_ok_clean s m : mem_ok m -> clean m (latest_image s m).
Proof. intros [Hr Hs]. destruct s; assumption. Qed.

Lemma slot_untouched s m m' : mem_ok m -> untouched m m' -> slot s m' = slot s m.
Proof.
  intros Hok (A1 & A2 & A3 & A4 & A5 & A6).
  pose proof (mem_ok_clean s m Hok) as Hc.
  unfold slot. destruct s; simpl in *.
  - rewrite A1, A3. destruct (_latest_rgb m) as [l|]; [|reflexivity].
    simpl. rewrite A6; [reflexivity|]. apply (Hc l eq_refl).
  - rewrite A2, A4. destruct (_latest_slam m) as [l|]; [|reflexivity].
    simpl. rewrite A6; [reflexivity|]. apply (Hc l eq_refl).
Qed.

(** The slots after a sequence of puts. *)
Lemma last_put_app s fs gs :
  last_put s (fs ++ gs) =
  match last_put s gs with Some x => Some x | None => last_put s fs end.
Proof.
  induction fs as [|[[s' d] r] fs IH]; simpl.
  - destruct (last_put s gs); reflexivity.
  - rewrite IH. destruct (last_put s gs); reflexivity.
Qed.

Lemma put_all_run fs : forall w,
  _lock (wmem w) = false -> mem_ok (wmem w) ->
  exists m',
    put_all fs w = (Returns tt, with_mem m' w) /\
    _lock m' = false /\ mem_ok m' /\
    (length (heap (wmem w)) <= length (heap m'))%nat /\
    (forall l, (l < length (heap (wmem w)))%nat -> deref m' l = deref (wmem w) l) /\
    forall s, slot s m' =
              match last_put s fs with
              | Some x => record_of (Some x)
              | None => slot s (wmem w)
              end.
Proof.
  induction fs as [|[[s d] r] fs IH]; intros w Hl Hok.
  - exists (wmem w). simpl. unfold ret. destruct w; simpl in *. conj_split; auto.
  - cbn [put_all]. unfold bind at 1. rewrite put_run by exact Hl.
    destruct (IH (with_mem (mem_put s d r (wmem w)) w)) as (m' & E & L & O & Len & Old & S).
    { apply mem_put_lock. } { apply mem_put_ok, Hok. }
    exists m'. cbn [wmem with_mem] in *. rewrite E. conj_split; auto.
    + rewrite mem_put_length in Len. lia.
    + intros l Hlt. rewrite Old by (rewrite mem_put_length; lia).
      apply mem_put_old. exact Hlt.
    + intros s'. rewrite S. cbn [last_put].
      destruct (last_put s' fs); [reflexivity|].
      destruct (decide (s = s')) as [<-|Hne].
      * apply mem_put_slot.
      * apply mem_put_slot_other; [congruence|]. apply mem_ok_clean, Hok.
Qed.

(** ** Frames arriving between iterations *)

Lemma put_server f w : server (snd (put f w)) = server w.
Proof.
  destruct f as [[s d] r]. destruct (_lock (wmem w)) eqn:Hl.
  - destruct s;
      unfold put, rgb_callback, slam_callback, to_numpy_array, new_array, with_lock,
        set_image, set_ts, bind, acquire, release, get_mem, put_mem, ret;
      simpl; rewrite Hl; reflexivity.
  - rewrite put_run by exact Hl. reflexivity.
Qed.

Lemma deliver_put sr f w :
  server w = Some sr -> both_registered sr -> deliver f w = put f w.
Proof.
  intros Hs [Hr Hm]. destruct f as [[s d] r]. unfold deliver. rewrite Hs.
  destruct s; [rewrite Hr | rewrite Hm]; reflexivity.
Qed.

Lemma deliver_all_put sr fs : forall w,
  server w = Some sr -> both_registered sr -> deliver_all fs w = put_all fs w.
Proof.
  induction fs as [|f fs IH]; intros w Hs Hb; [reflexivity|].
  cbn [deliver_all put_all]. unfold bind.
  rewrite (deliver_put sr f w Hs Hb).
  pose proof (put_server f w) as Hp.
  destruct (put f w) as [[[]|e| |] w1]; try reflexivity.
  apply IH; [|exact Hb]. simpl in Hp. congruence.
Qed.

Lemma drop_cons_inv {A} n (l : list A) x rest :
  drop n l = x :: rest ->
  drop (S n) l = rest /\ take (S n) l = (take n l ++ [x])%list.
Proof.
  intros H. assert (l !! n = Some x) as Hn.
  { rewrite <- (Nat.add_0_r n), <- lookup_drop, H. reflexivity. }
  split.
  - rewrite (drop_S _ _ _ Hn) in H. congruence.
  - apply take_S_r. exact Hn.
Qed.

Section Loop.

Variable args : Namespace.
Variable t0 : list event.
Variable sr : StreamReceiver.
Variable fs : list (list frame).
Hypothesis registered : both_registered sr.

Local Abbreviation J := (loop_inv args t0 sr fs).

Lemma sdk_threads_run_inv w :
  J w ->
  exists w', sdk_threads_run w = (Returns tt, w') /\ J w' /\
             sigint w' = sigint w /\ keys w' = keys w /\ trace w' = trace w /\
             arrivals w' = tl (arrivals w) /\
             forall s, slot s (wmem w') =
                       match last_put s (hd [] (arrivals w)) with
                       | Some x => record_of (Some x)
                       | None => slot s (wmem w)
                       end.
Proof.
  intros (Hl & Hok & Ht & Hs & n & Ha & Hv). unfold sdk_threads_run.
  destruct (arrivals w) as [|f later] eqn:E.
  - exists w. conj_split; auto. unfold loop_inv. conj_split; auto.
    exists n. rewrite E. auto.
  - rewrite (deliver_all_put sr) by (auto using registered).
    destruct (put_all_run f (with_arrivals later w) Hl Hok)
      as (m' & Ep & L & O & _ & _ & Sl).
    eexists. split; [exact Ep|]. conj_split; try reflexivity; [|exact Sl].
    unfold loop_inv. cbn [wmem trace server arrivals with_mem with_arrivals].
    conj_split; auto.
    symmetry in Ha. destruct (drop_cons_inv _ _ _ _ Ha) as [Hd Htk].
    exists (S n). split; [symmetry; exact Hd|].
    intros s. rewrite Sl, Htk, concat_app, last_put_app. simpl.
    rewrite app_nil_r.
    destruct (last_put s f); [reflexivity|]. apply Hv.
Qed.

Lemma loop_inv_kept w w' : J w -> kept (shown_ok args) w w' -> J w'.
Proof.
  intros (Hl & Hok & Ht & Hs & n & Ha & Hv) (K1 & K2 & K3 & K4 & K5).
  unfold loop_inv. conj_split; try congruence.
  - eapply mem_ok_untouched; eauto.
  - eapply trace_ok_trans; eauto.
  - exists n. split; [congruence|].
    intros s. rewrite (slot_untouched s _ _ Hok K2). apply Hv.
Qed.

Lemma while_True_inv fuel : forall w,
  J w -> wp (while_True fuel args) (outcome J (fun _ => J)) w.
Proof.
  induction fuel as [|fuel IH]; intros w HJ; [exact HJ|].
  cbn [while_True].
  destruct (sdk_threads_run_inv w HJ) as (w1 & E1 & J1 & _).
  apply wp_bind. unfold wp at 1. rewrite E1. cbn [fst snd bind_post].
  eapply wp_bind_outcome.
  - eapply wp_mono; [apply (loop_body_shown args w1); apply J1|].
    intros [b|[]| |] w2; simpl; try tauto;
      intros K; apply (loop_inv_kept w1 w2 J1 K).
  - intros [|] w2 J2; [exact J2 | apply IH; exact J2].
Qed.

End Loop.

(** ** The whole program *)

Lemma main_unfold cfg argv fuel w :
  main cfg argv fuel w =
  try_except_finally (while_True fuel (parse_args argv)) handler teardown
    (after_setup (parse_args argv) w).
Proof.
  unfold main. generalize (parse_args argv). intros [h p v sh].
  unfold build_receiver, after_setup, setup_events, receiver_of.
  destruct v as [|c v]; unfold bind at 1; cbn.
  - rewrite <- !app_assoc. reflexivity.
  - rewrite <- !app_assoc. reflexivity.
Qed.

Lemma receiver_of_registered args : both_registered (receiver_of args).
Proof. split; reflexivity. Qed.

Lemma loop_inv_start args ks fs int :
  loop_inv args (setup_events args) (receiver_of args) fs
    (after_setup args (world_init ks fs int)).
Proof.
  unfold loop_inv, after_setup. simpl. conj_split; auto.
  - split; apply clean_None.
  - apply trace_ok_refl.
  - exists O. split; [reflexivity|]. intros []; reflexivity.
Qed.

Lemma loop_inv_print args t0 sr fs line w :
  loop_inv args t0 sr fs w ->
  loop_inv args t0 sr fs (with_trace (trace w ++ [EPrint line]) w).
Proof.
  intros (Hl & Hok & Ht & Hs & Hn). unfold loop_inv. simpl. conj_split; auto.
  apply trace_ok_snoc; [exact Ht | exact I].
Qed.

Lemma teardown_run w :
  teardown w = (Returns tt, with_trace (trace w ++ teardown_events) w).
Proof.
  unfold teardown, destroyAllWindows, print, emit, bind, teardown_events. simpl.
  rewrite <- app_assoc. reflexivity.
Qed.

(** Every run of [main]: the setup, then the loop (and the handler, if
    SIGINT came), then the teardown, unless the loop is still going. *)
Lemma main_spec cfg argv fuel ks fs int :
  exists w1,
    loop_inv (parse_args argv) (setup_events (parse_args argv))
      (receiver_of (parse_args argv)) fs w1 /\
    ((fst (main cfg argv fuel (world_init ks fs int)) = Returns tt /\
      snd (main cfg argv fuel (world_init ks fs int)) =
        with_trace (trace w1 ++ teardown_events) w1) \/
     (fst (main cfg argv fuel (world_init ks fs int)) = Running /\
      snd (main cfg argv fuel (world_init ks fs int)) = w1)).
Proof.
  rewrite main_unfold. set (args := parse_args argv).
  pose proof (while_True_inv args (setup_events args) (receiver_of args) fs
                (receiver_of_registered args) fuel _
                (loop_inv_start args ks fs int)) as H.
  unfold wp in H. unfold try_except_finally.
  destruct (while_True fuel args (after_setup args (world_init ks fs int)))
    as [[[]|[]| |] w1]; simpl in H; try contradiction.
  - exists w1. split; [exact H|]. left. rewrite teardown_run. split; reflexivity.
  - eexists. split; [apply loop_inv_print; exact H|]. left.
    unfold handler, print, emit. rewrite teardown_run. split; reflexivity.
  - exists w1. split; [exact H|]. right. split; reflexivity.
Qed.

(** ** The SIGINT countdown *)

Lemma wp_tick_or Q w :
  (sigint w = Some O -> Q (Raises KeyboardInterrupt) (with_sigint None w)) ->
  (forall n, after_tick (sigint w) n -> Q (Returns tt) (with_sigint n w)) ->
  wp checkpoint Q w.
Proof.
  intros H1 H2. apply wp_checkpoint. destruct (sigint w) as [[|k]|] eqn:E.
  - auto.
  - apply H2. right. eauto.
  - rewrite <- (with_sigint_id w) at 1. rewrite E. apply H2. left. auto.
Qed.

Lemma wp_with_lock_any {A} (body : M A) (Q : result A -> world -> Prop) w :
  (_lock (wmem w) = true -> Q Deadlock w) ->
  (_lock (wmem w) = false ->
   wp body (fun r w' =>
             match r with
             | Returns a => Q (Returns a) (with_mem (mem_set_lock false (wmem w')) w')
             | Raises e => Q (Raises e) (with_mem (mem_set_lock false (wmem w')) w')
             | Deadlock => Q Deadlock w'
             | Running => Q Running w'
             end)
     (with_mem (mem_set_lock true (wmem w)) w)) ->
  wp (with_lock body) Q w.
Proof.
  intros H1 H2. destruct (_lock (wmem w)) eqn:Hl.
  - unfold wp, with_lock, bind, acquire. rewrite Hl. simpl. auto.
  - apply wp_with_lock; auto.
Qed.

Ltac wp_prim :=
  first [ apply wp_get_mem | apply wp_ndarray_copy | apply wp_cvtColor
        | apply wp_putText | apply wp_imshow | apply wp_waitKey
        | apply wp_emit | apply wp_ret ].

(** Run a block statement by statement; [leaf] closes the goals of the
    paths that SIGINT cuts short. *)
Ltac wp_run leaf :=
  repeat first
    [ progress wp_simpl
    | apply wp_bind, wp_tick_or; [ intros ?; solve [leaf] | intros ? ? ]
    | match goal with
      | |- wp (with_lock _) _ _ => apply wp_with_lock_any; [ intros ?; solve [leaf] | intros ? ]
      | |- context [is_not_None ?x] => destruct x eqn:?
      | |- wp (if ?b then _ else _) _ _ => destruct b eqn:?
      end
    | apply wp_bind; wp_prim
    | wp_prim ].

Ltac ticks :=
  repeat match goal with
         | H : after_tick _ _ |- _ =>
             cbn [sigint with_mem with_trace with_keys with_sigint] in H;
             destruct H as [[? ?]|(? & ? & ?)]
         | H : sigint _ = _ |- _ =>
             progress cbn [sigint with_mem with_trace with_keys with_sigint] in H
         end;
  simplify_eq;
  repeat match goal with
         | E : sigint ?w = _ |- context [sigint ?w] => rewrite E
         end.

Ltac paced_leaf :=
  unfold paced; wp_simpl; ticks;
  first [ exact I | reflexivity | split; [discriminate | reflexivity]
        | eexists; split; [reflexivity | lia] ].

Lemma render_rgb_paced rgb rgb_ts w :
  wp (render_rgb rgb rgb_ts) (paced (sigint w)) w.
Proof.
  unfold render_rgb. wp_run paced_leaf; paced_leaf.
Qed.

Lemma render_slam_paced args slam w :
  wp (render_slam args slam) (paced (sigint w)) w.
Proof. unfold render_slam. wp_run paced_leaf; paced_leaf. Qed.

Lemma poll_quit_paced w : wp poll_quit (paced (sigint w)) w.
Proof. unfold poll_quit. wp_run paced_leaf; paced_leaf. Qed.

Lemma take_snapshot_paced w : wp take_snapshot (paced (sigint w)) w.
Proof. unfold take_snapshot. wp_run paced_leaf; paced_leaf. Qed.

Lemma paced_bind {A B} (m : M A) (k : A -> M B) w :
  wp m (paced (sigint w)) w ->
  (forall a w', wp (k a) (paced (sigint w')) w') ->
  wp (bind m k) (paced (sigint w)) w.
Proof.
  intros Hm Hk. apply wp_bind. unfold wp in Hm |- *.
  destruct (m w) as [[a|[]| |] w1]; cbn [fst snd bind_post paced] in *; auto.
  specialize (Hk a w1). unfold wp in Hk |- *.
  destruct (k a w1) as [[b|[]| |] w2]; cbn [fst snd paced] in *; auto.
  - destruct (sigint w) as [n|].
    + destruct Hm as (n1 & E1 & L1). rewrite E1 in Hk.
      destruct Hk as (n2 & E2 & L2). exists n2. split; [exact E2 | lia].
    + rewrite Hm in Hk. exact Hk.
  - destruct (sigint w) as [n|].
    + split; [discriminate | apply Hk].
    + rewrite Hm in Hk. destruct Hk as [Hk _]. congruence.
Qed.

Lemma present_paced args snap w : wp (present args snap) (paced (sigint w)) w.
Proof.
  destruct snap as [[[rgb slam] rgb_ts] slam_ts]. unfold present.
  apply paced_bind; [apply render_rgb_paced|]. intros _ w1.
  apply paced_bind; [apply render_slam_paced|]. intros _ w2.
  apply poll_quit_paced.
Qed.

Lemma loop_body_paced args w : wp (loop_body args) (paced (sigint w)) w.
Proof.
  unfold loop_body. apply paced_bind; [apply take_snapshot_paced|].
  intros snap w1. apply present_paced.
Qed.

(** A pending SIGINT ends the loop within as many iterations as it has
    statements to go. *)
Lemma while_True_interrupted args t0 sr fs (Hsr : both_registered sr) fuel :
  forall w k,
    loop_inv args t0 sr fs w -> sigint w = Some k -> (k < fuel)%nat ->
    fst (while_True fuel args w) <> Running.
Proof.
  induction fuel as [|fuel IH]; intros w k HJ Hk Hlt; [lia|].
  cbn [while_True].
  destruct (sdk_threads_run_inv args t0 sr fs Hsr w HJ) as (w1 & E1 & J1 & S1 & _).
  unfold bind at 1. rewrite E1.
  pose proof (loop_body_shown args w1 (proj1 J1) (proj1 (proj2 J1))) as HK.
  pose proof (loop_body_paced args w1) as HP.
  unfold wp in HK, HP. unfold bind.
  destruct (loop_body args w1) as [[[|]|[]| |] w2]; simpl in *;
    try discriminate; try contradiction.
  rewrite S1, Hk in HP. destruct HP as (k' & Ek & Lk).
  apply (IH w2 k'); [|exact Ek | lia].
  eapply loop_inv_kept; eauto.
Qed.

(** ** Iterations without SIGINT *)

Lemma take_snapshot_quiet w :
  sigint w = None -> _lock (wmem w) = false ->
  take_snapshot w =
  (Returns (fst (snapshot_mem (wmem w))), with_mem (snd (snapshot_mem (wmem w))) w).
Proof.
  destruct w as [[h lk lr ls lrt lst] sv t ks a si]. simpl. intros -> ->.
  destruct lr, ls; reflexivity.
Qed.

Lemma present_quiet args snap w :
  sigint w = None ->
  present args snap w =
  (Returns (is_quit (next_key w)),
   with_keys (tl (keys w))
     (with_trace (trace w ++ present_events args snap (wmem w) (next_key w))
        (with_mem (rendered (fst (fst (fst snap))) (snd (fst snap)) (wmem w)) w))).
Proof.
  destruct snap as [[[rgb slam] rgb_ts] slam_ts].
  destruct w as [m sv t ks a si]. simpl. intros ->.
  unfold present, render_rgb, render_slam, poll_quit, present_events, slam_events,
    key_events, is_quit, next_key.
  destruct (show_slam args); destruct rgb as [l|], slam as [l'|], ks as [|k ks];
    cbn; try destruct (_ =? _)%Z; cbn; rewrite <- ?app_assoc; reflexivity.
Qed.

Lemma loop_body_quiet args w :
  sigint w = None -> _lock (wmem w) = false ->
  loop_body args w = (Returns (is_quit (next_key w)), after_iteration args w).
Proof.
  intros Hq Hl. unfold loop_body, bind.
  rewrite (take_snapshot_quiet w Hq Hl).
  rewrite present_quiet by exact Hq. reflexivity.
Qed.

Lemma times_shown_app name t es :
  times_shown name (t ++ es) = (times_shown name t + times_shown name es)%nat.
Proof. unfold times_shown. rewrite filter_app, length_app. reflexivity. Qed.

Lemma iteration_shows_rgb args m k :
  times_shown RGB_WINDOW (iteration_events args m k) =
  if is_not_None (_latest_rgb m) then 1%nat else 0%nat.
Proof.
  destruct m as [h lk lr ls lrt lst].
  unfold iteration_events, present_events, snapshot_mem, slam_events, key_events.
  destruct lr, ls, (show_slam args), (is_quit k); reflexivity.
Qed.

Lemma iteration_shows_slam args m k :
  times_shown SLAM_WINDOW (iteration_events args m k) =
  if show_slam args && is_not_None (_latest_slam m) then 1%nat else 0%nat.
Proof.
  destruct m as [h lk lr ls lrt lst].
  unfold iteration_events, present_events, snapshot_mem, slam_events, key_events.
  destruct lr, ls, (show_slam args), (is_quit k); reflexivity.
Qed.

Lemma after_iteration_inv args t0 sr fs w :
  loop_inv args t0 sr fs w -> sigint w = None ->
  loop_inv args t0 sr fs (after_iteration args w) /\
  untouched (wmem w) (wmem (after_iteration args w)).
Proof.
  intros HJ Hq.
  pose proof (loop_body_shown args w (proj1 HJ) (proj1 (proj2 HJ))) as HK.
  unfold wp in HK. rewrite (loop_body_quiet args w Hq (proj1 HJ)) in HK.
  simpl in HK. split; [eapply loop_inv_kept; eauto | apply HK].
Qed.

Lemma last_put_rgb_only batch :
  Forall (fun f : frame => fst (fst f) = RGB) batch -> last_put SLAM batch = None.
Proof.
  induction 1 as [|[[s d] r] batch Hs _ IH]; [reflexivity|].
  simpl in *. rewrite IH. subst s. reflexivity.
Qed.

Lemma last_put_In s d r batch : In (s, d, r) batch -> last_put s batch <> None.
Proof.
  induction batch as [|[[s' d'] r'] batch IH]; intros Hin; [destruct Hin|].
  simpl. destruct Hin as [E|Hin].
  - injection E as -> -> ->. destruct (last_put s batch); [discriminate|].
    destruct (decide (s = s)); [discriminate | congruence].
  - specialize (IH Hin). destruct (last_put s batch); [discriminate | congruence].
Qed.

Lemma slot_present s m : is_not_None (latest_image s m) = is_not_None (fst (slot s m)).
Proof. unfold slot. destruct (latest_image s m); reflexivity. Qed.

Lemma rgb_after_batch w w1 :
  rgb_ready w ->
  (forall s, slot s (wmem w1) =
             match last_put s (hd [] (arrivals w)) with
             | Some x => record_of (Some x)
             | None => slot s (wmem w)
             end) ->
  is_not_None (_latest_rgb (wmem w1)) = true.
Proof.
  intros Hr V1.
  change (_latest_rgb (wmem w1)) with (latest_image RGB (wmem w1)).
  rewrite slot_present, V1. destruct Hr as [Hr|(d & r & Hin)].
  - destruct (last_put RGB (hd [] (arrivals w))) as [[? ?]|]; [reflexivity|].
    rewrite <- slot_present. exact Hr.
  - pose proof (last_put_In _ _ _ _ Hin) as Hne.
    destruct (last_put RGB (hd [] (arrivals w))) as [[? ?]|]; [reflexivity|congruence].
Qed.

Lemma slam_after_batch w w1 :
  rgb_only (arrivals w) -> _latest_slam (wmem w) = None ->
  (forall s, slot s (wmem w1) =
             match last_put s (hd [] (arrivals w)) with
             | Some x => record_of (Some x)
             | None => slot s (wmem w)
             end) ->
  _latest_slam (wmem w1) = None.
Proof.
  intros Ho Hn V1.
  assert (is_not_None (latest_image SLAM (wmem w1)) = false) as H.
  { rewrite slot_present, V1, last_put_rgb_only, <- slot_present.
    - simpl. rewrite Hn. reflexivity.
    - destruct Ho; simpl; auto. }
  simpl in H. destruct (_latest_slam (wmem w1)); [discriminate | reflexivity].
Qed.

Section Quit.

Variable args : Namespace.
Variable t0 : list event.
Variable sr : StreamReceiver.
Variable fs : list (list frame).
Hypothesis registered : both_registered sr.

Local Abbreviation J := (loop_inv args t0 sr fs).

(** The loop runs until the first quit key. *)
Lemma while_True_quit pre : forall fuel w q post,
  J w -> sigint w = None -> keys w = (pre ++ q :: post)%list ->
  Forall (fun k => is_quit k = false) pre -> is_quit q = true ->
  (length pre < fuel)%nat ->
  exists w',
    while_True fuel args w = (Returns tt, w') /\ J w' /\
    keys w' = post /\ sigint w' = None /\
    (rgb_ready w ->
     times_shown RGB_WINDOW (trace w') =
     (times_shown RGB_WINDOW (trace w) + S (length pre))%nat) /\
    (rgb_only (arrivals w) -> _latest_slam (wmem w) = None ->
     times_shown SLAM_WINDOW (trace w') = times_shown SLAM_WINDOW (trace w)).
Proof.
  induction pre as [|k pre IH]; intros fuel w q post HJ Hq Hk Hpre Hquit Hfuel;
    (destruct fuel as [|fuel]; [simpl in Hfuel; lia|]);
    cbn [while_True];
    destruct (sdk_threads_run_inv args t0 sr fs registered w HJ)
      as (w1 & E1 & J1 & S1 & K1 & T1 & A1 & V1);
    unfold bind at 1; rewrite E1; unfold bind at 1;
    rewrite (loop_body_quiet args w1) by (first [congruence | apply J1]);
    unfold next_key; rewrite K1, Hk; cbn [hd app];
    destruct (after_iteration_inv args t0 sr fs w1 J1 ltac:(congruence)) as [J2 U2].
  - rewrite Hquit. eexists. split; [reflexivity|].
    conj_split; auto.
    + unfold after_iteration. simpl. rewrite K1, Hk. reflexivity.
    + simpl. congruence.
    + intros Hr. unfold after_iteration. cbn [trace with_keys with_trace with_mem].
      rewrite times_shown_app, iteration_shows_rgb, T1.
      rewrite (rgb_after_batch w w1 Hr V1). simpl. lia.
    + intros Ho Hn. unfold after_iteration. cbn [trace with_keys with_trace with_mem].
      rewrite times_shown_app, iteration_shows_slam, T1.
      rewrite (slam_after_batch w w1 Ho Hn V1). simpl.
      rewrite andb_false_r. lia.
  - inversion Hpre as [|? ? Hk0 Hpre']; subst. rewrite Hk0.
    destruct (IH fuel (after_iteration args w1) q post) as (w' & E & J' & K' & S' & R' & O');
      [ exact J2 | simpl; congruence
      | unfold after_iteration; simpl; rewrite K1, Hk; reflexivity
      | assumption | assumption | simpl in Hfuel; lia | ].
    exists w'. conj_split; auto.
    + intros Hr. rewrite R'.
      * unfold after_iteration. cbn [trace with_keys with_trace with_mem].
        rewrite times_shown_app, iteration_shows_rgb, T1.
        rewrite (rgb_after_batch w w1 Hr V1). simpl. lia.
      * left. destruct U2 as (-> & _). apply (rgb_after_batch w w1 Hr V1).
    + intros Ho Hn. rewrite O'.
      * unfold after_iteration. cbn [trace with_keys with_trace with_mem].
        rewrite times_shown_app, iteration_shows_slam, T1.
        rewrite (slam_after_batch w w1 Ho Hn V1). simpl.
        rewrite andb_false_r. lia.
      * unfold after_iteration. cbn [arrivals with_keys with_trace with_mem].
        rewrite A1. destruct Ho; simpl; auto. constructor.
      * destruct U2 as (_ & -> & _). apply (slam_after_batch w w1 Ho Hn V1).
Qed.

End Quit.

(** ** What a run of [main] shows *)

Lemma new_events_kept ok w w' : kept ok w w' -> Forall ok (new_events w w').
Proof.
  intros (_ & _ & (es & E & H) & _). unfold new_events.
  rewrite E, drop_app_length. exact H.
Qed.

Lemma present_result args snap w :
  (exists b, fst (present args snap w) = Returns b) \/
  fst (present args snap w) = Raises KeyboardInterrupt.
Proof.
  pose proof (present_untouched args snap w) as H1.
  pose proof (present_paced args snap w) as H2.
  unfold wp in *. destruct (present args snap w) as [[b|[]| |] w']; simpl in *;
    try contradiction; eauto.
Qed.

Lemma present_new_events ok args rgb slam rgb_ts slam_ts w :
  (forall e, quiet_event e -> ok e) ->
  (forall l, rgb = Some l ->
     ok (EImshow RGB_WINDOW
           (deref (rendered rgb rgb_ts (wmem w)) (length (heap (wmem w)))))) ->
  (forall l m', slam = Some l -> show_slam args = true ->
     untouched (wmem w) m' -> ok (EImshow SLAM_WINDOW (deref m' l))) ->
  Forall ok (new_events w (snd (present args (rgb, slam, rgb_ts, slam_ts) w))).
Proof.
  intros Hq Hr Hs.
  pose proof (present_kept ok args Hq rgb slam rgb_ts slam_ts w Hr Hs) as H1.
  pose proof (present_paced args (rgb, slam, rgb_ts, slam_ts) w) as H2.
  unfold wp in *.
  destruct (present args (rgb, slam, rgb_ts, slam_ts) w) as [[b|[]| |] w'];
    simpl in *; try contradiction; apply new_events_kept; assumption.
Qed.

Lemma not_shown_In name es :
  Forall (fun e => shows name e = false) es ->
  forall img, ~ In (EImshow name img) es.
Proof.
  intros H img Hin. rewrite Forall_forall in H.
  apply list_elem_of_In in Hin. specialize (H _ Hin). simpl in H.
  rewrite String.eqb_refl in H. discriminate.
Qed.

Lemma setup_events_no_window args name img :
  ~ In (EImshow name img) (setup_events args).
Proof.
  unfold setup_events. destruct (truthy (record_to_vrs args)); simpl;
    intuition discriminate.
Qed.

Lemma main_trace cfg argv fuel ks fs int :
  exists es,
    Forall (shown_ok (parse_args argv)) es /\
    ((fst (main cfg argv fuel (world_init ks fs int)) = Returns tt /\
      trace (snd (main cfg argv fuel (world_init ks fs int))) =
        (setup_events (parse_args argv) ++ es ++ teardown_events)%list) \/
     (fst (main cfg argv fuel (world_init ks fs int)) = Running /\
      trace (snd (main cfg argv fuel (world_init ks fs int))) =
        (setup_events (parse_args argv) ++ es)%list)).
Proof.
  destruct (main_spec cfg argv fuel ks fs int)
    as (w1 & (_ & _ & (es & E & Hes) & _) & [[-> ->]|[-> ->]]);
    exists es; (split; [exact Hes|]).
  - left. split; [reflexivity|]. simpl. rewrite E, app_assoc. reflexivity.
  - right. split; [reflexivity|]. exact E.
Qed.

Lemma main_window cfg argv fuel ks fs int name img :
  In (EImshow name img) (trace (snd (main cfg argv fuel (world_init ks fs int)))) ->
  shown_ok (parse_args argv) (EImshow name img).
Proof.
  destruct (main_trace cfg argv fuel ks fs int) as (es & Hes & [[_ ->]|[_ ->]]);
    rewrite ?in_app_iff; intros Hin.
  - destruct Hin as [Hin|[Hin|Hin]].
    + destruct (setup_events_no_window _ _ _ Hin).
    + rewrite Forall_forall in Hes. apply Hes, list_elem_of_In, Hin.
    + simpl in Hin. intuition discriminate.
  - destruct Hin as [Hin|Hin].
    + destruct (setup_events_no_window _ _ _ Hin).
    + rewrite Forall_forall in Hes. apply Hes, list_elem_of_In, Hin.
Qed.

Lemma times_shown_setup name args : times_shown name (setup_events args) = 0%nat.
Proof. unfold setup_events. destruct (truthy (record_to_vrs args)); reflexivity. Qed.

Lemma main_quit cfg argv fuel pre q post fs :
  Forall (fun k => is_quit k = false) pre -> is_quit q = true ->
  (length pre < fuel)%nat ->
  fst (main cfg argv fuel (world_init (pre ++ q :: post) fs None)) = Returns tt /\
  ((exists d r, In (RGB, d, r) (hd [] fs)) ->
   times_shown RGB_WINDOW
     (trace (snd (main cfg argv fuel (world_init (pre ++ q :: post) fs None)))) =
   S (length pre)) /\
  (rgb_only fs ->
   times_shown SLAM_WINDOW
     (trace (snd (main cfg argv fuel (world_init (pre ++ q :: post) fs None)))) =
   0%nat).
Proof.
  intros Hpre Hq Hfuel. rewrite main_unfold. set (args := parse_args argv).
  destruct (while_True_quit args (setup_events args) (receiver_of args) fs
              (receiver_of_registered args) pre fuel
              (after_setup args (world_init (pre ++ q :: post) fs None)) q post)
    as (w' & E & _ & _ & _ & Hr & Hs); auto.
  { apply loop_inv_start. }
  unfold try_except_finally. rewrite E, teardown_run. simpl.
  conj_split; [reflexivity| |].
  - intros Hin. rewrite times_shown_app, Hr by (right; exact Hin).
    cbn [trace after_setup with_server with_trace world_init app].
    rewrite times_shown_setup.
    change (times_shown RGB_WINDOW teardown_events) with 0%nat. lia.
  - intros Ho. rewrite times_shown_app, Hs by (auto; reflexivity).
    cbn [trace after_setup with_server with_trace world_init app].
    rewrite times_shown_setup. reflexivity.
Qed.

Lemma main_interrupted cfg argv fuel ks fs k :
  (k < fuel)%nat ->
  fst (main cfg argv fuel (world_init ks fs (Some k))) = Returns tt.
Proof.
  intros Hlt.
  destruct (main_spec cfg argv fuel ks fs (Some k)) as (w1 & _ & [[E _]|[E _]]);
    [exact E|].
  exfalso. rewrite main_unfold in E. set (args := parse_args argv) in *.
  pose proof (while_True_interrupted args (setup_events args) (receiver_of args) fs
                (receiver_of_registered args) fuel
                (after_setup args (world_init ks fs (Some k))) k
                (loop_inv_start args ks fs (Some k)) eq_refl Hlt) as H.
  unfold try_except_finally in E.
  destruct (while_True fuel args (after_setup args (world_init ks fs (Some k))))
    as [[[]|[]| |] w2]; simpl in *; try discriminate; try congruence.
  all: rewrite teardown_run in E; discriminate.
Qed.

(** ** Interleavings: the lock *)

Lemma count_cs_app l l' : count_cs (l ++ l') = (count_cs l + count_cs l')%nat.
Proof. unfold count_cs. rewrite List.filter_app, length_app. reflexivity. Qed.

Lemma count_cs_insert l : forall i pc pc',
  l !! i = Some pc ->
  (count_cs (<[i := pc']> l) + (if in_cs pc then 1 else 0) =
   count_cs l + (if in_cs pc' then 1 else 0))%nat.
Proof.
  induction l as [|x l IH]; intros [|i] pc pc' H; simpl in H; try discriminate.
  - injection H as ->. unfold count_cs. simpl.
    destruct (in_cs pc), (in_cs pc'); simpl; lia.
  - specialize (IH i pc pc' H). unfold count_cs in *. simpl.
    destruct (in_cs x); simpl; lia.
Qed.

Lemma count_cs_zero l : count_cs l = 0%nat -> Forall (fun pc => in_cs pc = false) l.
Proof.
  induction l as [|x l IH]; intros H; constructor; unfold count_cs in *; simpl in H;
    destruct (in_cs x) eqn:E; simpl in H; try discriminate; auto.
Qed.

Lemma count_cs_lookup l i pc :
  l !! i = Some pc -> in_cs pc = true -> (1 <= count_cs l)%nat.
Proof.
  revert i. induction l as [|x l IH]; intros [|i] H E; simpl in H; try discriminate.
  - injection H as ->. unfold count_cs. simpl. rewrite E. simpl. lia.
  - specialize (IH i H E). unfold count_cs in *. simpl.
    destruct (in_cs x); simpl; lia.
Qed.

(** With one thread inside the lock, the others are outside. *)
Lemma Forall_insert_cs (P Q : cb_pc -> Prop) l : forall i pc pc',
  l !! i = Some pc -> in_cs pc = true -> count_cs l = 1%nat ->
  Forall P l -> (forall x, P x -> in_cs x = false -> Q x) -> Q pc' ->
  Forall Q (<[i := pc']> l).
Proof.
  induction l as [|x l IH]; intros [|i] pc pc' H E C HP HQ Hpc'; simpl in H;
    try discriminate; inversion HP as [|? ? Hx Hl]; subst.
  - injection H as ->. simpl. constructor; [exact Hpc'|].
    unfold count_cs in C. simpl in C. rewrite E in C. simpl in C.
    assert (count_cs l = 0%nat) as C0 by (unfold count_cs; lia).
    apply count_cs_zero in C0.
    rewrite Forall_forall in *. intros y Hy. apply HQ; auto.
  - simpl. pose proof (count_cs_lookup l i pc H E) as C1.
    unfold count_cs in C, C1. simpl in C.
    destruct (in_cs x) eqn:Ex; simpl in C; [lia|].
    constructor; [apply HQ; auto|].
    apply (IH i pc pc'); auto.
Qed.

Lemma only_holder l i pc :
  l !! i = Some pc -> in_cs pc = true -> count_cs l = 1%nat ->
  forall x, In x l -> in_cs x = true -> x = pc.
Proof.
  revert i. induction l as [|y l IH]; intros [|i] H E C x Hin Ex; simpl in H;
    try discriminate.
  - injection H as ->. destruct Hin as [<-|Hin]; [reflexivity|].
    unfold count_cs in C. simpl in C. rewrite E in C. simpl in C.
    assert (count_cs l = 0%nat) as C0 by (unfold count_cs; lia).
    apply count_cs_zero in C0. rewrite Forall_forall in C0.
    apply list_elem_of_In in Hin. rewrite (C0 _ Hin) in Ex. discriminate.
  - pose proof (count_cs_lookup l i pc H E) as C1.
    unfold count_cs in C, C1. simpl in C.
    destruct (in_cs y) eqn:Ey; simpl in C; [lia|].
    destruct Hin as [<-|Hin]; [congruence|].
    apply (IH i); auto.
Qed.

Lemma In_before_insert {A} (l : list A) : forall i x pc y,
  l !! i = Some pc -> In y l -> y = pc \/ In y (<[i := x]> l).
Proof.
  induction l as [|z l IH]; intros [|i] x pc y H Hin; simpl in *; try discriminate.
  - injection H as ->. destruct Hin; auto.
  - destruct Hin as [Hin|Hin]; auto. destruct (IH i x pc y H Hin); auto.
Qed.

(** ** Interleavings: what each kind of write keeps *)

Lemma stored_from_push s calls m l r a :
  stored_from s calls m l r -> stored_from s calls (mem_push a m) l r.
Proof.
  intros [Hl (d & Hin & Hd)]. split.
  - simpl. rewrite length_app. simpl. lia.
  - exists d. split; [exact Hin|]. rewrite deref_alloc_old; assumption.
Qed.

Lemma stored_from_same s calls m m' l r :
  heap m' = heap m -> stored_from s calls m l r -> stored_from s calls m' l r.
Proof. unfold stored_from, deref. intros ->. auto. Qed.

Lemma stored_from_calls s calls f m l r :
  stored_from s calls m l r -> stored_from s (calls ++ [f]) m l r.
Proof.
  intros [Hl (d & Hin & Hd)]. split; [exact Hl|].
  exists d. split; [|exact Hd]. apply in_or_app. auto.
Qed.

Lemma stored_from_new s d r calls m :
  In (s, d, r) calls ->
  stored_from s calls (mem_push (array_of d) m) (length (heap m)) r.
Proof.
  intros Hin. split.
  - simpl. rewrite length_app. simpl. lia.
  - exists d. split; [exact Hin|]. apply deref_alloc_new.
Qed.

Lemma heap_set_image s v m : heap (mem_set_image s v m) = heap m.
Proof. destruct s; reflexivity. Qed.

Lemma heap_set_ts s v m : heap (mem_set_ts s v m) = heap m.
Proof. destruct s; reflexivity. Qed.

Lemma cb_ok_push calls m a pc : cb_ok calls m pc -> cb_ok calls (mem_push a m) pc.
Proof.
  destruct pc as [s d r|s img r|s img r|s r| |]; simpl; auto.
  - intros (l & E & H). exists l. split; [exact E|]. apply stored_from_push, H.
  - intros (l & E & H). exists l. split; [exact E|]. apply stored_from_push, H.
  - intros (l & E & H). exists l. split; [|apply stored_from_push, H].
    destruct s; exact E.
Qed.

Lemma cb_ok_lock calls m b pc : cb_ok calls m pc -> cb_ok calls (mem_set_lock b m) pc.
Proof.
  destruct pc as [s d r|s img r|s img r|s r| |]; simpl; auto.
Qed.

Lemma cb_ok_calls calls f m pc : cb_ok calls m pc -> cb_ok (calls ++ [f]) m pc.
Proof.
  destruct pc as [s d r|s img r|s img r|s r| |]; simpl; auto.
  - intros H. apply in_or_app. auto.
  - intros (l & E & H). exists l. split; [exact E|]. apply stored_from_calls, H.
  - intros (l & E & H). exists l. split; [exact E|]. apply stored_from_calls, H.
  - intros (l & E & H). exists l. split; [exact E|]. apply stored_from_calls, H.
Qed.

(** A thread outside the lock does not look at the slots. *)
Lemma cb_ok_outside calls m m' pc :
  heap m' = heap m -> in_cs pc = false -> cb_ok calls m pc -> cb_ok calls m' pc.
Proof.
  intros Hh. destruct pc as [s d r|s img r|s img r|s r| |]; simpl;
    try discriminate; auto.
  intros _ (l & E & H). exists l. split; [exact E|].
  eapply stored_from_same; eauto.
Qed.

Lemma coherent_push s calls m a : coherent s calls m -> coherent s calls (mem_push a m).
Proof.
  intros [[H1 H2]|(l & r & H1 & H2 & H3)]; [left | right].
  - destruct s; auto.
  - exists l, r. destruct s; (split; [exact H1 | split; [exact H2|]]);
      apply stored_from_push, H3.
Qed.

Lemma coherent_lock s calls m b :
  coherent s calls m -> coherent s calls (mem_set_lock b m).
Proof.
  intros [[H1 H2]|(l & r & H1 & H2 & H3)]; [left | right].
  - destruct s; auto.
  - exists l, r. destruct s; auto.
Qed.

Lemma coherent_calls s calls f m : coherent s calls m -> coherent s (calls ++ [f]) m.
Proof.
  intros [[H1 H2]|(l & r & H1 & H2 & H3)]; [left; auto | right].
  exists l, r. split; [exact H1 | split; [exact H2|]]. apply stored_from_calls, H3.
Qed.

Lemma coherent_other_image s s' v calls m :
  s' <> s -> coherent s' calls m -> coherent s' calls (mem_set_image s v m).
Proof.
  intros Hne [[H1 H2]|(l & r & H1 & H2 & H3)]; [left | right].
  - destruct s, s'; try congruence; auto.
  - exists l, r. destruct s, s'; try congruence; auto.
Qed.

Lemma coherent_other_ts s s' v calls m :
  s' <> s -> coherent s' calls m -> coherent s' calls (mem_set_ts s v m).
Proof.
  intros Hne [[H1 H2]|(l & r & H1 & H2 & H3)]; [left | right].
  - destruct s, s'; try congruence; auto.
  - exists l, r. destruct s, s'; try congruence; auto.
Qed.

Lemma copy_of_push m a v stored :
  copy_of m v stored -> copy_of (mem_push a m) v stored.
Proof.
  destruct stored as [l|]; simpl; auto.
  intros (l' & E & H1 & H2 & H3). exists l'. conj_split; auto.
  - rewrite length_app. simpl. lia.
  - rewrite length_app. simpl. lia.
  - rewrite !deref_alloc_old; assumption.
Qed.

Lemma sn_ok_push m a pc : sn_ok m pc -> sn_ok (mem_push a m) pc.
Proof.
  destruct pc as [| |rgb|rgb slam|rgb slam ts|[[[rgb slam] ts] ts']|snap]; simpl; auto.
  - apply copy_of_push.
  - intros [H1 H2]. split; apply copy_of_push; assumption.
  - intros (H1 & H2 & H3). conj_split; auto; apply copy_of_push; assumption.
  - intros (H1 & H2 & H3 & H4). conj_split; auto; apply copy_of_push; assumption.
Qed.

Lemma sn_ok_outside m pc : sn_in_cs pc = false -> sn_ok m pc.
Proof. destruct pc; simpl; try discriminate; auto. Qed.

Lemma sn_ok_lock m b pc : sn_ok m pc -> sn_ok (mem_set_lock b m) pc.
Proof. destruct pc as [| |rgb|rgb slam|rgb slam ts|[[[rgb slam] ts] ts']|snap]; auto. Qed.

(** ** Interleavings: the invariant is kept *)

Lemma config_inv_init : config_inv config_init.
Proof.
  constructor; simpl; auto.
  - intros s _. left. destruct s; auto.
Qed.

Lemma not_writing_app s pcs pc :
  (forall r, pc <> CbHalf s r) -> ~ writing s (pcs ++ [pc]) -> ~ writing s pcs.
Proof. intros _ H (r & Hin). apply H. exists r. apply in_or_app. auto. Qed.

Lemma invoke_inv c f : config_inv c -> forall c', do_action (Invoke f) c = Some c' -> config_inv c'.
Proof.
  intros [L T S D O] c' E. destruct f as [[s d] r]. simpl in E. injection E as <-.
  constructor; simpl.
  - unfold holders in *. simpl. rewrite count_cs_app. unfold count_cs at 2. simpl.
    rewrite <- L. lia.
  - apply Forall_app. split.
    + eapply Forall_impl; [exact T|]. intros pc. apply cb_ok_calls.
    + constructor; [|constructor]. simpl. apply in_or_app. right. left. reflexivity.
  - intros s' Hw. apply coherent_calls. apply S.
    eapply not_writing_app; [|exact Hw]. discriminate.
  - exact D.
  - eapply Forall_impl; [exact O|]. intros v Hv s'. destruct (Hv s') as [H|(d' & r' & Hin & H)].
    + left. exact H.
    + right. exists d', r'. split; [apply in_or_app; auto | exact H].
Qed.

Lemma no_writers s pcs : count_cs pcs = 0%nat -> ~ writing s pcs.
Proof.
  intros C (r & Hin). apply count_cs_zero in C. rewrite Forall_forall in C.
  apply list_elem_of_In in Hin. specialize (C _ Hin). discriminate.
Qed.

Lemma display_holds c :
  config_inv c -> sn_in_cs (display c) = true ->
  _lock (cmem c) = true /\ count_cs (producers c) = 0%nat.
Proof.
  intros [L _ _ _ _] E. unfold holders in L. rewrite E in L.
  destruct (_lock (cmem c)); split; auto; lia.
Qed.

Lemma producer_holds c i pc :
  config_inv c -> producers c !! i = Some pc -> in_cs pc = true ->
  _lock (cmem c) = true /\ count_cs (producers c) = 1%nat /\
  sn_in_cs (display c) = false.
Proof.
  intros [L _ _ _ _] Ei E. unfold holders in L.
  pose proof (count_cs_lookup _ _ _ Ei E) as C.
  destruct (_lock (cmem c)), (sn_in_cs (display c)); conj_split; auto; lia.
Qed.

Lemma copy_or_None_ok calls m s :
  coherent s calls m ->
  copy_of (snd (copy_or_None (latest_image s m) m))
          (fst (copy_or_None (latest_image s m) m)) (latest_image s m).
Proof.
  intros [[H1 H2]|(l & r & H1 & H2 & [Hl _])]; rewrite H1; simpl; [reflexivity|].
  exists (length (heap m)). conj_split; auto.
  - rewrite length_app. simpl. lia.
  - rewrite length_app. simpl. lia.
  - rewrite deref_alloc_new, deref_alloc_old; auto.
Qed.

Lemma from_one_put_seen calls m s v :
  copy_of m v (latest_image s m) -> coherent s calls m ->
  from_one_put s (deref m <$> v, latest_ts s m) calls.
Proof.
  intros Hc [[H1 H2]|(l & r & H1 & H2 & [Hl (d & Hin & Hd)])]; rewrite H1 in Hc;
    simpl in Hc.
  - subst v. rewrite H2. left. reflexivity.
  - destruct Hc as (l' & -> & _ & _ & E). right. exists d, r.
    split; [exact Hin|]. simpl. rewrite E, Hd, H2. reflexivity.
Qed.

Lemma copy_or_None_image s v m :
  latest_image s (snd (copy_or_None v m)) = latest_image s m.
Proof. destruct v, s; reflexivity. Qed.

Lemma copy_of_copy_or_None x m v stored :
  copy_of m v stored -> copy_of (snd (copy_or_None x m)) v stored.
Proof. destruct x; simpl; auto using copy_of_push. Qed.

Lemma display_inv c :
  config_inv c -> forall c', do_action Display c = Some c' -> config_inv c'.
Proof.
  intros HI c' E. pose proof HI as [L T S D O].
  unfold do_action in E.
  destruct (display c) as [| |rgb|rgb slam|rgb slam ts|[[[rgb slam] ts] ts']|snap] eqn:Ed;
    simpl in E.
  - (* with _lock: *)
    destruct (_lock (cmem c)) eqn:El; [discriminate|]. injection E as <-.
    constructor; simpl.
    + unfold holders in *. rewrite Ed in L. simpl in *. lia.
    + eapply Forall_impl; [exact T|]. intros pc. apply cb_ok_lock.
    + intros s Hw. apply coherent_lock, S, Hw.
    + exact I.
    + exact O.
  - (* rgb = ... *)
    destruct (display_holds c HI) as [El C]; [rewrite Ed; reflexivity|].
    injection E as <-.
    pose proof (copy_or_None_ok _ _ RGB (S RGB (no_writers RGB _ C))) as Hc.
    simpl in Hc.
    constructor; simpl.
    + unfold holders in *. rewrite Ed in L. simpl in *.
      destruct (_latest_rgb (cmem c)); simpl; exact L.
    + eapply Forall_impl; [exact T|]. intros pc.
      destruct (_latest_rgb (cmem c)); simpl; auto using cb_ok_push.
    + intros s Hw. specialize (S s Hw).
      destruct (_latest_rgb (cmem c)); simpl; auto using coherent_push.
    + change (_latest_rgb ?x) with (latest_image RGB x).
      rewrite copy_or_None_image. exact Hc.
    + exact O.
  - (* slam = ... *)
    destruct (display_holds c HI) as [El C]; [rewrite Ed; reflexivity|].
    injection E as <-.
    pose proof (copy_or_None_ok _ _ SLAM (S SLAM (no_writers SLAM _ C))) as Hc.
    simpl in Hc, D.
    constructor; simpl.
    + unfold holders in *. rewrite Ed in L. simpl in *.
      destruct (_latest_slam (cmem c)); simpl; exact L.
    + eapply Forall_impl; [exact T|]. intros pc.
      destruct (_latest_slam (cmem c)); simpl; auto using cb_ok_push.
    + intros s Hw. specialize (S s Hw).
      destruct (_latest_slam (cmem c)); simpl; auto using coherent_push.
    + change (_latest_rgb ?x) with (latest_image RGB x).
      change (_latest_slam ?x) with (latest_image SLAM x).
      rewrite !copy_or_None_image. split; [|exact Hc].
      apply copy_of_copy_or_None. exact D.
    + exact O.
  - (* rgb_ts = ... *)
    injection E as <-. constructor; simpl.
    + unfold holders in *. rewrite Ed in L. exact L.
    + exact T.
    + exact S.
    + simpl in D. tauto.
    + exact O.
  - (* slam_ts = ... *)
    injection E as <-. constructor; simpl.
    + unfold holders in *. rewrite Ed in L. exact L.
    + exact T.
    + exact S.
    + simpl in D. tauto.
    + exact O.
  - (* leaving the block *)
    destruct (display_holds c HI) as [El C]; [rewrite Ed; reflexivity|].
    injection E as <-. simpl in D. destruct D as (D1 & D2 & D3 & D4).
    constructor; simpl.
    + unfold holders. simpl. rewrite C. reflexivity.
    + eapply Forall_impl; [exact T|]. intros pc. apply cb_ok_lock.
    + intros s Hw. apply coherent_lock, S, Hw.
    + exact I.
    + apply Forall_app. split; [exact O|]. constructor; [|constructor].
      intros s. subst ts ts'.
      destruct s; simpl.
      * apply (from_one_put_seen _ _ RGB); [exact D1|]. apply S, no_writers, C.
      * apply (from_one_put_seen _ _ SLAM); [exact D2|]. apply S, no_writers, C.
  - (* the rest of the iteration *)
    injection E as <-. constructor; simpl.
    + unfold holders in *. rewrite Ed in L. exact L.
    + exact T.
    + exact S.
    + exact I.
    + exact O.
Qed.

Lemma writing_insert_same s l i pc pc' :
  l !! i = Some pc -> (forall r, pc <> CbHalf s r) ->
  ~ writing s (<[i := pc']> l) -> ~ writing s l.
Proof.
  intros Ei Hpc H (r & Hin). apply H. exists r.
  destruct (In_before_insert l i pc' pc _ Ei Hin) as [E|Hin']; [|exact Hin'].
  destruct (Hpc r). symmetry. exact E.
Qed.

Lemma In_inserted {A} (l : list A) i x pc : l !! i = Some pc -> In x (<[i := x]> l).
Proof.
  revert i. induction l as [|z l IH]; intros [|i] H; simpl in *; try discriminate; eauto.
Qed.

Lemma lock_set_image s v m : _lock (mem_set_image s v m) = _lock m.
Proof. destruct s; reflexivity. Qed.

Lemma lock_set_ts s v m : _lock (mem_set_ts s v m) = _lock m.
Proof. destruct s; reflexivity. Qed.

Lemma latest_image_set s v m : latest_image s (mem_set_image s v m) = v.
Proof. destruct s; reflexivity. Qed.

Lemma latest_set_ts s v m :
  latest_image s (mem_set_ts s v m) = latest_image s m /\
  latest_ts s (mem_set_ts s v m) = v.
Proof. destruct s; split; reflexivity. Qed.

Ltac holders_step Ei :=
  unfold holders in *; cbn [cmem producers display];
  rewrite ?lock_set_image, ?lock_set_ts; cbn [_lock mem_push mem_set_lock];
  match goal with
  | |- context [<[_ := ?x]> _] =>
      let Hc := fresh "Hc" in
      pose proof (count_cs_insert _ _ _ x Ei) as Hc; cbn [in_cs] in Hc
  end;
  repeat match goal with
         | H : _lock _ = _ |- _ => rewrite H in *
         | H : sn_in_cs _ = _ |- _ => rewrite H in *
         end;
  lia.

Lemma producer_inv c i :
  config_inv c -> forall c', do_action (Producer i) c = Some c' -> config_inv c'.
Proof.
  intros HI c' E. pose proof HI as [L T S D O].
  unfold do_action in E.
  destruct (producers c !! i) as [pc|] eqn:Ei; [|discriminate].
  pose proof (Forall_lookup_1 _ _ _ _ T Ei) as Hpc.
  destruct pc as [s d r|s img r|s img r|s r| |]; simpl in E.
  - (* img = image_data.to_numpy_array() *)
    injection E as <-. simpl in Hpc.
    constructor; simpl.
    + holders_step Ei.
    + apply Forall_insert.
      * eapply Forall_impl; [exact T|]. intros pc. apply cb_ok_push.
      * simpl. eexists. split; [reflexivity|]. apply stored_from_new, Hpc.
    + intros s' Hw. apply coherent_push, S.
      eapply writing_insert_same; [exact Ei | discriminate | exact Hw].
    + apply sn_ok_push, D.
    + exact O.
  - (* with _lock: *)
    destruct (_lock (cmem c)) eqn:El; [discriminate|]. injection E as <-.
    constructor; simpl.
    + holders_step Ei.
    + apply Forall_insert.
      * eapply Forall_impl; [exact T|]. intros pc. apply cb_ok_lock.
      * exact Hpc.
    + intros s' Hw. apply coherent_lock, S.
      eapply writing_insert_same; [exact Ei | discriminate | exact Hw].
    + apply sn_ok_lock, D.
    + exact O.
  - (* _latest = img *)
    destruct (producer_holds c i _ HI Ei eq_refl) as (El & C & Hd).
    injection E as <-. simpl in Hpc. destruct Hpc as (l & -> & Hl).
    constructor; simpl.
    + holders_step Ei.
    + eapply (Forall_insert_cs (cb_ok (invoked c) (cmem c))); eauto.
      * intros x Hx Ex.
        apply (cb_ok_outside _ (cmem c)); [apply heap_set_image | exact Ex | exact Hx].
      * simpl. exists l. split; [apply latest_image_set|].
        eapply stored_from_same; [apply heap_set_image | exact Hl].
    + intros s' Hw.
      assert (s' <> s) as Hne.
      { intros ->. apply Hw. exists r. eapply In_inserted; eauto. }
      apply coherent_other_image; [exact Hne|]. apply S.
      intros (r' & Hin).
      pose proof (only_holder _ _ _ Ei eq_refl C _ Hin eq_refl). discriminate.
    + apply sn_ok_outside. exact Hd.
    + exact O.
  - (* _latest_ts = ... *)
    destruct (producer_holds c i _ HI Ei eq_refl) as (El & C & Hd).
    injection E as <-. simpl in Hpc. destruct Hpc as (l & Hi & Hl).
    constructor; simpl.
    + holders_step Ei.
    + eapply (Forall_insert_cs (cb_ok (invoked c) (cmem c))); eauto.
      * intros x Hx Ex.
        apply (cb_ok_outside _ (cmem c)); [apply heap_set_ts | exact Ex | exact Hx].
      * exact I.
    + intros s' Hw. destruct (decide (s' = s)) as [->|Hne].
      * right. exists l, r.
        destruct (latest_set_ts s (Some (capture_timestamp_ns r)) (cmem c)) as [E1 E2].
        rewrite E1, E2. conj_split; auto.
        eapply stored_from_same; [apply heap_set_ts | exact Hl].
      * apply coherent_other_ts; [exact Hne|]. apply S.
        intros (r' & Hin).
        pose proof (only_holder _ _ _ Ei eq_refl C _ Hin eq_refl) as E.
        injection E as -> _. congruence.
    + apply sn_ok_outside. exact Hd.
    + exact O.
  - (* leaving the block *)
    destruct (producer_holds c i _ HI Ei eq_refl) as (El & C & Hd).
    injection E as <-.
    constructor; simpl.
    + holders_step Ei.
    + apply Forall_insert.
      * eapply Forall_impl; [exact T|]. intros pc. apply cb_ok_lock.
      * exact I.
    + intros s' Hw. apply coherent_lock, S.
      eapply writing_insert_same; [exact Ei | discriminate | exact Hw].
    + apply sn_ok_lock, D.
    + exact O.
  - discriminate.
Qed.

Lemma do_action_inv a c c' : config_inv c -> do_action a c = Some c' -> config_inv c'.
Proof.
  intros HI E. destruct a as [f|i|].
  - eapply invoke_inv; eauto.
  - eapply producer_inv; eauto.
  - eapply display_inv; eauto.
Qed.

Lemma run_inv sched : forall c c', config_inv c -> run sched c = Some c' -> config_inv c'.
Proof.
  induction sched as [|a sched IH]; intros c c' HI E; simpl in E.
  - injection E as <-. exact HI.
  - destruct (do_action a c) as [c1|] eqn:Ea; [|discriminate].
    apply (IH c1 c'); [|exact E]. eapply do_action_inv; eauto.
Qed.

(** * Properties of the specification *)

Ltac in_list := repeat first [ left; reflexivity | right ].



(** C4.  Whatever the snapshot and the world, presenting a snapshot either
    returns or is cut short by SIGINT: it raises no error; a stream that is
    absent from the snapshot gets no window in that iteration.  A run that
    receives RGB frames before its first snapshot and no SLAM frame at all, and
    that ends on the quit key, returns normally, has drawn the RGB window in
    every iteration and has never drawn the SLAM window. *)
Theorem absent_stream_skipped :
  (forall args rgb slam rgb_ts slam_ts w,
     ((exists stop, fst (present args (rgb, slam, rgb_ts, slam_ts) w) = Returns stop) \/
      fst (present args (rgb, slam, rgb_ts, slam_ts) w) = Raises KeyboardInterrupt) /\
     (rgb = None ->
      forall img,
        ~ In (EImshow RGB_WINDOW img)
             (new_events w (snd (present args (rgb, slam, rgb_ts, slam_ts) w)))) /\
     (slam = None ->
      forall img,
        ~ In (EImshow SLAM_WINDOW img)
             (new_events w (snd (present args (rgb, slam, rgb_ts, slam_ts) w))))) /\
  (forall cfg argv fuel pre q post first later d r,
     Forall (fun k => is_quit k = false) pre -> is_quit q = true ->
     (length pre < fuel)%nat ->
     In (RGB, d, r) first -> rgb_only (first :: later) ->
     fst (main cfg argv fuel
            (world_init (pre ++ q :: post) (first :: later) None)) = Returns tt /\
     times_shown RGB_WINDOW
       (trace (snd (main cfg argv fuel
                      (world_init (pre ++ q :: post) (first :: later) None)))) =
     S (length pre) /\
     times_shown SLAM_WINDOW
       (trace (snd (main cfg argv fuel
                      (world_init (pre ++ q :: post) (first :: later) None)))) =
     0%nat).
Proof.
  split.
  - intros args rgb slam rgb_ts slam_ts w. conj_split.
    + apply present_result.
    + intros ->. apply not_shown_In. apply present_new_events.
      * intros []; simpl; tauto.
      * discriminate.
      * reflexivity.
    + intros ->. apply not_shown_In. apply present_new_events.
      * intros []; simpl; tauto.
      * reflexivity.
      * discriminate.
  - intros cfg argv fuel pre q post first later d r Hpre Hq Hfuel Hin Ho.
    destruct (main_quit cfg argv fuel pre q post (first :: later) Hpre Hq Hfuel)
      as (H1 & H2 & H3).
    conj_split; [exact H1 | apply H2; simpl; eauto | apply H3; exact Ho].
Qed.

Lemma absent_stream_skipped_witness :
  times_shown RGB_WINDOW
    (trace (snd (main sample_config no_flags 3
                   (world_init ([-1; 97] ++ ord "q"%char :: [])
                      ([(RGB, sample_rgb, at_ns 100)] :: []) None)))) = 3%nat.
Proof.
  apply (proj2 absent_stream_skipped sample_config no_flags 3%nat [-1; 97]
           (ord "q"%char) [] [(RGB, sample_rgb, at_ns 100)] [] sample_rgb (at_ns 100)).
  - repeat constructor.
  - reflexivity.
  - simpl. lia.
  - left. reflexivity.
  - repeat constructor.
Defined.

(** C5.  A run of [main] never ends in an exception or a deadlock: it
    returns, or its loop is still going.  Every run that returns has exit
    status 0 and ends with the teardown ([destroyAllWindows], then the last
    line).  The run returns both when the quit key is read and when SIGINT
    arrives, given the iterations it takes to get there. *)
Theorem teardown_on_every_exit cfg argv fuel ks fs int :
  (fst (main cfg argv fuel (world_init ks fs int)) = Returns tt \/
   fst (main cfg argv fuel (world_init ks fs int)) = Running) /\
  (fst (main cfg argv fuel (world_init ks fs int)) = Returns tt ->
   exit_status (fst (main cfg argv fuel (world_init ks fs int))) = Some 0 /\
   exists t,
     trace (snd (main cfg argv fuel (world_init ks fs int))) =
       (t ++ teardown_events)%list /\
     ~ In EDestroyAllWindows t) /\
  (forall pre q post,
     int = None -> ks = (pre ++ q :: post)%list ->
     Forall (fun k => is_quit k = false) pre -> is_quit q = true ->
     (length pre < fuel)%nat ->
     fst (main cfg argv fuel (world_init ks fs int)) = Returns tt) /\
  (forall k,
     int = Some k -> (k < fuel)%nat ->
     fst (main cfg argv fuel (world_init ks fs int)) = Returns tt).
Proof.
  conj_split.
  - destruct (main_spec cfg argv fuel ks fs int) as (w1 & _ & [[E _]|[E _]]); auto.
  - intros E. rewrite E. split; [reflexivity|].
    destruct (main_trace cfg argv fuel ks fs int) as (es & Hes & [[_ Ht]|[E' _]]);
      [|congruence].
    exists (setup_events (parse_args argv) ++ es)%list. split.
    + rewrite Ht, app_assoc. reflexivity.
    + rewrite in_app_iff. intros [Hin|Hin].
      * unfold setup_events in Hin.
        destruct (truthy (record_to_vrs (parse_args argv))); simpl in Hin;
          intuition discriminate.
      * rewrite Forall_forall in Hes. apply (Hes _ (proj2 (list_elem_of_In _ _) Hin)).
  - intros pre q post -> -> Hpre Hq Hfuel.
    apply (main_quit cfg argv fuel pre q post fs Hpre Hq Hfuel).
  - intros k -> Hlt. apply main_interrupted. exact Hlt.
Qed.

Lemma teardown_on_every_exit_witness :
  fst (main sample_config no_flags 4 (world_init [] [] (Some 3%nat))) = Returns tt.
Proof.
  apply (proj2 (proj2 (proj2
           (teardown_on_every_exit sample_config no_flags 4 [] [] (Some 3%nat))))
           3%nat).
  - reflexivity.
  - lia.
Defined.

(** ** What the snapshot and the callbacks leave alone *)

Ltac untouched_leaf := wp_simpl; eauto 10 with kept.

Lemma take_snapshot_untouched w :
  wp take_snapshot (fun _ w' => untouched (wmem w) (wmem w')) w.
Proof. unfold take_snapshot. wp_run untouched_leaf; untouched_leaf. Qed.

Lemma take_snapshot_fresh w rgb slam rgb_ts slam_ts l :
  fst (take_snapshot w) = Returns (rgb, slam, rgb_ts, slam_ts) ->
  rgb = Some l \/ slam = Some l ->
  (length (heap (wmem w)) <= l < length (heap (wmem (snd (take_snapshot w)))))%nat.
Proof.
  intros E Hl. destruct (_lock (wmem w)) eqn:Hlock.
  - exfalso. revert E. unfold take_snapshot.
    unfold bind, checkpoint, with_lock, bind, acquire.
    destruct (sigint w) as [[|k]|]; simpl; rewrite ?Hlock; simpl; discriminate.
  - pose proof (take_snapshot_kept any_event w Hlock) as H. unfold wp in H.
    rewrite E in H. simpl in H. destruct H as [_ [H _]]. apply (H l Hl).
Qed.

Lemma put_blocked s d r w :
  _lock (wmem w) = true ->
  put (s, d, r) w = (Deadlock, with_mem (mem_push (array_of d) (wmem w)) w).
Proof.
  intros Hl. destruct s;
    unfold put, rgb_callback, slam_callback, to_numpy_array, new_array, with_lock,
      set_image, set_ts, bind, acquire, release, get_mem, put_mem, ret;
    simpl; rewrite Hl; reflexivity.
Qed.

Lemma present_untouched_mem args snap w :
  untouched (wmem w) (wmem (snd (present args snap w))).
Proof.
  pose proof (present_untouched args snap w) as H. unfold wp in H.
  destruct (present args snap w) as [[b|[]| |] w']; simpl in *;
    try contradiction; apply H.
Qed.

(** C6.  The snapshot block changes neither a slot nor an array that exists,
    and the references it returns are new ones; a callback leaves the other
    stream's slot and every existing array as they are; and presenting a
    snapshot (conversion, annotation, [imshow], key poll) changes neither a
    slot nor an array that existed before it. *)
Theorem cache_written_by_put_only :
  (forall w,
     untouched (wmem w) (wmem (snd (take_snapshot w))) /\
     forall rgb slam rgb_ts slam_ts l,
       fst (take_snapshot w) = Returns (rgb, slam, rgb_ts, slam_ts) ->
       rgb = Some l \/ slam = Some l ->
       (length (heap (wmem w)) <= l)%nat) /\
  (forall s d r w s',
     s' <> s ->
     latest_image s' (wmem (snd (put (s, d, r) w))) = latest_image s' (wmem w) /\
     latest_ts s' (wmem (snd (put (s, d, r) w))) = latest_ts s' (wmem w) /\
     forall l, (l < length (heap (wmem w)))%nat ->
               deref (wmem (snd (put (s, d, r) w))) l = deref (wmem w) l) /\
  (forall args snap w,
     untouched (wmem w) (wmem (snd (present args snap w)))).
Proof.
  conj_split.
  - intros w. split; [apply take_snapshot_untouched|].
    intros rgb slam rgb_ts slam_ts l E Hl.
    apply (take_snapshot_fresh w rgb slam rgb_ts slam_ts l E Hl).
  - intros s d r w s' Hne. destruct (_lock (wmem w)) eqn:Hl.
    + rewrite put_blocked by exact Hl. simpl. conj_split.
      * destruct s'; reflexivity.
      * destruct s'; reflexivity.
      * intros l Hlt. apply deref_alloc_old. exact Hlt.
    + rewrite put_run by exact Hl. simpl. conj_split.
      * apply mem_put_image_other. exact Hne.
      * apply mem_put_ts_other. exact Hne.
      * intros l Hlt. apply mem_put_old. exact Hlt.
  - apply present_untouched_mem.
Qed.

Lemma cache_written_by_put_only_witness :
  latest_image SLAM (wmem (snd (put (RGB, sample_rgb, at_ns 100) sample_world))) =
  latest_image SLAM (wmem sample_world).
Proof.
  apply (proj1 (proj2 cache_written_by_put_only) RGB sample_rgb (at_ns 100)
           sample_world SLAM).
  discriminate.
Defined.

(** ** The receiver a run ends with *)

Lemma main_server cfg argv fuel ks fs int :
  server (snd (main cfg argv fuel (world_init ks fs int))) =
  Some (receiver_of (parse_args argv)) /\
  exists n,
    arrivals (snd (main cfg argv fuel (world_init ks fs int))) = drop n fs /\
    forall s,
      slot s (wmem (snd (main cfg argv fuel (world_init ks fs int)))) =
      record_of (last_put s (concat (take n fs))).
Proof.
  destruct (main_spec cfg argv fuel ks fs int)
    as (w1 & (_ & _ & _ & Hs & n & Ha & Hv) & [[_ ->]|[_ ->]]);
    (split; [exact Hs | exists n; split; [exact Ha | exact Hv]]).
Qed.

Lemma receiver_of_same c c' :
  same_but_show_slam c c' ->
  receiver_of (parse_args c) = receiver_of (parse_args c') /\
  setup_events (parse_args c) = setup_events (parse_args c').
Proof.
  intros (H1 & H2 & H3). unfold receiver_of, setup_events, parse_args. simpl.
  rewrite H1, H2, H3. split; reflexivity.
Qed.

(** C10.  Whatever the command line, the server that [main] starts has both
    callbacks registered, and it is the same server with or without
    [--show-slam].  So at any point of a run the slots hold the last frame of
    each stream among the batches delivered so far, the SLAM slot included;
    and without [--show-slam] no SLAM window is drawn. *)
Theorem callbacks_always_registered cfg argv fuel ks fs int :
  (exists sr,
     server (snd (main cfg argv fuel (world_init ks fs int))) = Some sr /\
     on_rgb sr = Some fn_rgb_callback /\ on_slam sr = Some fn_slam_callback /\
     forall argv',
       same_but_show_slam argv argv' ->
       server (snd (main cfg argv' fuel (world_init ks fs int))) = Some sr) /\
  (exists n,
     arrivals (snd (main cfg argv fuel (world_init ks fs int))) = drop n fs /\
     forall s,
       slot s (wmem (snd (main cfg argv fuel (world_init ks fs int)))) =
       record_of (last_put s (concat (take n fs)))) /\
  (given_show_slam argv = false ->
   forall img,
     ~ In (EImshow SLAM_WINDOW img)
          (trace (snd (main cfg argv fuel (world_init ks fs int))))).
Proof.
  destruct (main_server cfg argv fuel ks fs int) as [Hs Hn]. conj_split.
  - exists (receiver_of (parse_args argv)). conj_split; auto.
    intros argv' Hsame. destruct (main_server cfg argv' fuel ks fs int) as [Hs' _].
    rewrite Hs'. destruct (receiver_of_same argv argv' Hsame) as [-> _]. reflexivity.
  - exact Hn.
  - intros Hoff img Hin.
    destruct (main_window _ _ _ _ _ _ _ _ Hin) as [[E _]|(_ & Hon & _)].
    + discriminate E.
    + simpl in Hon. congruence.
Qed.

Lemma callbacks_always_registered_witness :
  ~ In (EImshow SLAM_WINDOW (array_of sample_slam))
       (trace (snd (main sample_config no_flags 2 sample_world))).
Proof.
  apply (proj2 (proj2 (callbacks_always_registered sample_config no_flags 2
                         [ord "q"%char]
                         [[(RGB, sample_rgb, at_ns 100); (SLAM, sample_slam, at_ns 50)]]
                         None))).
  reflexivity.
Defined.

(** ** Snapshots after puts *)

Lemma snapshot_after w :
  sigint w = None -> _lock (wmem w) = false -> mem_ok (wmem w) ->
  exists snap w',
    take_snapshot w = (Returns snap, w') /\
    forall s, seen s (wmem w') snap = slot s (wmem w).
Proof.
  intros Hq Hl Hok.
  pose proof (take_snapshot_kept any_event w Hl) as H. unfold wp in H.
  rewrite (take_snapshot_quiet w Hq Hl) in H. cbn [fst snd outcome] in H.
  destruct H as [_ H].
  exists (fst (snapshot_mem (wmem w))), (with_mem (snd (snapshot_mem (wmem w))) w).
  split; [apply take_snapshot_quiet; assumption|].
  revert H. generalize (fst (snapshot_mem (wmem w))).
  intros [[[rgb slam] rgb_ts] slam_ts] [_ H]. apply (H Hok).
Qed.

(** C1.  After any finite sequence of puts from the start of the program, a
    snapshot returns, for each stream, the image and the timestamp of the last
    put to that stream, and [None] for both if there was none. *)
Theorem snapshot_last_write_wins (fs : list frame) ks arr :
  exists w1 snap w2,
    put_all fs (world_init ks arr None) = (Returns tt, w1) /\
    take_snapshot w1 = (Returns snap, w2) /\
    forall s, seen s (wmem w2) snap = record_of (last_put s fs).
Proof.
  destruct (put_all_run fs (world_init ks arr None) eq_refl)
    as (m' & E & L & O & _ & _ & Sl).
  { split; apply clean_None. }
  destruct (snapshot_after (with_mem m' (world_init ks arr None)) eq_refl L O)
    as (snap & w2 & E2 & Hv).
  eexists. exists snap, w2. conj_split; [exact E | exact E2 |].
  intros s. rewrite Hv. simpl. rewrite Sl.
  destruct (last_put s fs); [reflexivity|]. destruct s; reflexivity.
Qed.

Lemma mem_ok_both a ra b rb m :
  mem_ok (mem_put SLAM b rb (mem_put RGB a ra m)) /\
  mem_ok (mem_put RGB a ra (mem_put SLAM b rb m)).
Proof.
  split; split; intros l E; simpl in E; injection E as <-;
    (split; [heap_len | heap_nth; reflexivity]).
Qed.

(** C7.  From any state with the lock free, the RGB callback followed by the
    SLAM callback and the SLAM callback followed by the RGB callback both
    return and leave the same records in the slots: the RGB frame with its
    timestamp and the SLAM frame with its timestamp; a snapshot taken after
    either order returns both. *)
Theorem puts_on_different_streams_commute w a ra b rb :
  _lock (wmem w) = false -> sigint w = None ->
  exists w1 w2,
    (rgb_callback a ra ;;; slam_callback b rb) w = (Returns tt, w1) /\
    (slam_callback b rb ;;; rgb_callback a ra) w = (Returns tt, w2) /\
    (forall s, slot s (wmem w1) = slot s (wmem w2)) /\
    slot RGB (wmem w1) = (Some (array_of a), Some (capture_timestamp_ns ra)) /\
    slot SLAM (wmem w1) = (Some (array_of b), Some (capture_timestamp_ns rb)) /\
    (exists snap w', take_snapshot w1 = (Returns snap, w') /\
       seen RGB (wmem w') snap = (Some (array_of a), Some (capture_timestamp_ns ra)) /\
       seen SLAM (wmem w') snap = (Some (array_of b), Some (capture_timestamp_ns rb))) /\
    (exists snap w', take_snapshot w2 = (Returns snap, w') /\
       seen RGB (wmem w') snap = (Some (array_of a), Some (capture_timestamp_ns ra)) /\
       seen SLAM (wmem w') snap = (Some (array_of b), Some (capture_timestamp_ns rb))).
Proof.
  intros Hl Hq.
  pose proof (put_run RGB a ra w Hl) as E1.
  pose proof (put_run SLAM b rb (with_mem (mem_put RGB a ra (wmem w)) w)
                (mem_put_lock _ _ _ _)) as E2.
  pose proof (put_run SLAM b rb w Hl) as E3.
  pose proof (put_run RGB a ra (with_mem (mem_put SLAM b rb (wmem w)) w)
                (mem_put_lock _ _ _ _)) as E4.
  cbn [put] in E1, E2, E3, E4.
  assert (slot RGB (mem_put SLAM b rb (mem_put RGB a ra (wmem w))) =
          (Some (array_of a), Some (capture_timestamp_ns ra))) as R1
    by (unfold slot; simpl; heap_nth; reflexivity).
  assert (slot SLAM (mem_put SLAM b rb (mem_put RGB a ra (wmem w))) =
          (Some (array_of b), Some (capture_timestamp_ns rb))) as S1
    by (unfold slot; simpl; heap_nth; reflexivity).
  assert (slot RGB (mem_put RGB a ra (mem_put SLAM b rb (wmem w))) =
          (Some (array_of a), Some (capture_timestamp_ns ra))) as R2
    by (unfold slot; simpl; heap_nth; reflexivity).
  assert (slot SLAM (mem_put RGB a ra (mem_put SLAM b rb (wmem w))) =
          (Some (array_of b), Some (capture_timestamp_ns rb))) as S2
    by (unfold slot; simpl; heap_nth; reflexivity).
  destruct (mem_ok_both a ra b rb (wmem w)) as [O1 O2].
  exists (with_mem (mem_put SLAM b rb (mem_put RGB a ra (wmem w))) w),
         (with_mem (mem_put RGB a ra (mem_put SLAM b rb (wmem w))) w).
  conj_split.
  - unfold bind. rewrite E1, E2. reflexivity.
  - unfold bind. rewrite E3, E4. reflexivity.
  - intros []; simpl; congruence.
  - exact R1.
  - exact S1.
  - destruct (snapshot_after
                (with_mem (mem_put SLAM b rb (mem_put RGB a ra (wmem w))) w)
                Hq (mem_put_lock _ _ _ _) O1) as (snap & w' & E & Hv).
    exists snap, w'. rewrite !Hv. auto.
  - destruct (snapshot_after
                (with_mem (mem_put RGB a ra (mem_put SLAM b rb (wmem w))) w)
                Hq (mem_put_lock _ _ _ _) O2) as (snap & w' & E & Hv).
    exists snap, w'. rewrite !Hv. auto.
Qed.

Lemma puts_on_different_streams_commute_witness :
  exists w1 w2,
    (rgb_callback sample_rgb (at_ns 100) ;;; slam_callback sample_slam (at_ns 50))
      sample_world = (Returns tt, w1) /\
    (slam_callback sample_slam (at_ns 50) ;;; rgb_callback sample_rgb (at_ns 100))
      sample_world = (Returns tt, w2) /\
    forall s, slot s (wmem w1) = slot s (wmem w2).
Proof.
  destruct (puts_on_different_streams_commute sample_world sample_rgb (at_ns 100)
              sample_slam (at_ns 50) eq_refl eq_refl)
    as (w1 & w2 & H1 & H2 & H3 & _).
  exists w1, w2. auto.
Defined.

(** ** Runs with and without [--show-slam] *)

Lemma with_mem_id w : with_mem (wmem w) w = w.
Proof. destruct w; reflexivity. Qed.

Lemma put_all_exact fs : forall w,
  _lock (wmem w) = false ->
  put_all fs w = (Returns tt, with_mem (mem_put_all fs (wmem w)) w).
Proof.
  induction fs as [|[[s d] r] fs IH]; intros w Hl.
  - simpl. rewrite with_mem_id. reflexivity.
  - cbn [put_all mem_put_all]. unfold bind at 1. rewrite put_run by exact Hl.
    rewrite IH by apply mem_put_lock. reflexivity.
Qed.

Lemma sdk_threads_run_exact sr w :
  server w = Some sr -> both_registered sr -> _lock (wmem w) = false ->
  sdk_threads_run w = (Returns tt, after_batch w).
Proof.
  intros Hs Hb Hl. unfold sdk_threads_run, after_batch.
  destruct w as [m sv t ks a si]. simpl in *. destruct a as [|f later]; simpl.
  - reflexivity.
  - rewrite (deliver_all_put sr) by assumption.
    rewrite put_all_exact by exact Hl. reflexivity.
Qed.


(** One turn of the loop without SIGINT, in closed form. *)
Lemma while_True_step args t0 sr fs (Hsr : both_registered sr) fuel w :
  loop_inv args t0 sr fs w -> sigint w = None ->
  while_True (S fuel) args w =
    (if is_quit (next_key w)
     then (Returns tt, after_iteration args (after_batch w))
     else while_True fuel args (after_iteration args (after_batch w))) /\
  loop_inv args t0 sr fs (after_iteration args (after_batch w)).
Proof.
  intros HJ Hq.
  destruct (sdk_threads_run_inv args t0 sr fs Hsr w HJ) as (w1 & E1 & J1 & S1 & _).
  rewrite (sdk_threads_run_exact sr w) in E1 by (first [apply HJ | exact Hsr]).
  injection E1 as <-.
  destruct (after_iteration_inv args t0 sr fs (after_batch w) J1 Hq) as [J2 _].
  split; [|exact J2].
  cbn [while_True]. unfold bind at 1.
  rewrite (sdk_threads_run_exact sr w) by (first [apply HJ | exact Hsr]).
  unfold bind at 1. rewrite (loop_body_quiet args (after_batch w) Hq (proj1 J1)).
  change (next_key (after_batch w)) with (next_key w).
  destruct (is_quit (next_key w)); reflexivity.
Qed.









(** The two models agree on a thread that runs alone: five statements of a
    callback are one put, six statements of the main thread are one
    snapshot. *)
Lemma callback_alone s d r m :
  _lock m = false -> cb_run 5 (CbCall s d r) m = Some (CbDone, mem_put s d r m).
Proof. intros Hl. simpl. rewrite Hl. reflexivity. Qed.

Lemma snapshot_alone m :
  _lock m = false ->
  sn_run 6 SnWait m =
  Some (SnRest (fst (snapshot_mem (mem_set_lock true m))),
        mem_set_lock false (snd (snapshot_mem (mem_set_lock true m)))).
Proof. intros Hl. simpl. rewrite Hl. reflexivity. Qed.

(** C2.  Whatever the interleaving of callback invocations, callback
    statements and main-thread statements, each stream's part of every
    snapshot the main thread has taken is nothing at all, or the image and
    the timestamp of one and the same callback invocation of that stream. *)
Theorem snapshot_pairs_from_one_put sched c :
  run sched config_init = Some c ->
  Forall (fun v => forall s, from_one_put s (part s v) (invoked c)) (observed c).
Proof.
  intros E. apply (inv_observed c). eapply run_inv; [apply config_inv_init | exact E].
Qed.

Lemma snapshot_pairs_from_one_put_witness :
  exists c,
    run sample_schedule config_init = Some c /\
    length (observed c) = 2%nat /\
    Forall (fun v => forall s, from_one_put s (part s v) (invoked c)) (observed c).
Proof.
  destruct (run sample_schedule config_init) as [c|] eqn:E;
    [|vm_compute in E; discriminate E].
  exists c. split; [reflexivity|]. split.
  - vm_compute in E. injection E as <-. reflexivity.
  - apply (snapshot_pairs_from_one_put sample_schedule). exact E.
Defined.

(** * Further properties of the code *)

(** ** Uninterrupted runs in closed form *)

Lemma hd_drop {A} (d : A) n (l : list A) : hd d (drop n l) = nth n l d.
Proof.
  revert n. induction l as [|x l IH]; intros [|n]; simpl; auto.
Qed.

Lemma tl_drop {A} n (l : list A) : tl (drop n l) = drop (S n) l.
Proof.
  revert n. induction l as [|x l IH]; intros [|n]; simpl; auto.
Qed.

Lemma concat_take_S {A} n (ls : list (list A)) :
  concat (take (S n) ls) = (concat (take n ls) ++ hd [] (drop n ls))%list.
Proof.
  revert n. induction ls as [|x ls IH]; intros [|n]; simpl; auto.
  - rewrite app_nil_r. reflexivity.
  - rewrite IH, app_assoc. reflexivity.
Qed.

(** The image that the RGB window gets, and what rendering leaves. *)
Lemma rendered_new l rgb_ts m :
  deref (rendered (Some l) rgb_ts m) (length (heap m)) =
  draw_text (ts_label rgb_ts) (convert COLOR_RGB2BGR (deref m l)).
Proof.
  unfold rendered. rewrite deref_store_same by (rewrite length_alloc; lia).
  rewrite deref_alloc_new. reflexivity.
Qed.

Lemma rendered_old rgb rgb_ts m l :
  (l < length (heap m))%nat -> deref (rendered rgb rgb_ts m) l = deref m l.
Proof.
  intros Hl. destruct rgb as [l0|]; [|reflexivity]. unfold rendered.
  rewrite deref_store_other by lia. apply deref_alloc_old. exact Hl.
Qed.

Lemma snapshot_mem_seen m :
  _lock m = false -> mem_ok m ->
  snapshot_of (with_mem m (world_init [] [] None))
    (with_mem (snd (snapshot_mem m)) (world_init [] [] None)) (fst (snapshot_mem m)).
Proof.
  intros Hl Hok.
  pose proof (take_snapshot_kept any_event (with_mem m (world_init [] [] None)) Hl) as H.
  unfold wp in H. rewrite take_snapshot_quiet in H by (first [reflexivity | exact Hl]).
  apply H.
Qed.

(** The events of an iteration from the frames in the slots. *)
Lemma iteration_events_frames args m got k :
  _lock m = false -> mem_ok m ->
  (forall s, slot s m = record_of (last_put s got)) ->
  iteration_events args m k = frame_events args got k.
Proof.
  intros Hl Hok Hv. pose proof (snapshot_mem_seen m Hl Hok) as H.
  unfold iteration_events, present_events, frame_events.
  destruct (snapshot_mem m) as [[[[rgb slam] rgb_ts] slam_ts] M].
  cbn [fst snd snapshot_of wmem with_mem world_init] in *.
  destruct H as [_ H]. destruct (H Hok) as (Hseen & Cr & Cs).
  pose proof (Hseen RGB) as Hr. pose proof (Hseen SLAM) as Hs.
  rewrite Hv in Hr, Hs. cbn [seen] in Hr, Hs.
  f_equal; [|f_equal].
  - unfold rgb_events. destruct rgb as [l|].
    + rewrite rendered_new.
      destruct (last_put RGB got) as [[d r]|]; [|discriminate Hr].
      simpl in Hr. injection Hr as -> ->. reflexivity.
    + destruct (last_put RGB got) as [[d r]|]; [discriminate Hr | reflexivity].
  - unfold slam_events. destruct (show_slam args); [|reflexivity].
    destruct slam as [l|].
    + rewrite rendered_old by (apply (Cs l eq_refl)).
      destruct (last_put SLAM got) as [[d r]|]; [|discriminate Hs].
      simpl in Hs. injection Hs as -> _. reflexivity.
    + destruct (last_put SLAM got) as [[d r]|]; [discriminate Hs | reflexivity].
Qed.

Lemma before_iteration_loop_inv args sr fs ks n w :
  before_iteration sr fs ks n w -> loop_inv args (trace w) sr fs w.
Proof.
  intros (Hl & Hok & Hs & _ & Ha & _ & Hv). unfold loop_inv. conj_split; auto.
  - apply trace_ok_refl.
  - exists n. auto.
Qed.

(** One turn of an uninterrupted loop. *)
Lemma before_iteration_step args sr fs ks n w :
  both_registered sr -> before_iteration sr fs ks n w ->
  before_iteration sr fs ks (S n) (after_iteration args (after_batch w)) /\
  next_key w = nth n ks (-1) /\
  trace (after_iteration args (after_batch w)) =
    (trace w ++ nth_iteration args fs ks n)%list.
Proof.
  intros Hsr H. pose proof (before_iteration_loop_inv args sr fs ks n w H) as HJ.
  destruct H as (Hl & Hok & Hs & Hq & Ha & Hk & Hv).
  destruct (sdk_threads_run_inv args (trace w) sr fs Hsr w HJ)
    as (w1 & E1 & J1 & S1 & K1 & T1 & A1 & V1).
  rewrite (sdk_threads_run_exact sr w Hs Hsr Hl) in E1. injection E1 as <-.
  assert (forall s, slot s (wmem (after_batch w)) =
                    record_of (last_put s (concat (take (S n) fs)))) as V2.
  { intros s. rewrite V1, concat_take_S, last_put_app, Ha.
    destruct (last_put s (hd [] (drop n fs))); [reflexivity | apply Hv]. }
  destruct (after_iteration_inv args (trace w) sr fs (after_batch w) J1)
    as [J2 U2]; [congruence|].
  destruct J1 as (Hl1 & Hok1 & _). destruct J2 as (Hl2 & Hok2 & _ & Hs2 & _).
  unfold before_iteration. conj_split.
  - exact Hl2.
  - exact Hok2.
  - exact Hs2.
  - simpl. exact Hq.
  - cbn [after_iteration arrivals with_keys with_trace with_mem after_batch with_arrivals].
    rewrite Ha. apply tl_drop.
  - cbn [after_iteration keys with_keys with_trace with_mem after_batch with_arrivals].
    rewrite Hk. apply tl_drop.
  - intros s. rewrite (slot_untouched s _ _ Hok1 U2). apply V2.
  - unfold next_key. rewrite Hk. apply hd_drop.
  - cbn [after_iteration trace with_keys with_trace with_mem].
    rewrite T1. f_equal. unfold nth_iteration.
    rewrite (iteration_events_frames args _ (concat (take (S n) fs))) by assumption.
    f_equal. unfold next_key. rewrite K1, Hk. apply hd_drop.
Qed.

Lemma while_True_closed args sr fs ks (Hsr : both_registered sr) fuel :
  forall n w,
    before_iteration sr fs ks n w ->
    fst (while_True fuel args w) =
      (if quits fuel (drop n ks) then Returns tt else Running) /\
    before_iteration sr fs ks (n + iterations fuel (drop n ks))
      (snd (while_True fuel args w)) /\
    trace (snd (while_True fuel args w)) =
      (trace w ++
       concat (map (nth_iteration args fs ks)
                 (seq n (iterations fuel (drop n ks)))))%list.
Proof.
  induction fuel as [|fuel IH]; intros n w H.
  - simpl. rewrite Nat.add_0_r, app_nil_r. auto.
  - pose proof (before_iteration_loop_inv args sr fs ks n w H) as HJ.
    destruct (while_True_step args (trace w) sr fs Hsr fuel w HJ) as [-> _];
      [apply H|].
    destruct (before_iteration_step args sr fs ks n w Hsr H) as (H2 & Hk & Ht).
    cbn [quits iterations]. rewrite hd_drop, <- Hk, tl_drop.
    destruct (is_quit (next_key w)).
    + cbn [fst snd orb]. conj_split; [reflexivity | |].
      * replace (n + 1)%nat with (S n) by lia. exact H2.
      * rewrite Ht. simpl. rewrite app_nil_r. reflexivity.
    + destruct (IH (S n) _ H2) as (R & B & T). cbn [orb].
      conj_split; [exact R | |].
      * replace (n + S (iterations fuel (drop (S n) ks)))%nat
          with (S n + iterations fuel (drop (S n) ks))%nat by lia. exact B.
      * rewrite T, Ht, <- app_assoc. reflexivity.
Qed.

Lemma before_iteration_start args ks fs :
  before_iteration (receiver_of args) fs ks 0
    (after_setup args (world_init ks fs None)).
Proof.
  unfold before_iteration, after_setup. simpl. conj_split; auto.
  - split; apply clean_None.
  - intros []; reflexivity.
Qed.

(** An uninterrupted run of [main], in closed form. *)
Lemma main_closed cfg argv fuel ks fs :
  fst (main cfg argv fuel (world_init ks fs None)) =
    (if quits fuel ks then Returns tt else Running) /\
  trace (snd (main cfg argv fuel (world_init ks fs None))) =
    (setup_events (parse_args argv) ++
     concat (map (nth_iteration (parse_args argv) fs ks) (seq 0 (iterations fuel ks))) ++
     (if quits fuel ks then teardown_events else []))%list /\
  keys (snd (main cfg argv fuel (world_init ks fs None))) =
    drop (iterations fuel ks) ks /\
  arrivals (snd (main cfg argv fuel (world_init ks fs None))) =
    drop (iterations fuel ks) fs /\
  forall s,
    slot s (wmem (snd (main cfg argv fuel (world_init ks fs None)))) =
    record_of (last_put s (concat (take (iterations fuel ks) fs))).
Proof.
  rewrite main_unfold. set (args := parse_args argv).
  destruct (while_True_closed args (receiver_of args) fs ks
              (receiver_of_registered args) fuel 0 _
              (before_iteration_start args ks fs)) as (R & B & T).
  rewrite drop_0 in R, B, T. simpl in B.
  unfold try_except_finally.
  destruct (while_True fuel args (after_setup args (world_init ks fs None)))
    as [r w1]. cbn [fst snd] in R, B, T. subst r.
  destruct B as (_ & _ & _ & _ & Ha & Hk & Hv).
  destruct (quits fuel ks).
  - rewrite teardown_run. cbn [fst snd trace keys arrivals wmem with_trace].
    conj_split; [reflexivity | | exact Hk | exact Ha | exact Hv].
    rewrite T. cbn [trace after_setup with_server with_trace world_init app].
    rewrite <- !app_assoc. reflexivity.
  - cbn [fst snd]. conj_split; [reflexivity | | exact Hk | exact Ha | exact Hv].
    rewrite T. cbn [trace after_setup with_server with_trace world_init app].
    rewrite app_nil_r. reflexivity.
Qed.

(** X1.  A run of [main] without SIGINT, for every command line, key list
    and sequence of frame batches.  It returns if one of its polls reads the
    quit key and is still looping otherwise.  Its events are the setup, then
    iteration by iteration: the RGB window with the latest RGB frame of the
    batches delivered so far, its channels swapped and the label of that
    frame's timestamp drawn on it (nothing if no RGB frame has arrived); with
    [--show-slam] the SLAM window with the latest SLAM frame as delivered;
    the key poll; the sleep, or the quit line; and the teardown once the loop
    has been left.  The keys after the last poll stay unread, the batches
    after the last iteration undelivered, and each slot holds the last frame
    of its stream among the batches delivered. *)
Theorem uninterrupted_run cfg argv fuel ks fs :
  fst (main cfg argv fuel (world_init ks fs None)) =
    (if quits fuel ks then Returns tt else Running) /\
  trace (snd (main cfg argv fuel (world_init ks fs None))) =
    (setup_events (parse_args argv) ++
     concat (map (nth_iteration (parse_args argv) fs ks) (seq 0 (iterations fuel ks))) ++
     (if quits fuel ks then teardown_events else []))%list /\
  keys (snd (main cfg argv fuel (world_init ks fs None))) =
    drop (iterations fuel ks) ks /\
  arrivals (snd (main cfg argv fuel (world_init ks fs None))) =
    drop (iterations fuel ks) fs /\
  forall s,
    slot s (wmem (snd (main cfg argv fuel (world_init ks fs None)))) =
    record_of (last_put s (concat (take (iterations fuel ks) fs))).
Proof. apply main_closed. Qed.

(** ** The quit key *)

Lemma is_quit_mod k : is_quit k = true <-> k mod 256 = 113.
Proof.
  unfold is_quit. change 255 with (Z.ones 8). rewrite Z.land_ones by lia.
  change (ord "q"%char) with 113. change (2 ^ 8) with 256.
  apply Z.eqb_eq.
Qed.

Lemma not_quit_mod k : k mod 256 <> 113 -> is_quit k = false.
Proof.
  intros H. destruct (is_quit k) eqn:E; [|reflexivity].
  apply is_quit_mod in E. contradiction.
Qed.

Lemma iterations_quit pre q post : forall fuel,
  Forall (fun k => is_quit k = false) pre -> is_quit q = true ->
  (length pre < fuel)%nat ->
  iterations fuel (pre ++ q :: post) = S (length pre) /\
  quits fuel (pre ++ q :: post) = true.
Proof.
  induction pre as [|k pre IH]; intros [|fuel] Hpre Hq Hlt; simpl in Hlt; try lia.
  - simpl. rewrite Hq. auto.
  - inversion Hpre as [|? ? Hk Hpre']; subst.
    cbn [iterations quits app hd tl length]. rewrite Hk.
    destruct (IH fuel Hpre' Hq ltac:(lia)) as [-> ->]. auto.
Qed.

Lemma iterations_no_quit : forall fuel ks,
  Forall (fun k => is_quit k = false) (take fuel ks) ->
  iterations fuel ks = fuel /\ quits fuel ks = false.
Proof.
  induction fuel as [|fuel IH]; intros ks H; [auto|].
  destruct ks as [|k ks]; cbn [iterations quits hd tl].
  - change (is_quit (-1)) with false.
    assert (Forall (fun k => is_quit k = false) (take fuel (@nil Z))) as H0
      by (rewrite take_nil; constructor).
    destruct (IH [] H0) as [-> ->]. auto.
  - simpl in H. inversion H as [|? ? Hk H']; subst. rewrite Hk.
    destruct (IH ks H') as [-> ->]. auto.
Qed.

Lemma count_app p t t' : count p (t ++ t') = (count p t + count p t')%nat.
Proof. unfold count. rewrite List.filter_app, length_app. reflexivity. Qed.

Lemma count_iterations p (f : nat -> list event) c : forall l,
  (forall i, In i l -> count p (f i) = c) ->
  count p (concat (map f l)) = (length l * c)%nat.
Proof.
  induction l as [|i l IH]; intros H; [reflexivity|].
  cbn [map concat length]. rewrite count_app.
  rewrite (H i) by (left; reflexivity).
  rewrite IH by (intros j Hj; apply H; right; exact Hj).
  simpl. reflexivity.
Qed.

Ltac iteration_cases :=
  unfold nth_iteration, frame_events, key_events;
  repeat match goal with
         | |- context [match last_put ?s ?l with _ => _ end] =>
             destruct (last_put s l) as [[? ?]|]
         | |- context [if show_slam ?a then _ else _] => destruct (show_slam a)
         | |- context [if is_quit ?k then _ else _] => destruct (is_quit k)
         end.

Lemma count_poll_setup args : count is_poll (setup_events args) = 0%nat.
Proof. unfold setup_events. destruct (truthy (record_to_vrs args)); reflexivity. Qed.

Lemma count_sleep_setup args : count is_sleep (setup_events args) = 0%nat.
Proof. unfold setup_events. destruct (truthy (record_to_vrs args)); reflexivity. Qed.

Lemma count_poll_iteration args fs ks i : count is_poll (nth_iteration args fs ks i) = 1%nat.
Proof.
  iteration_cases; reflexivity.
Qed.

Lemma count_sleep_iteration args fs ks i :
  count is_sleep (nth_iteration args fs ks i) =
  if is_quit (nth i ks (-1)) then 0%nat else 1%nat.
Proof.
  iteration_cases; reflexivity.
Qed.

Lemma nth_take_Forall {A} (P : A -> Prop) d : forall n (l : list A) i,
  Forall P (take n l) -> P d -> (i < n)%nat -> P (nth i l d).
Proof.
  induction n as [|n IH]; intros l i H Hd Hi; [lia|].
  destruct l as [|x l]; [destruct i; exact Hd|].
  simpl in H. inversion H; subst. destruct i as [|i]; simpl; [assumption|].
  apply IH; auto. lia.
Qed.

Lemma no_teardown_in_iterations args fs ks l :
  ~ In EDestroyAllWindows (concat (map (nth_iteration args fs ks) l)).
Proof.
  rewrite in_concat. intros (es & Hes & Hin). apply in_map_iff in Hes.
  destruct Hes as (i & <- & _). revert Hin.
  iteration_cases; simpl; intuition discriminate.
Qed.

(** X2.  The loop is left by the quit key only.  A key quits when its low
    byte is that of [q], whatever its higher bits; no key (-1) and any other
    key do not.  With such a key after [pre], the run returns after
    [length pre + 1] polls, having slept once after each poll but the last,
    and leaves the following keys unread.  As long as no poll reads such a
    key, the run is still looping, however long it goes on: one poll and one
    sleep per iteration, and no [destroyAllWindows]. *)
Theorem loop_left_only_by_quit_key cfg argv fuel fs :
  (forall pre q post,
     Forall (fun k => k mod 256 <> 113) pre -> q mod 256 = 113 ->
     (length pre < fuel)%nat ->
     fst (main cfg argv fuel (world_init (pre ++ q :: post) fs None)) = Returns tt /\
     keys (snd (main cfg argv fuel (world_init (pre ++ q :: post) fs None))) = post /\
     count is_poll
       (trace (snd (main cfg argv fuel (world_init (pre ++ q :: post) fs None)))) =
       S (length pre) /\
     count is_sleep
       (trace (snd (main cfg argv fuel (world_init (pre ++ q :: post) fs None)))) =
       length pre) /\
  (forall ks,
     Forall (fun k => k mod 256 <> 113) (take fuel ks) ->
     fst (main cfg argv fuel (world_init ks fs None)) = Running /\
     count is_poll (trace (snd (main cfg argv fuel (world_init ks fs None)))) = fuel /\
     count is_sleep (trace (snd (main cfg argv fuel (world_init ks fs None)))) = fuel /\
     ~ In EDestroyAllWindows
          (trace (snd (main cfg argv fuel (world_init ks fs None))))).
Proof.
  split.
  - intros pre q post Hpre Hq Hlt.
    assert (Forall (fun k => is_quit k = false) pre) as Hpre'
      by (eapply Forall_impl; [exact Hpre | intros k; apply not_quit_mod]).
    apply is_quit_mod in Hq.
    destruct (iterations_quit pre q post fuel Hpre' Hq Hlt) as [Hi Hqs].
    destruct (main_closed cfg argv fuel (pre ++ q :: post) fs) as (R & T & K & _).
    rewrite Hi, Hqs in *. conj_split.
    + exact R.
    + rewrite K.
      replace (pre ++ q :: post)%list with ((pre ++ [q]) ++ post)%list
        by (rewrite <- app_assoc; reflexivity).
      apply drop_app_length'. rewrite length_app. simpl. lia.
    + rewrite T, !count_app, count_poll_setup.
      rewrite (count_iterations is_poll _ 1%nat)
        by (intros; apply count_poll_iteration).
      rewrite length_seq. change (count is_poll teardown_events) with 0%nat. lia.
    + rewrite T, !count_app, count_sleep_setup.
      rewrite seq_S, map_app, concat_app, count_app.
      rewrite (count_iterations is_sleep _ 1%nat).
      * rewrite length_seq. cbn [map concat Nat.add]. rewrite app_nil_r.
        rewrite count_sleep_iteration, nth_middle, Hq.
        change (count is_sleep teardown_events) with 0%nat. lia.
      * intros i Hi'. apply in_seq in Hi'. rewrite count_sleep_iteration.
        rewrite app_nth1 by lia.
        rewrite (proj1 (Forall_forall _ _) Hpre' (nth i pre (-1)));
          [reflexivity | apply list_elem_of_In, nth_In; lia].
  - intros ks Hks.
    assert (Forall (fun k => is_quit k = false) (take fuel ks)) as Hks'
      by (eapply Forall_impl; [exact Hks | intros k; apply not_quit_mod]).
    destruct (iterations_no_quit fuel ks Hks') as [Hi Hqs].
    destruct (main_closed cfg argv fuel ks fs) as (R & T & K & _).
    rewrite Hi, Hqs in *. conj_split.
    + exact R.
    + rewrite T, !count_app, count_poll_setup.
      rewrite (count_iterations is_poll _ 1%nat)
        by (intros; apply count_poll_iteration).
      rewrite length_seq. change (count is_poll []) with 0%nat. lia.
    + rewrite T, !count_app, count_sleep_setup.
      rewrite (count_iterations is_sleep _ 1%nat).
      * rewrite length_seq. change (count is_sleep []) with 0%nat. lia.
      * intros i Hi'. apply in_seq in Hi'. rewrite count_sleep_iteration.
        rewrite (nth_take_Forall (fun k => is_quit k = false) (-1) fuel ks i Hks');
          [reflexivity | reflexivity | lia].
    + rewrite T, app_nil_r, in_app_iff. intros [Hin|Hin].
      * unfold setup_events in Hin. destruct (truthy _); simpl in Hin;
          intuition discriminate.
      * apply (no_teardown_in_iterations _ _ _ _ Hin).
Qed.

(** ** SIGINT cuts a run short *)

Lemma calm_id w : sigint w = None -> calm w = w.
Proof. destruct w. simpl. intros ->. reflexivity. Qed.

Lemma calm_calm w : calm (calm w) = calm w.
Proof. reflexivity. Qed.

Lemma follows_calm_bind {A B} (m : M A) (k : A -> M B) :
  follows_calm m -> (forall a, follows_calm (k a)) -> follows_calm (bind m k).
Proof.
  intros Hm Hk w. destruct (Hm w) as [P1 H1]. unfold bind.
  destruct (m w) as [r w1] eqn:E. cbn [fst snd] in *.
  destruct r as [a|e| |].
  - rewrite H1. destruct (Hk a w1) as [P2 H2].
    split; [etrans; eassumption|].
    destruct (k a w1) as [r2 w2] eqn:E2. cbn [fst snd] in *.
    destruct r2 as [b|[]| |]; try exact H2.
    destruct H2 as [N2 H2]. split; [|exact H2].
    intros Hn. apply N2. rewrite (calm_id w Hn), E in H1.
    injection H1 as H1. rewrite H1. reflexivity.
  - split; [exact P1|]. destruct e; try (rewrite H1; reflexivity).
    destruct H1 as [N1 H1]. split; [exact N1|].
    etrans; [exact H1|].
    destruct (m (calm w)) as [r0 w0]. cbn [snd].
    destruct r0 as [a| | |]; try reflexivity.
    apply (Hk a w0).
  - rewrite H1. split; [exact P1 | reflexivity].
  - rewrite H1. split; [exact P1 | reflexivity].
Qed.

(** Statements that neither look at the countdown nor raise
    [KeyboardInterrupt]. *)
Lemma follows_calm_blind {A} (m : M A) :
  (forall w, m (calm w) = (fst (m w), calm (snd (m w)))) ->
  (forall w, fst (m w) <> Raises KeyboardInterrupt) ->
  (forall w, trace w `prefix_of` trace (snd (m w))) ->
  follows_calm m.
Proof.
  intros H1 H2 H3 w. split; [apply H3|].
  specialize (H1 w). specialize (H2 w).
  destruct (m w) as [[a|[]| |] w1]; cbn [fst snd] in *; congruence.
Qed.

Lemma follows_calm_ret {A} (a : A) : follows_calm (ret a).
Proof. apply follows_calm_blind; intros w; simpl; [reflexivity | discriminate | reflexivity]. Qed.

Lemma follows_calm_raise {A} e :
  e <> KeyboardInterrupt -> follows_calm (@raise A e).
Proof.
  intros He. apply follows_calm_blind; intros w; simpl;
    [reflexivity | congruence | reflexivity].
Qed.

Lemma follows_calm_get_mem : follows_calm get_mem.
Proof. apply follows_calm_blind; intros w; simpl; [reflexivity | discriminate | reflexivity]. Qed.

Lemma follows_calm_put_mem m : follows_calm (put_mem m).
Proof. apply follows_calm_blind; intros w; simpl; [reflexivity | discriminate | reflexivity]. Qed.

Lemma follows_calm_emit e : follows_calm (emit e).
Proof.
  apply follows_calm_blind; intros w; simpl;
    [reflexivity | discriminate | apply prefix_app_r; reflexivity].
Qed.

Lemma follows_calm_checkpoint : follows_calm checkpoint.
Proof.
  intros w. unfold checkpoint. destruct (sigint w) as [[|n]|] eqn:E; simpl.
  - split; [reflexivity|]. split; [discriminate | reflexivity].
  - split; [reflexivity|]. reflexivity.
  - split; [reflexivity|]. rewrite (calm_id w E). reflexivity.
Qed.

Lemma follows_calm_with_lock {A} (body : M A) :
  follows_calm body -> follows_calm (with_lock body).
Proof.
  intros Hb. unfold with_lock. apply follows_calm_bind.
  - apply follows_calm_blind; intros w; unfold acquire; simpl;
      destruct (_lock (wmem w)); simpl; first [reflexivity | discriminate].
  - intros _ w. destruct (Hb w) as [P H].
    destruct (body w) as [r w1] eqn:E. cbn [fst snd] in *.
    destruct r as [a|e| |]; cbn [fst snd release].
    + rewrite H. cbn [fst snd release trace with_mem]. split; [exact P | reflexivity].
    + cbn [trace with_mem]. split; [exact P|].
      destruct e; try (rewrite H; reflexivity).
      destruct H as [N H]. split; [exact N|].
      destruct (body (calm w)) as [[a|e| |] w0]; exact H.
    + rewrite H. split; [exact P | reflexivity].
    + rewrite H. split; [exact P | reflexivity].
Qed.

Lemma follows_calm_next_key :
  follows_calm (fun w => match keys w with
                         | [] => (Returns (-1), w)
                         | k :: ks => (Returns k, with_keys ks w)
                         end).
Proof.
  apply follows_calm_blind; intros w; simpl; destruct (keys w); simpl;
    first [reflexivity | discriminate].
Qed.

Ltac calm_run :=
  repeat first
    [ apply follows_calm_checkpoint | apply follows_calm_ret
    | apply follows_calm_get_mem | apply follows_calm_put_mem
    | apply follows_calm_emit | apply follows_calm_next_key
    | apply follows_calm_raise; discriminate
    | apply follows_calm_with_lock
    | apply follows_calm_bind; [|intros ?]
    | match goal with
      | |- follows_calm (if ?b then _ else _) => destruct b
      | |- follows_calm (match ?x with _ => _ end) => destruct x
      end ].

Lemma follows_calm_take_snapshot : follows_calm take_snapshot.
Proof.
  unfold take_snapshot, ndarray_copy, new_array. calm_run.
Qed.

Lemma follows_calm_present args snap : follows_calm (present args snap).
Proof.
  destruct snap as [[[rgb slam] rgb_ts] slam_ts].
  unfold present, render_rgb, render_slam, poll_quit, cvtColor, putText, imshow,
    waitKey, print, sleep_us, new_array.
  calm_run.
Qed.

Lemma follows_calm_loop_body args : follows_calm (loop_body args).
Proof.
  unfold loop_body. apply follows_calm_bind.
  - apply follows_calm_take_snapshot.
  - intros snap. apply follows_calm_present.
Qed.

Lemma follows_calm_call cb d r : follows_calm (call cb d r).
Proof.
  destruct cb; unfold call, rgb_callback, slam_callback, to_numpy_array, new_array,
    set_image, set_ts; calm_run.
Qed.

Lemma follows_calm_deliver f : follows_calm (deliver f).
Proof.
  destruct f as [[s d] r]. intros w. unfold deliver.
  change (server (calm w)) with (server w).
  destruct (server w) as [sr|]; [|split; reflexivity].
  destruct s.
  - destruct (on_rgb sr) as [cb|]; [apply follows_calm_call | split; reflexivity].
  - destruct (on_slam sr) as [cb|]; [apply follows_calm_call | split; reflexivity].
Qed.

Lemma follows_calm_deliver_all fs : follows_calm (deliver_all fs).
Proof.
  induction fs as [|f fs IH]; simpl.
  - apply follows_calm_ret.
  - apply follows_calm_bind; [apply follows_calm_deliver | intros _; exact IH].
Qed.

Lemma follows_calm_sdk_threads_run : follows_calm sdk_threads_run.
Proof.
  intros w. unfold sdk_threads_run.
  change (arrivals (calm w)) with (arrivals w).
  destruct (arrivals w) as [|fs later]; [split; reflexivity|].
  apply (follows_calm_deliver_all fs (with_arrivals later w)).
Qed.

Lemma follows_calm_while_True args fuel : follows_calm (while_True fuel args).
Proof.
  induction fuel as [|fuel IH]; cbn [while_True].
  - intros w. split; reflexivity.
  - apply follows_calm_bind; [apply follows_calm_sdk_threads_run|].
    intros _. apply follows_calm_bind; [apply follows_calm_loop_body|].
    intros [|]; [apply follows_calm_ret | exact IH].
Qed.

Lemma with_sigint_calm w : with_sigint (sigint w) (calm w) = w.
Proof. destruct w; reflexivity. Qed.

Lemma interrupt_line_not_teardown x :
  In x teardown_events -> x <> EDestroyAllWindows -> x = EPrint "[Receiver] Done.".
Proof. simpl. intros [<-|[<-|[]]] H; congruence. Qed.

Lemma loop_trace_no_teardown args t :
  trace_ok (shown_ok args) (setup_events args) t -> ~ In EDestroyAllWindows t.
Proof.
  intros (es & -> & Hes). rewrite in_app_iff. intros [Hin|Hin].
  - unfold setup_events in Hin. destruct (truthy (record_to_vrs args));
      simpl in Hin; intuition discriminate.
  - rewrite Forall_forall in Hes. apply (Hes _ (proj2 (list_elem_of_In _ _) Hin)).
Qed.

(** X3.  SIGINT only cuts a run short.  A run with a pending SIGINT either
    ends exactly as the run without it (the signal did not arrive in time),
    or it returns, and its events are a prefix of the undisturbed run's
    events, with no [destroyAllWindows] among them, followed by the
    [KeyboardInterrupt] line and the teardown. *)
Theorem interrupt_only_truncates cfg argv fuel ks fs k :
  (exists n,
     main cfg argv fuel (world_init ks fs (Some k)) =
     (fst (main cfg argv fuel (world_init ks fs None)),
      with_sigint n (snd (main cfg argv fuel (world_init ks fs None))))) \/
  (fst (main cfg argv fuel (world_init ks fs (Some k))) = Returns tt /\
   exists p,
     p `prefix_of` trace (snd (main cfg argv fuel (world_init ks fs None))) /\
     ~ In EDestroyAllWindows p /\
     trace (snd (main cfg argv fuel (world_init ks fs (Some k)))) =
       (p ++ EPrint (NL +:+ "[Receiver] KeyboardInterrupt, exiting...")
          :: teardown_events)%list).
Proof.
  rewrite !main_unfold. set (args := parse_args argv).
  pose proof (while_True_inv args (setup_events args) (receiver_of args) fs
                (receiver_of_registered args) fuel _
                (loop_inv_start args ks fs (Some k))) as HI.
  unfold wp in HI. revert HI.
  change (after_setup args (world_init ks fs None))
    with (calm (after_setup args (world_init ks fs (Some k)))).
  set (w := after_setup args (world_init ks fs (Some k))).
  destruct (follows_calm_while_True args fuel w) as [P H].
  unfold try_except_finally.
  destruct (while_True fuel args w) as [r w1]. cbn [fst snd] in P, H |- *.
  destruct r as [[]|[]| |]; cbn [outcome]; intros HI; try contradiction.
  - left. exists (sigint w1). rewrite H, !teardown_run. reflexivity.
  - right. destruct H as [_ H].
    unfold handler, print, emit. rewrite teardown_run.
    cbn [fst snd trace with_trace].
    split; [reflexivity|]. exists (trace w1). conj_split.
    + etrans; [exact H|].
      destruct (while_True fuel args (calm w)) as [[[]|[]| |] w0];
        rewrite ?teardown_run; cbn [fst snd trace with_trace];
        try reflexivity; try (apply prefix_app_r; reflexivity).
      all: unfold handler, print, emit; rewrite ?teardown_run;
        cbn [fst snd trace with_trace]; rewrite <- ?app_assoc;
        apply prefix_app_r; reflexivity.
    + apply (loop_trace_no_teardown args). apply HI.
    + rewrite <- app_assoc. reflexivity.
  - left. exists (sigint w1). rewrite H. cbn [fst snd].
    rewrite with_sigint_calm. reflexivity.
Qed.

(** ** The lock in every interleaving *)

(** *** Mutual exclusion *)

Lemma count_cs_two l : forall i j pci pcj,
  i <> j -> l !! i = Some pci -> l !! j = Some pcj ->
  in_cs pci = true -> in_cs pcj = true -> (2 <= count_cs l)%nat.
Proof.
  induction l as [|x l IH]; intros [|i] [|j] pci pcj Hne Hi Hj Ei Ej;
    simpl in Hi, Hj; try discriminate; try congruence.
  - injection Hi as ->. pose proof (count_cs_lookup l j pcj Hj Ej) as C.
    unfold count_cs in *. simpl. rewrite Ei. simpl. lia.
  - injection Hj as ->. pose proof (count_cs_lookup l i pci Hi Ei) as C.
    unfold count_cs in *. simpl. rewrite Ej. simpl. lia.
  - assert (i <> j) as Hne' by congruence.
    specialize (IH i j pci pcj Hne' Hi Hj Ei Ej).
    unfold count_cs in *. simpl. destruct (in_cs x); simpl; lia.
Qed.

Lemma count_cs_pos l :
  (0 < count_cs l)%nat -> exists i pc, l !! i = Some pc /\ in_cs pc = true.
Proof.
  induction l as [|x l IH]; unfold count_cs; simpl; [lia|].
  destruct (in_cs x) eqn:Ex; simpl; intros H.
  - exists O, x. auto.
  - destruct (IH H) as (i & pc & Hi & Ei). exists (S i), pc. auto.
Qed.

(** X5.  Mutual exclusion, in every interleaving of callback invocations,
    callback statements and main-thread statements: no two callback threads
    are inside [with _lock:] at once, none is while the main thread is inside
    the snapshot block, and the lock is held exactly when some thread is
    inside. *)
Theorem lock_mutual_exclusion sched c :
  run sched config_init = Some c ->
  (forall i j pci pcj,
     producers c !! i = Some pci -> producers c !! j = Some pcj ->
     in_cs pci = true -> in_cs pcj = true -> i = j) /\
  (sn_in_cs (display c) = true ->
   forall i pc, producers c !! i = Some pc -> in_cs pc = false) /\
  (_lock (cmem c) = true <->
   sn_in_cs (display c) = true \/
   exists i pc, producers c !! i = Some pc /\ in_cs pc = true).
Proof.
  intros E. pose proof (run_inv sched _ _ config_inv_init E) as HI.
  pose proof (inv_lock c HI) as L. unfold holders in L. conj_split.
  - intros i j pci pcj Hi Hj Ei Ej. destruct (decide (i = j)) as [|Hne]; [assumption|].
    pose proof (count_cs_two _ i j pci pcj Hne Hi Hj Ei Ej).
    destruct (_lock (cmem c)), (sn_in_cs (display c)); lia.
  - intros Ed i pc Hi. destruct (in_cs pc) eqn:Ei; [|reflexivity].
    pose proof (count_cs_lookup _ i pc Hi Ei). rewrite Ed in L.
    destruct (_lock (cmem c)); lia.
  - split.
    + intros Hl. rewrite Hl in L.
      destruct (sn_in_cs (display c)); [left; reflexivity|]. right.
      apply count_cs_pos. lia.
    + intros [Ed|(i & pc & Hi & Ei)].
      * apply (display_holds c HI Ed).
      * apply (producer_holds c i pc HI Hi Ei).
Qed.

(** *** Progress *)

Lemma work_insert l : forall i pc pc',
  l !! i = Some pc ->
  (list_sum (map cb_left (<[i := pc']> l)) + cb_left pc =
   list_sum (map cb_left l) + cb_left pc')%nat.
Proof.
  induction l as [|x l IH]; intros [|i] pc pc' H; simpl in H; try discriminate.
  - injection H as ->. simpl. lia.
  - specialize (IH i pc pc' H). simpl. lia.
Qed.

Lemma work_pos l :
  (0 < list_sum (map cb_left l))%nat ->
  exists i pc, l !! i = Some pc /\ (0 < cb_left pc)%nat.
Proof.
  induction l as [|x l IH]; simpl; [lia|]. intros H.
  destruct (cb_left x) eqn:Ex.
  - destruct (IH H) as (i & pc & Hi & Hpc). exists (S i), pc. auto.
  - exists O, x. split; [reflexivity | lia].
Qed.

Lemma work_zero l :
  list_sum (map cb_left l) = 0%nat -> Forall (fun pc => pc = CbDone) l.
Proof.
  induction l as [|x l IH]; simpl; intros H; constructor.
  - destruct x; simpl in H; try lia. reflexivity.
  - apply IH. lia.
Qed.

(** A thread inside the lock can always take its next step, and a thread
    outside can unless it waits for a lock that is held. *)
Lemma producer_step c i pc pc' m' :
  producers c !! i = Some pc -> cb_step pc (cmem c) = Some (pc', m') ->
  S (cb_left pc') = cb_left pc ->
  exists c', do_action (Producer i) c = Some c' /\
             S (work_left c') = work_left c /\ invoked c' = invoked c.
Proof.
  intros Hi Hs Hl. unfold do_action. rewrite Hi, Hs. eexists. split; [reflexivity|].
  unfold work_left. cbn [producers display invoked].
  pose proof (work_insert (producers c) i pc pc' Hi). split; [lia | reflexivity].
Qed.

Lemma step_exists c :
  config_inv c -> (0 < work_left c)%nat ->
  exists a c', is_step a = true /\ do_action a c = Some c' /\
               S (work_left c') = work_left c /\ invoked c' = invoked c.
Proof.
  intros HI Hw. pose proof (inv_lock c HI) as L. unfold holders in L.
  destruct (sn_in_cs (display c)) eqn:Ed.
  - exists Display. unfold do_action, work_left.
    destruct (display c) eqn:E; try discriminate Ed; cbn [sn_step];
      eexists; (split; [reflexivity|]); (split; [reflexivity|]);
      cbn [producers display invoked sn_left]; split; (lia || reflexivity).
  - assert (sn_left (display c) = 0%nat) as Hs
      by (destruct (display c); try discriminate Ed; reflexivity).
    unfold work_left in Hw. rewrite Hs in Hw.
    destruct (_lock (cmem c)) eqn:Hl.
    + destruct (count_cs_pos (producers c) ltac:(lia)) as (i & pc & Hi & Ei).
      exists (Producer i).
      destruct pc; try discriminate Ei;
        (edestruct (producer_step c i) as (c' & H1 & H2 & H3);
         [exact Hi | reflexivity | reflexivity |]);
        exists c'; auto.
    + assert (count_cs (producers c) = 0%nat) as C by lia.
      apply count_cs_zero in C. rewrite Forall_forall in C.
      destruct (work_pos (producers c) ltac:(lia)) as (i & pc & Hi & Hpc).
      pose proof (C pc (proj2 (list_elem_of_lookup _ _) (ex_intro _ i Hi))) as Ei.
      exists (Producer i).
      destruct pc; try discriminate Ei; simpl in Hpc; try lia.
      * edestruct (producer_step c i) as (c' & H1 & H2 & H3);
          [exact Hi | reflexivity | reflexivity |]. exists c'; auto.
      * edestruct (producer_step c i) as (c' & H1 & H2 & H3);
          [exact Hi | cbn [cb_step]; rewrite Hl; reflexivity | reflexivity |].
        exists c'; auto.
Qed.

Lemma run_app s1 : forall s2 c c1,
  run s1 c = Some c1 -> run (s1 ++ s2) c = run s2 c1.
Proof.
  induction s1 as [|a s1 IH]; intros s2 c c1 H; simpl in *.
  - injection H as <-. reflexivity.
  - destruct (do_action a c) as [c0|]; [|discriminate]. apply IH. exact H.
Qed.

Lemma run_to_rest : forall n c,
  config_inv c -> work_left c = n ->
  exists more c',
    run more c = Some c' /\ Forall (fun a => is_step a = true) more /\
    length more = n /\ work_left c' = 0%nat /\ invoked c' = invoked c.
Proof.
  induction n as [|n IH]; intros c HI Hn.
  - exists [], c. conj_split; auto.
  - destruct (step_exists c HI ltac:(lia)) as (a & c1 & Ha & E1 & W1 & I1).
    destruct (IH c1 (do_action_inv a c c1 HI E1) ltac:(lia))
      as (more & c' & E & Hs & Hl & W & I').
    exists (a :: more), c'. conj_split; auto.
    + simpl. rewrite E1. exact E.
    + simpl. lia.
    + congruence.
Qed.

Lemma threads_of_invocations sched : forall c c',
  run sched c = Some c' -> length (producers c) = length (invoked c) ->
  length (producers c') = length (invoked c').
Proof.
  induction sched as [|a sched IH]; intros c c' E H; simpl in E.
  - injection E as <-. exact H.
  - destruct (do_action a c) as [c1|] eqn:Ea; [|discriminate].
    apply (IH c1 c' E). clear IH E. destruct a as [[[s d] r]|i|]; simpl in Ea.
    + injection Ea as <-. simpl. rewrite !length_app. simpl. lia.
    + destruct (producers c !! i) as [pc|]; [|discriminate].
      destruct (cb_step pc (cmem c)) as [[pc' m']|]; [|discriminate].
      injection Ea as <-. simpl. rewrite length_insert. exact H.
    + destruct (sn_step (display c) (cmem c)) as [[pc' m']|]; [|discriminate].
      injection Ea as <-. simpl. exact H.
Qed.

Lemma coherent_slot s calls m :
  coherent s calls m -> from_one_put s (slot s m) calls.
Proof.
  intros [[H1 H2]|(l & r & H1 & H2 & [Hl (d & Hin & Hd)])]; unfold slot;
    rewrite H1, H2; simpl.
  - left. reflexivity.
  - right. exists d, r. split; [exact Hin|]. rewrite Hd. reflexivity.
Qed.

(** X6.  No deadlock: from every state an interleaving can reach, the
    threads can run on, with no further invocation, for exactly as many
    statements as they have left, after which every invoked callback has
    finished, the lock is free, and each slot holds nothing or the image and
    the timestamp of one invocation of its stream. *)
Theorem callbacks_can_complete sched c :
  run sched config_init = Some c ->
  exists more c',
    run more c = Some c' /\
    Forall (fun a => is_step a = true) more /\ length more = work_left c /\
    invoked c' = invoked c /\ length (producers c') = length (invoked c) /\
    Forall (fun pc => pc = CbDone) (producers c') /\
    _lock (cmem c') = false /\
    forall s, from_one_put s (slot s (cmem c')) (invoked c).
Proof.
  intros E. pose proof (run_inv sched _ _ config_inv_init E) as HI.
  destruct (run_to_rest (work_left c) c HI eq_refl) as (more & c' & E' & Hs & Hl & W & I').
  exists more, c'.
  assert (run (sched ++ more) config_init = Some c') as E2
    by (rewrite (run_app sched more _ c E); exact E').
  pose proof (run_inv _ _ _ config_inv_init E2) as HI'.
  unfold work_left in W.
  assert (Forall (fun pc => pc = CbDone) (producers c')) as Hd
    by (apply work_zero; lia).
  conj_split; auto.
  - rewrite <- I'. apply (threads_of_invocations _ _ _ E2). reflexivity.
  - pose proof (inv_lock c' HI') as L. unfold holders in L.
    assert (sn_in_cs (display c') = false) as Ed
      by (destruct (display c'); simpl in W; try lia; reflexivity).
    rewrite Ed in L. destruct (_lock (cmem c')); [|reflexivity].
    destruct (count_cs_pos (producers c') ltac:(lia)) as (i & pc & Hi & Ei).
    rewrite Forall_forall in Hd.
    rewrite (Hd pc (proj2 (list_elem_of_lookup _ _) (ex_intro _ i Hi))) in Ei.
    discriminate.
  - intros s. rewrite <- I'. apply coherent_slot. apply (inv_slots c' HI').
    intros (r & Hin). rewrite Forall_forall in Hd.
    specialize (Hd _ (proj2 (list_elem_of_In _ _) Hin)). discriminate.
Qed.

(** *** Arrays are only added *)

Lemma copy_or_None_heap x m : heap m `prefix_of` heap (snd (copy_or_None x m)).
Proof. destruct x; simpl; [apply prefix_app_r|]; reflexivity. Qed.

Lemma cb_step_heap pc m pc' m' :
  cb_step pc m = Some (pc', m') -> heap m `prefix_of` heap m'.
Proof.
  destruct pc; simpl; try destruct (_lock m); intros H; try discriminate;
    injection H as <- <-; simpl;
    first [ reflexivity | apply prefix_app_r; reflexivity | destruct s; reflexivity ].
Qed.

Lemma sn_step_heap pc m pc' m' :
  sn_step pc m = Some (pc', m') -> heap m `prefix_of` heap m'.
Proof.
  destruct pc; simpl; try destruct (_lock m); intros H; try discriminate;
    injection H as <- <-; simpl; try reflexivity; apply copy_or_None_heap.
Qed.

Lemma run_heap sched : forall c c',
  run sched c = Some c' -> heap (cmem c) `prefix_of` heap (cmem c').
Proof.
  induction sched as [|a sched IH]; intros c c' E; simpl in E.
  - injection E as <-. reflexivity.
  - destruct (do_action a c) as [c1|] eqn:Ea; [|discriminate].
    etrans; [|apply (IH c1 c' E)]. clear IH E.
    destruct a as [[[s d] r]|i|]; simpl in Ea.
    + injection Ea as <-. reflexivity.
    + destruct (producers c !! i) as [pc|]; [|discriminate].
      destruct (cb_step pc (cmem c)) as [[pc' m']|] eqn:Es; [|discriminate].
      injection Ea as <-. simpl. eapply cb_step_heap; eauto.
    + destruct (sn_step (display c) (cmem c)) as [[pc' m']|] eqn:Es; [|discriminate].
      injection Ea as <-. simpl. eapply sn_step_heap; eauto.
Qed.

Lemma deref_prefix m m' l :
  heap m `prefix_of` heap m' -> (l < length (heap m))%nat -> deref m' l = deref m l.
Proof.
  intros [ext E] Hl. unfold deref. rewrite E. apply app_nth1. exact Hl.
Qed.

(** X7.  In every interleaving, from any state, the statements of the
    callbacks and of the snapshot block only add arrays: an array that
    exists is never written, so what a snapshot refers to stays as it was
    whatever the callbacks do afterwards. *)
Theorem arrays_only_added sched c c' :
  run sched c = Some c' ->
  heap (cmem c) `prefix_of` heap (cmem c') /\
  (forall l, (l < length (heap (cmem c)))%nat -> deref (cmem c') l = deref (cmem c) l) /\
  (forall rgb slam rgb_ts slam_ts,
     (forall l, rgb = Some l \/ slam = Some l -> (l < length (heap (cmem c)))%nat) ->
     view_of (cmem c') (rgb, slam, rgb_ts, slam_ts) =
     view_of (cmem c) (rgb, slam, rgb_ts, slam_ts)).
Proof.
  intros E. pose proof (run_heap sched c c' E) as P. conj_split.
  - exact P.
  - intros l Hl. apply deref_prefix; assumption.
  - intros rgb slam rgb_ts slam_ts Hv. unfold view_of, seen.
    destruct rgb as [lr|], slam as [ls|]; simpl;
      rewrite ?(deref_prefix _ _ _ P (Hv _ (or_introl eq_refl))),
              ?(deref_prefix _ _ _ P (Hv _ (or_intror eq_refl))); reflexivity.
Qed.

(** ** A snapshot is the cache at one moment *)

Lemma copy_of_value m v stored :
  copy_of m v stored -> deref m <$> v = deref m <$> stored.
Proof.
  destruct stored as [l|]; simpl.
  - intros (l' & -> & _ & _ & E). simpl. rewrite E. reflexivity.
  - intros ->. reflexivity.
Qed.

Lemma view_at_exit c snap :
  config_inv c -> display c = SnExit snap ->
  view_of (cmem c) snap = cache_view (cmem c).
Proof.
  intros HI E. pose proof (inv_display c HI) as D. rewrite E in D.
  destruct snap as [[[rgb slam] rgb_ts] slam_ts]. simpl in D.
  destruct D as (Hr & Hs & -> & ->).
  unfold view_of, cache_view, seen, slot. cbn [latest_image latest_ts].
  rewrite (copy_of_value _ _ _ Hr), (copy_of_value _ _ _ Hs). reflexivity.
Qed.

Lemma do_action_observed a c c' :
  do_action a c = Some c' ->
  observed c' = observed c \/
  exists snap, display c = SnExit snap /\
               observed c' = (observed c ++ [view_of (cmem c) snap])%list.
Proof.
  destruct a as [[[s d] r]|i|]; simpl.
  - intros H. injection H as <-. left. reflexivity.
  - destruct (producers c !! i) as [pc|]; [|discriminate].
    destruct (cb_step pc (cmem c)) as [[pc' m']|]; [|discriminate].
    intros H. injection H as <-. left. reflexivity.
  - destruct (sn_step (display c) (cmem c)) as [[pc' m']|]; [|discriminate].
    intros H. injection H as <-. simpl.
    destruct (display c); eauto.
Qed.

Lemma run_observed sched : forall c0 c,
  config_inv c0 -> run sched c0 = Some c ->
  exists new,
    observed c = (observed c0 ++ new)%list /\ Forall (cache_at_exit sched c0) new.
Proof.
  induction sched as [|a rest IH]; intros c0 c HI E; simpl in E.
  - injection E as <-. exists []. rewrite app_nil_r. auto.
  - destruct (do_action a c0) as [c1|] eqn:Ea; [|discriminate].
    destruct (IH c1 c (do_action_inv a c0 c1 HI Ea) E) as (new & Hn & Hall).
    assert (Forall (cache_at_exit (a :: rest) c0) new) as Hall'.
    { eapply Forall_impl; [exact Hall|]. intros v (n & c2 & snap & R & D & V).
      exists (S n), c2, snap. simpl. rewrite Ea. auto. }
    destruct (do_action_observed a c0 c1 Ea) as [Ho|(snap & D & Ho)].
    + exists new. rewrite Hn, Ho. auto.
    + exists (view_of (cmem c0) snap :: new). rewrite Hn, Ho, <- app_assoc.
      split; [reflexivity|]. constructor; [|exact Hall'].
      exists O, c0, snap. rewrite take_0. conj_split; auto.
      symmetry. apply view_at_exit; assumption.
Qed.

(** X9.  In every interleaving, each snapshot the main thread has taken is
    the cache as it stood at one moment of the run: at the moment the main
    thread left the snapshot block, still holding the lock, both slots held
    by value exactly what the snapshot returned, for both streams at once. *)
Theorem snapshot_is_one_cache_state sched c :
  run sched config_init = Some c ->
  Forall (fun v =>
            exists n c1 snap,
              run (take n sched) config_init = Some c1 /\
              display c1 = SnExit snap /\ _lock (cmem c1) = true /\
              v = (slot RGB (cmem c1), slot SLAM (cmem c1)))
         (observed c).
Proof.
  intros E. destruct (run_observed sched _ _ config_inv_init E) as (new & Hn & Hall).
  simpl in Hn. rewrite Hn. eapply Forall_impl; [exact Hall|].
  intros v (n & c1 & snap & R & D & V). exists n, c1, snap. conj_split; auto.
  apply (display_holds c1 (run_inv _ _ _ config_inv_init R)).
  rewrite D. reflexivity.
Qed.

Lemma snapshot_is_one_cache_state_witness :
  exists c,
    run sample_schedule config_init = Some c /\
    Forall (fun v =>
              exists n c1 snap,
                run (take n sample_schedule) config_init = Some c1 /\
                display c1 = SnExit snap /\ _lock (cmem c1) = true /\
                v = (slot RGB (cmem c1), slot SLAM (cmem c1)))
           (observed c) /\
    observed c <> [].
Proof.
  destruct (run sample_schedule config_init) as [c|] eqn:E;
    [|vm_compute in E; discriminate E].
  exists c. split; [reflexivity|]. split.
  - apply (snapshot_is_one_cache_state sample_schedule c E).
  - vm_compute in E. injection E as <-. discriminate.
Defined.

(** ** The SDK calls and the lock of the main thread *)




(** X4.  The lock is never left held.  From a state with the lock free, the
    snapshot block returns or is cut short by [KeyboardInterrupt], also
    inside [with _lock:], and the lock is free afterwards; a callback returns
    with the lock free; and the lock is free in the final state of every run
    of [main]. *)
Theorem lock_released_on_every_path :
  (forall w,
     _lock (wmem w) = false ->
     _lock (wmem (snd (take_snapshot w))) = false /\
     ((exists snap, fst (take_snapshot w) = Returns snap) \/
      fst (take_snapshot w) = Raises KeyboardInterrupt)) /\
  (forall f w,
     _lock (wmem w) = false ->
     fst (put f w) = Returns tt /\ _lock (wmem (snd (put f w))) = false) /\
  (forall cfg argv fuel ks fs int,
     _lock (wmem (snd (main cfg argv fuel (world_init ks fs int)))) = false).
Proof.
  conj_split.
  - intros w Hl. pose proof (take_snapshot_kept any_event w Hl) as H.
    pose proof (take_snapshot_paced w) as HP.
    unfold wp in H, HP. destruct (take_snapshot w) as [[snap|[]| |] w'];
      cbn [fst snd outcome paced] in *; try contradiction.
    + destruct H as [(L & _) _]. split; [congruence | eauto].
    + destruct H as (L & _). split; [congruence | auto].
  - intros [[s d] r] w Hl. rewrite put_run by exact Hl. simpl.
    split; [reflexivity | reflexivity].
  - intros cfg argv fuel ks fs int.
    destruct (main_spec cfg argv fuel ks fs int) as (w1 & (L & _) & [[_ ->]|[_ ->]]);
      exact L.
Qed.

Lemma lock_released_on_every_path_witness :
  fst (take_snapshot (world_init [] [] (Some 1%nat))) = Raises KeyboardInterrupt /\
  _lock (wmem (snd (take_snapshot (world_init [] [] (Some 1%nat))))) = false.
Proof.
  split; [reflexivity|].
  apply (proj1 lock_released_on_every_path (world_init [] [] (Some 1%nat))).
  reflexivity.
Defined.

(** ** Instances *)

Lemma loop_left_only_by_quit_key_witness :
  fst (main sample_config no_flags 3 (world_init ([-1; 81] ++ 1048689 :: [7]) [] None)) =
    Returns tt /\
  keys (snd (main sample_config no_flags 3
               (world_init ([-1; 81] ++ 1048689 :: [7]) [] None))) = [7] /\
  count is_poll
    (trace (snd (main sample_config no_flags 3
                   (world_init ([-1; 81] ++ 1048689 :: [7]) [] None)))) = 3%nat /\
  count is_sleep
    (trace (snd (main sample_config no_flags 3
                   (world_init ([-1; 81] ++ 1048689 :: [7]) [] None)))) = 2%nat.
Proof.
  apply (proj1 (loop_left_only_by_quit_key sample_config no_flags 3 [])
           [-1; 81] 1048689 [7]).
  - repeat constructor; intros H; discriminate H.
  - reflexivity.
  - simpl. lia.
Defined.

Lemma lock_mutual_exclusion_witness :
  exists c,
    run sample_schedule_start config_init = Some c /\
    _lock (cmem c) = true /\ display c = SnHold /\
    forall i pc, producers c !! i = Some pc -> in_cs pc = false.
Proof.
  destruct (run sample_schedule_start config_init) as [c|] eqn:E;
    [|vm_compute in E; discriminate E].
  exists c. split; [reflexivity|].
  pose proof (lock_mutual_exclusion sample_schedule_start c E) as (_ & H & _).
  vm_compute in E. injection E as <-.
  split; [reflexivity|]. split; [reflexivity|]. apply H. reflexivity.
Defined.

Lemma callbacks_can_complete_witness :
  exists c more c',
    run sample_schedule_start config_init = Some c /\
    run more c = Some c' /\ length more = 9%nat /\
    Forall (fun pc => pc = CbDone) (producers c') /\ _lock (cmem c') = false.
Proof.
  destruct (run sample_schedule_start config_init) as [c|] eqn:E;
    [|vm_compute in E; discriminate E].
  destruct (callbacks_can_complete sample_schedule_start c E)
    as (more & c' & H1 & _ & H2 & _ & _ & H3 & H4 & _).
  exists c, more, c'. conj_split; auto.
  rewrite H2. vm_compute in E. injection E as <-. reflexivity.
Defined.

Lemma arrays_only_added_witness :
  exists c c',
    run sample_schedule_start config_init = Some c /\
    run (drop 9 sample_schedule) c = Some c' /\
    (length (heap (cmem c)) < length (heap (cmem c')))%nat /\
    deref (cmem c') 0%nat = array_of sample_rgb.
Proof.
  destruct (run sample_schedule_start config_init) as [c|] eqn:E;
    [|vm_compute in E; discriminate E].
  destruct (run (drop 9 sample_schedule) c) as [c'|] eqn:E';
    [|vm_compute in E; injection E as <-; vm_compute in E'; discriminate E'].
  exists c, c'. split; [reflexivity|]. split; [exact E'|].
  destruct (arrays_only_added (drop 9 sample_schedule) c c' E') as (_ & H & _).
  vm_compute in E. injection E as <-. split.
  - vm_compute in E'. injection E' as <-. simpl. lia.
  - rewrite H by (simpl; lia). reflexivity.
Defined.

(** ** The images a run shows *)

Lemma last_put_Some_In s d r fs : last_put s fs = Some (d, r) -> In (s, d, r) fs.
Proof.
  induction fs as [|[[s' d'] r'] fs IH]; simpl; [discriminate|].
  destruct (last_put s fs) as [x|].
  - intros H. right. apply IH. exact H.
  - destruct (decide (s' = s)) as [->|]; [|discriminate].
    intros H. injection H as -> ->. left. reflexivity.
Qed.

Lemma In_concat_take {A} n (ls : list (list A)) x :
  In x (concat (take n ls)) -> In x (concat ls).
Proof.
  intros H. rewrite <- (take_drop n ls), concat_app, in_app_iff. left. exact H.
Qed.

(** What an iteration of an uninterrupted run shows comes from a frame that
    was delivered. *)
Lemma nth_iteration_window args fs ks i name img :
  In (EImshow name img) (nth_iteration args fs ks i) ->
  (name = RGB_WINDOW /\
   exists d r, In (RGB, d, r) (concat fs) /\ img = rgb_view d r) \/
  (name = SLAM_WINDOW /\ show_slam args = true /\
   exists d r, In (SLAM, d, r) (concat fs) /\ img = array_of d).
Proof.
  unfold nth_iteration, frame_events, key_events. rewrite !in_app_iff.
  intros [H|[H|H]].
  - left. destruct (last_put RGB _) as [[d r]|] eqn:E; [|destruct H].
    destruct H as [H|[]]. injection H as <- <-. split; [reflexivity|].
    exists d, r. split; [|reflexivity].
    eapply In_concat_take, last_put_Some_In, E.
  - right. destruct (show_slam args); [|destruct H].
    destruct (last_put SLAM _) as [[d r]|] eqn:E; [|destruct H].
    destruct H as [H|[]]. injection H as <- <-. conj_split; auto.
    exists d, r. split; [|reflexivity].
    eapply In_concat_take, last_put_Some_In, E.
  - destruct (is_quit _); simpl in H; intuition discriminate.
Qed.

(** A window that a run with a pending SIGINT shows is one that the run
    without it shows. *)
Lemma main_window_calm cfg argv fuel ks fs int name img :
  In (EImshow name img) (trace (snd (main cfg argv fuel (world_init ks fs int)))) ->
  In (EImshow name img) (trace (snd (main cfg argv fuel (world_init ks fs None)))).
Proof.
  destruct int as [k|]; [|auto].
  rewrite !main_unfold. set (args := parse_args argv).
  change (after_setup args (world_init ks fs None))
    with (calm (after_setup args (world_init ks fs (Some k)))).
  set (w := after_setup args (world_init ks fs (Some k))).
  destruct (follows_calm_while_True args fuel w) as [_ H].
  unfold try_except_finally.
  destruct (while_True fuel args w) as [r w1]. cbn [fst snd] in H.
  destruct r as [[]|[]| |]; try (rewrite H; unfold handler, print, emit;
    rewrite ?teardown_run; cbn [fst snd trace with_trace calm with_sigint]; tauto).
  destruct H as [_ [ext H]].
  unfold handler, print, emit. rewrite teardown_run.
  cbn [fst snd trace with_trace]. rewrite <- app_assoc, in_app_iff.
  intros [Hin|Hin]; [|simpl in Hin; intuition discriminate].
  assert (In (EImshow name img)
            (trace (snd (while_True fuel args (calm w))))) as Hc
    by (rewrite H, in_app_iff; left; exact Hin).
  destruct (while_True fuel args (calm w)) as [[[]|[]| |] w0];
    unfold handler, print, emit; rewrite ?teardown_run;
    cbn [fst snd trace with_trace] in *; rewrite ?in_app_iff; auto.
Qed.

(** What an iteration presents for the snapshot it has taken. *)
Lemma present_shows args rgb slam rgb_ts slam_ts w :
  sigint w = None ->
  (forall l, rgb = Some l ->
     In (EImshow RGB_WINDOW
           (draw_text (ts_label rgb_ts) (convert COLOR_RGB2BGR (deref (wmem w) l))))
        (new_events w (snd (present args (rgb, slam, rgb_ts, slam_ts) w)))) /\
  (forall l, slam = Some l -> show_slam args = true ->
     (l < length (heap (wmem w)))%nat ->
     In (EImshow SLAM_WINDOW (deref (wmem w) l))
        (new_events w (snd (present args (rgb, slam, rgb_ts, slam_ts) w)))).
Proof.
  intros Hq. rewrite present_quiet by exact Hq. unfold new_events.
  cbn [snd trace with_keys with_trace with_mem fst]. rewrite drop_app_length.
  unfold present_events. split.
  - intros l ->. rewrite in_app_iff. left. unfold rgb_events.
    rewrite rendered_new. left. reflexivity.
  - intros l -> Hs Hl. rewrite !in_app_iff. right. left.
    unfold slam_events. rewrite Hs, rendered_old by exact Hl. left. reflexivity.
Qed.

(** C9, as the code has it.  Every image a run of [main] puts on screen,
    however the run ends, is in one of the two windows.  In the RGB window
    it is a delivered RGB frame, channels swapped, with the label of that
    frame's own timestamp drawn on it and nothing else.  In the SLAM window,
    which needs [--show-slam], it is a delivered SLAM frame as it was stored,
    with nothing drawn on it.  In an iteration that SIGINT does not disturb,
    the snapshot's copies are what is presented: the copy of the RGB frame
    converted and labelled, and with [--show-slam] the copy of the SLAM frame
    itself, which is a new array equal to the stored one.  And in a run
    without SIGINT every iteration that comes after an RGB frame presents the
    latest one, and with [--show-slam] every iteration that comes after a
    SLAM frame presents the latest one. *)
Theorem shown_images_annotation :
  (forall cfg argv fuel ks fs int name img,
     In (EImshow name img)
        (trace (snd (main cfg argv fuel (world_init ks fs int)))) ->
     (name = RGB_WINDOW /\ annotated img /\
      exists d r, In (RGB, d, r) (concat fs) /\ img = rgb_view d r) \/
     (name = SLAM_WINDOW /\ show_slam (parse_args argv) = true /\
      drawn img = [] /\
      exists d r, In (SLAM, d, r) (concat fs) /\ img = array_of d)) /\
  (forall args w,
     sigint w = None -> _lock (wmem w) = false -> mem_ok (wmem w) ->
     exists rgb slam rgb_ts slam_ts w1,
       take_snapshot w = (Returns (rgb, slam, rgb_ts, slam_ts), w1) /\
       (forall l,
          rgb = Some l ->
          In (EImshow RGB_WINDOW
                (draw_text (ts_label rgb_ts)
                   (convert COLOR_RGB2BGR (deref (wmem w1) l))))
             (new_events w1 (snd (present args (rgb, slam, rgb_ts, slam_ts) w1)))) /\
       (forall l,
          slam = Some l -> show_slam args = true ->
          In (EImshow SLAM_WINDOW (deref (wmem w1) l))
             (new_events w1 (snd (present args (rgb, slam, rgb_ts, slam_ts) w1))) /\
          (length (heap (wmem w)) <= l)%nat /\
          Some (deref (wmem w1) l) = fst (slot SLAM (wmem w)) /\
          drawn (deref (wmem w1) l) = [])) /\
  (forall cfg argv fuel ks fs i d r,
     (i < iterations fuel ks)%nat ->
     (last_put RGB (concat (take (S i) fs)) = Some (d, r) ->
      In (EImshow RGB_WINDOW (rgb_view d r))
         (trace (snd (main cfg argv fuel (world_init ks fs None))))) /\
     (given_show_slam argv = true ->
      last_put SLAM (concat (take (S i) fs)) = Some (d, r) ->
      In (EImshow SLAM_WINDOW (array_of d))
         (trace (snd (main cfg argv fuel (world_init ks fs None)))))).
Proof.
  conj_split.
  - intros cfg argv fuel ks fs int name img Hin.
    apply main_window_calm in Hin.
    destruct (main_closed cfg argv fuel ks fs) as (_ & T & _).
    rewrite T, !in_app_iff in Hin. destruct Hin as [Hin|[Hin|Hin]].
    + destruct (setup_events_no_window _ _ _ Hin).
    + apply in_concat in Hin. destruct Hin as (es & Hes & Hin).
      apply in_map_iff in Hes. destruct Hes as (i & <- & _).
      destruct (nth_iteration_window _ _ _ _ _ _ Hin)
        as [(-> & d & r & Hd & ->)|(-> & Hs & d & r & Hd & ->)].
      * left. conj_split; [reflexivity | | eauto].
        exists (Some (capture_timestamp_ns r)). reflexivity.
      * right. conj_split; [reflexivity | exact Hs | reflexivity | eauto].
    + destruct (quits fuel ks); simpl in Hin; intuition discriminate.
  - intros args w Hq Hl Hok.
    pose proof (take_snapshot_kept any_event w Hl) as H. unfold wp in H.
    rewrite (take_snapshot_quiet w Hq Hl) in H. cbn [fst snd outcome] in H.
    destruct H as [_ H].
    destruct (snapshot_mem (wmem w)) as [[[[rgb slam] rgb_ts] slam_ts] M] eqn:E.
    exists rgb, slam, rgb_ts, slam_ts, (with_mem M w).
    cbn [fst snd] in H. destruct H as [Hfresh H]. destruct (H Hok) as (Hseen & _ & Cs).
    destruct (present_shows args rgb slam rgb_ts slam_ts (with_mem M w) Hq)
      as [Pr Ps].
    conj_split.
    + rewrite (take_snapshot_quiet w Hq Hl), E. reflexivity.
    + exact Pr.
    + intros l -> Hs. destruct (Cs l eq_refl) as [Hlt Hd].
      conj_split.
      * apply (Ps l eq_refl Hs Hlt).
      * apply (Hfresh l). right. reflexivity.
      * rewrite <- (Hseen SLAM). reflexivity.
      * exact Hd.
  - intros cfg argv fuel ks fs i d r Hi.
    destruct (main_closed cfg argv fuel ks fs) as (_ & T & _).
    assert (forall e, In e (nth_iteration (parse_args argv) fs ks i) ->
                      In e (trace (snd (main cfg argv fuel (world_init ks fs None)))))
      as Hit.
    { intros e He. rewrite T, !in_app_iff. right. left.
      apply in_concat. exists (nth_iteration (parse_args argv) fs ks i).
      split; [|exact He]. apply in_map, in_seq. lia. }
    split.
    + intros E. apply Hit. unfold nth_iteration, frame_events.
      rewrite E, in_app_iff. left. left. reflexivity.
    + intros Hs E. apply Hit. unfold nth_iteration, frame_events.
      change (show_slam (parse_args argv)) with (given_show_slam argv).
      rewrite Hs, E, !in_app_iff. right. left. left. reflexivity.
Qed.

Lemma shown_images_annotation_witness :
  In (EImshow RGB_WINDOW (rgb_view sample_rgb (at_ns 100)))
     (trace (snd (main sample_config with_show_slam 1 sample_world))) /\
  In (EImshow SLAM_WINDOW (array_of sample_slam))
     (trace (snd (main sample_config with_show_slam 1 sample_world))).
Proof.
  unfold sample_world.
  pose proof (proj2 (proj2 shown_images_annotation) sample_config with_show_slam
                1%nat [ord "q"%char]
                [[(RGB, sample_rgb, at_ns 100); (SLAM, sample_slam, at_ns 50)]] O)
    as H.
  split.
  - destruct (H sample_rgb (at_ns 100)) as [Hr _]; [simpl; lia|].
    apply Hr. reflexivity.
  - destruct (H sample_slam (at_ns 50)) as [_ Hs]; [simpl; lia|].
    apply Hs; reflexivity.
Defined.

(** C9 as stated fails: with [--show-slam], the SLAM window shows an image
    that carries no annotation. *)
Lemma slam_window_not_annotated :
  ~ presents_only_annotated
      (trace (snd (main sample_config with_show_slam 1 sample_world))).
Proof.
  intros H. destruct (H SLAM_WINDOW (array_of sample_slam)) as [ts Hts].
  - vm_compute. in_list.
  - discriminate Hts.
Qed.
